(** * align_lyrics.py: alignment of lyrics with a timed transcription

    A shallow embedding of [align_lyrics.py] and of the part of Python it
    runs on:

    - [B64]: Python's [float] (IEEE 754 binary64, round to nearest, ties to
      even), with [round(x, 2)] and [int(x)];
    - [Str]: the string functions the script calls ([lower], [upper],
      [strip], the two regular expressions), on ASCII text;
    - [Difflib]: [difflib.SequenceMatcher(None, a, b).get_matching_blocks()]
      as CPython 3.11 implements it ([__chain_b], [find_longest_match],
      [get_matching_blocks]);
    - [Align]: [clean_word], [get_lyrics_words], [align_lyrics],
      [format_reactive] and [format_output].

    Diagnostics printed to stderr, the Whisper call and file access are
    outside the embedding: [align_lyrics] takes the lines of the lyrics file
    and the dictionary Whisper returned. *)

From Stdlib Require Import ZArith QArith Qpower Qround Qabs Lia Lqa Bool.
From Stdlib Require Import Floats.SpecFloat.
From Stdlib Require Import Strings.Ascii Strings.String DecimalString.
From stdpp Require Import gmap strings list fin_maps sorting.

(** ** Python floats *)

Module B64.

(** A float is a [spec_float] of the Standard Library: signed zeros,
    infinities, NaN, and [S754_finite s m e] for (-1)^s * m * 2^e.  The
    operations are the IEEE 754 ones: the exact rational result, rounded to
    the nearest binary64 number. *)
Abbreviation float := spec_float.

Local Open Scope Q_scope.

Definition pow2 (e : Z) : Q := Qpower 2 e.

(** floor (log2 a) for a > 0 *)
Definition ilog2 (a : Q) : Z :=
  let l0 := (Z.log2 (Qnum a) - Z.log2 (Zpos (Qden a)))%Z in
  if Qle_bool (pow2 l0) a then l0 else (l0 - 1)%Z.

(** nearest integer, ties to the even one *)
Definition rhe (x : Q) : Z :=
  let f := Qfloor x in
  match Qcompare (x - inject_Z f) (1 # 2) with
  | Lt => f
  | Gt => (f + 1)%Z
  | Eq => if Z.even f then f else (f + 1)%Z
  end.

(** exponent of the unit in the last place of a >= 0: 53 significant bits,
    smallest exponent -1074 (subnormal numbers) *)
Definition expo (a : Q) : Z := Z.max (ilog2 a - 52) (-1074).

(** the integer significand a >= 0 rounds to, at exponent [expo a] *)
Definition mant (a : Q) : Z := rhe (a / pow2 (expo a)).

(** the value a >= 0 rounds to when the exponent is unbounded above *)
Definition rndQ (a : Q) : Q := inject_Z (mant a) * pow2 (expo a).

(** round a >= 0 to binary64 with sign [s]; 2^1024 and above overflow *)
Definition RNabs (s : bool) (a : Q) : float :=
  let '(m, e) := if (mant a =? 2 ^ 53)%Z then ((2 ^ 52)%Z, (expo a + 1)%Z)
                 else (mant a, expo a) in
  match m with
  | Zpos p => if (971 <? e)%Z then S754_infinity s else S754_finite s p e
  | _ => S754_zero s
  end.

Definition RN (q : Q) : float := RNabs (negb (Qle_bool 0 q)) (Qabs q).

(** the exact value of a finite float *)
Definition val (x : float) : Q :=
  match x with
  | S754_finite s m e => (if s then -1 else 1) * inject_Z (Zpos m) * pow2 e
  | _ => 0
  end.

(** a float literal: the binary64 number nearest to the decimal *)
Definition lit (q : Q) : float := if Qeq_bool q 0 then S754_zero false else RN q.

Definition fneg (x : float) : float :=
  match x with
  | S754_zero s => S754_zero (negb s)
  | S754_infinity s => S754_infinity (negb s)
  | S754_nan => S754_nan
  | S754_finite s m e => S754_finite (negb s) m e
  end.

(** [x + y] *)
Definition fadd (x y : float) : float :=
  match x, y with
  | S754_nan, _ | _, S754_nan => S754_nan
  | S754_infinity sx, S754_infinity sy => if Bool.eqb sx sy then x else S754_nan
  | S754_infinity _, _ => x
  | _, S754_infinity _ => y
  | S754_zero sx, S754_zero sy => S754_zero (sx && sy)
  | S754_zero _, _ => y
  | _, S754_zero _ => x
  | S754_finite _ _ _, S754_finite _ _ _ =>
      let q := val x + val y in
      if Qeq_bool q 0 then S754_zero false else RN q
  end.

(** [x - y] *)
Definition fsub (x y : float) : float := fadd x (fneg y).

(** [x * y] *)
Definition fmul (x y : float) : float :=
  match x, y with
  | S754_nan, _ | _, S754_nan => S754_nan
  | S754_infinity _, S754_zero _ | S754_zero _, S754_infinity _ => S754_nan
  | S754_infinity sx, S754_infinity sy
  | S754_infinity sx, S754_finite sy _ _
  | S754_finite sx _ _, S754_infinity sy => S754_infinity (xorb sx sy)
  | S754_zero sx, S754_zero sy
  | S754_zero sx, S754_finite sy _ _
  | S754_finite sx _ _, S754_zero sy => S754_zero (xorb sx sy)
  | S754_finite _ _ _, S754_finite _ _ _ => RN (val x * val y)
  end.

(** [x / y] for a divisor that is not zero (the script divides by 2 only;
    Python raises ZeroDivisionError on a zero divisor, IEEE 754 does not) *)
Definition fdiv (x y : float) : float :=
  match x, y with
  | S754_nan, _ | _, S754_nan => S754_nan
  | S754_infinity _, S754_infinity _ | S754_zero _, S754_zero _ => S754_nan
  | S754_infinity sx, S754_zero sy
  | S754_infinity sx, S754_finite sy _ _
  | S754_finite sx _ _, S754_zero sy => S754_infinity (xorb sx sy)
  | S754_zero sx, S754_infinity sy
  | S754_zero sx, S754_finite sy _ _
  | S754_finite sx _ _, S754_infinity sy => S754_zero (xorb sx sy)
  | S754_finite _ _ _, S754_finite _ _ _ => RN (val x / val y)
  end.

(** [round(x, 2)]: CPython rounds the exact value of [x] to two decimals,
    ties to even, and returns the float nearest to that decimal; zeros,
    infinities and NaN are returned as they are. *)
Definition cents (x : float) : Z := rhe (val x * 100).

Definition round2 (x : float) : float :=
  match x with
  | S754_finite s _ _ =>
      if (cents x =? 0)%Z then S754_zero s else RN (inject_Z (cents x) / 100)
  | _ => x
  end.

(** [int(x)]: truncation toward zero; [None] when Python raises
    (ValueError on NaN, OverflowError on an infinity) *)
Definition trunc (q : Q) : Z := Z.quot (Qnum q) (Zpos (Qden q)).

Definition py_int (x : float) : option Z :=
  match x with
  | S754_zero _ => Some 0%Z
  | S754_finite _ _ _ => Some (trunc (val x))
  | _ => None
  end.

Definition is_nan (x : float) : bool :=
  match x with S754_nan => true | _ => false end.

Definition is_finite (x : float) : bool :=
  match x with S754_zero _ | S754_finite _ _ _ => true | _ => false end.

(** position on the extended line: the infinities sit at +-2^1024, beyond
    every finite binary64 number *)
Definition key (x : float) : Q :=
  match x with
  | S754_infinity s => (if s then -1 else 1) * pow2 1024
  | _ => val x
  end.

(** [x <= y], [x < y] and [x == y]; each is False when an operand is NaN *)
Definition fle (x y : float) : bool :=
  negb (is_nan x) && negb (is_nan y) && Qle_bool (key x) (key y).

Definition flt (x y : float) : bool :=
  negb (is_nan x) && negb (is_nan y) && negb (Qle_bool (key y) (key x)).

Definition feq (x y : float) : bool :=
  negb (is_nan x) && negb (is_nan y) && Qeq_bool (key x) (key y).

(** the finite floats that are binary64 numbers: 53 significant bits with an
    exponent in -1074..971, or fewer bits at exponent -1074 *)
Definition is_binary64 (x : float) : bool :=
  match x with
  | S754_finite _ m e =>
      ((2 ^ 52 <=? Zpos m)%Z && (Zpos m <? 2 ^ 53)%Z
         && (-1074 <=? e)%Z && (e <=? 971)%Z)
      || ((Zpos m <? 2 ^ 52)%Z && (e =? -1074)%Z)
  | S754_zero _ => true
  | _ => false
  end.

(** the finite binary64 numbers that are not negative, and the same with
    +infinity added: the values a time computed from such numbers can take *)
Definition nnf (x : float) : Prop := is_binary64 x = true /\ 0 <= val x.
Definition nnx (x : float) : Prop := nnf x \/ x = S754_infinity false.

(** the position of the float a rational a >= 0 rounds to *)
Definition G (a : Q) : Q := key (RNabs false a).

End B64.

(** ** Python strings, on ASCII text *)

Module Str.

(** A string is a [string] of the Standard Library, one [ascii] per
    character.  The classes and case conversions below are those of Python
    on the ASCII characters; other characters are outside this embedding. *)

Definition in_range (lo hi : nat) (c : ascii) : bool :=
  (lo <=? nat_of_ascii c)%nat && (nat_of_ascii c <=? hi)%nat.

Definition is_upper (c : ascii) : bool := in_range 65 90 c.
Definition is_lower (c : ascii) : bool := in_range 97 122 c.
Definition is_digit (c : ascii) : bool := in_range 48 57 c.

(** the class [\w], on ASCII characters *)
Definition is_word_char (c : ascii) : bool :=
  is_upper c || is_lower c || is_digit c || Ascii.eqb c "_".

(** the class [[\w']], on ASCII characters *)
Definition is_token_char (c : ascii) : bool :=
  is_word_char c || Ascii.eqb c "'".

(** the ASCII characters [str.strip()] removes *)
Definition is_space (c : ascii) : bool := in_range 9 13 c || in_range 28 32 c.

Definition lower_char (c : ascii) : ascii :=
  if is_upper c then ascii_of_nat (nat_of_ascii c + 32) else c.

Definition upper_char (c : ascii) : ascii :=
  if is_lower c then ascii_of_nat (nat_of_ascii c - 32) else c.

Definition on_chars (f : list ascii → list ascii) (s : string) : string :=
  string_of_list_ascii (f (list_ascii_of_string s)).

(** [s.lower()] and [s.upper()], on ASCII text *)
Definition lower : string → string := on_chars (map lower_char).
Definition upper : string → string := on_chars (map upper_char).

Fixpoint lstrip (cs : list ascii) : list ascii :=
  match cs with
  | c :: cs' => if is_space c then lstrip cs' else cs
  | [] => []
  end.

(** [s.strip()], on ASCII text *)
Definition strip : string → string :=
  on_chars (λ cs, rev (lstrip (rev (lstrip cs)))).

(** [re.sub(r'[^\w\']', '', s)] *)
Definition sub_non_token : string → string := on_chars (filter is_token_char).

Definition flush (cur : list ascii) : list string :=
  match cur with
  | [] => []
  | _ => [string_of_list_ascii (rev cur)]
  end.

(** the matches of [re.finditer(r'[\w\']+', s)], left to right; [cur] holds
    the run being read, last character first *)
Fixpoint finditer_tokens (cs cur : list ascii) : list string :=
  match cs with
  | [] => flush cur
  | c :: cs' =>
      if is_token_char c then finditer_tokens cs' (c :: cur)
      else flush cur ++ finditer_tokens cs' []
  end.

(** [str(n)] for an int that is not negative *)
Definition str_of_nat (n : nat) : string := NilZero.string_of_uint (Nat.to_uint n).

(** [s.rfind(c)] for a character [c]: the last index of [c] in [s], -1
    when there is none; [i] is the index of the head of [cs] *)
Fixpoint rfind_from (c : ascii) (cs : list ascii) (i last : Z) : Z :=
  match cs with
  | [] => last
  | x :: cs' => rfind_from c cs' (i + 1)%Z (if Ascii.eqb x c then i else last)
  end.

Definition rfind (c : ascii) (cs : list ascii) : Z := rfind_from c cs 0%Z (-1)%Z.

(** the loop of [genericpath._splitext] that skips the leading dots of the
    file name: [true] when it finds a character that is not a dot before
    [dotIndex]; [n] is [dotIndex - filenameIndex] *)
Fixpoint finds_name (cs : list ascii) (n filenameIndex : nat) : bool :=
  match n with
  | O => false
  | S n' =>
      match cs !! filenameIndex with
      | Some c => if Ascii.eqb c "." then finds_name cs n' (S filenameIndex) else true
      | None => true
      end
  end.

(** [os.path.splitext(p)] of posixpath: [sep] is ['/'], [extsep] is ['.']
    and there is no [altsep] *)
Definition splitext (p : string) : string * string :=
  let cs := list_ascii_of_string p in
  let sepIndex := rfind "/" cs in
  let dotIndex := rfind "." cs in
  if (sepIndex <? dotIndex)%Z
     && finds_name cs (Z.to_nat (dotIndex - (sepIndex + 1))) (Z.to_nat (sepIndex + 1))
  then (string_of_list_ascii (take (Z.to_nat dotIndex) cs),
        string_of_list_ascii (drop (Z.to_nat dotIndex) cs))
  else (p, EmptyString).

Fixpoint lstrip_chars (chars cs : list ascii) : list ascii :=
  match cs with
  | c :: cs' => if bool_decide (c ∈ chars) then lstrip_chars chars cs' else cs
  | [] => []
  end.

(** [s.rstrip(chars)] *)
Definition rstrip_chars (chars : list ascii) : string → string :=
  on_chars (λ cs, rev (lstrip_chars chars (rev cs))).

(** ASCII text: every character is below 128.  On such text the classes and
    conversions of this module are those of Python.  Beyond it they are not:
    Python's [\w] also holds letters and digits that are not ASCII,
    [str.lower()] and [str.upper()] can change the number of characters, and
    [str.strip()] removes white space that is not ASCII; the statements about
    these functions are therefore made for ASCII text. *)
Definition is_ascii (c : ascii) : bool := (nat_of_ascii c <? 128)%nat.

Definition ascii_text (s : string) : Prop :=
  Forall (λ c, is_ascii c = true) (list_ascii_of_string s).

End Str.

(** ** difflib.SequenceMatcher *)

Module Difflib.

(** [Match(a, b, size)] *)
Definition block : Type := nat * nat * nat.

(** a region [(alo, ahi, blo, bhi)] still to be examined *)
Definition window : Type := nat * nat * nat * nat.

Section Matcher.

(** the two sequences; [isjunk] is None and [autojunk] is True *)
Variables a b : list string.

(** [__chain_b]: for every element of [b] the ascending list of its
    positions; when [b] has 200 elements or more, the elements that occur
    more than [n // 100 + 1] times are removed *)
Definition b2j_all : gmap string (list nat) :=
  foldl (λ m ie, <[ie.2 := default [] (m !! ie.2) ++ [ie.1]]> m) ∅ (imap pair b).

Definition b2j : gmap string (list nat) :=
  let n := length b in
  if (200 <=? n)%nat then
    let ntest := (n / 100 + 1)%nat in
    filter (λ kv, ¬ (ntest < length kv.2)%nat) b2j_all
  else b2j_all.

(** [j2len.get(j-1, 0)]; the key -1 is never present *)
Definition j2len_get (j2len : gmap nat nat) (j : nat) : nat :=
  match j with
  | O => 0
  | S j' => default 0 (j2len !! j')
  end.

(** the inner loop of [find_longest_match], over the positions of [a[i]]
    in [b] *)
Fixpoint scan_row (blo bhi i : nat) (j2len : gmap nat nat) (js : list nat)
    (newj2len : gmap nat nat) (best : block) : gmap nat nat * block :=
  match js with
  | [] => (newj2len, best)
  | j :: js' =>
      if (j <? blo)%nat then scan_row blo bhi i j2len js' newj2len best
      else if (bhi <=? j)%nat then (newj2len, best)
      else
        let k := (j2len_get j2len j + 1)%nat in
        let best' := if (best.2 <? k)%nat then ((i + 1 - k)%nat, (j + 1 - k)%nat, k)
                     else best in
        scan_row blo bhi i j2len js' (<[j := k]> newj2len) best'
  end.

Definition row_step (blo bhi : nat) (st : gmap nat nat * block) (i : nat)
    : gmap nat nat * block :=
  let js := match a !! i with
            | Some x => default [] (b2j !! x)
            | None => []
            end in
  scan_row blo bhi i st.1 js ∅ st.2.

(** [a[i] == b[j]] with both positions in range *)
Definition same_at (i j : nat) : bool :=
  match a !! i, b !! j with
  | Some x, Some y => bool_decide (x = y)
  | _, _ => false
  end.

(** [while besti > alo and bestj > blo and a[besti-1] == b[bestj-1]] *)
Fixpoint extend_left (alo blo besti bestj bestsize : nat) : block :=
  match besti, bestj with
  | S i', S j' =>
      if (alo <? besti)%nat && (blo <? bestj)%nat && same_at i' j'
      then extend_left alo blo i' j' (bestsize + 1)
      else (besti, bestj, bestsize)
  | _, _ => (besti, bestj, bestsize)
  end.

(** [while besti+bestsize < ahi and bestj+bestsize < bhi and
    a[besti+bestsize] == b[bestj+bestsize]]; [n] is [ahi - (besti+bestsize)],
    the number of positions left in [a] *)
Fixpoint extend_right (n ahi bhi besti bestj bestsize : nat) : nat :=
  match n with
  | O => bestsize
  | S n' =>
      if (besti + bestsize <? ahi)%nat && (bestj + bestsize <? bhi)%nat
         && same_at (besti + bestsize) (bestj + bestsize)
      then extend_right n' ahi bhi besti bestj (bestsize + 1)
      else bestsize
  end.

(** [find_longest_match(alo, ahi, blo, bhi)].  No element is junk, so the
    two loops that extend the match by junk elements never run. *)
Definition find_longest_match (alo ahi blo bhi : nat) : block :=
  let st := foldl (row_step blo bhi) (∅, (alo, blo, 0)) (seq alo (ahi - alo)) in
  let '(besti0, bestj0, bestsize0) := st.2 in
  let '(besti, bestj, bestsize1) := extend_left alo blo besti0 bestj0 bestsize0 in
  let bestsize :=
    extend_right (ahi - (besti + bestsize1)) ahi bhi besti bestj bestsize1 in
  (besti, bestj, bestsize).

(** the [while queue] loop of [get_matching_blocks]; the head of [queue] is
    the region [queue.pop()] returns; [None] when [fuel] iterations do not
    empty the queue *)
Fixpoint queue_loop (fuel : nat) (queue : list window) (matching_blocks : list block)
    : option (list block) :=
  match queue with
  | [] => Some matching_blocks
  | (alo, ahi, blo, bhi) :: queue' =>
      match fuel with
      | O => None
      | S fuel' =>
          let '(i, j, k) := find_longest_match alo ahi blo bhi in
          if (k =? 0)%nat then queue_loop fuel' queue' matching_blocks
          else
            let q1 := if (alo <? i)%nat && (blo <? j)%nat
                      then (alo, i, blo, j) :: queue' else queue' in
            let q2 := if (i + k <? ahi)%nat && (j + k <? bhi)%nat
                      then (i + k, ahi, j + k, bhi)%nat :: q1 else q1 in
            queue_loop fuel' q2 (matching_blocks ++ [(i, j, k)])
      end
  end.

(** the order of tuples, which [matching_blocks.sort()] sorts by *)
Definition block_le (x y : block) : Prop :=
  (x.1.1 < y.1.1 ∨ (x.1.1 = y.1.1 ∧
    (x.1.2 < y.1.2 ∨ (x.1.2 = y.1.2 ∧ x.2 ≤ y.2))))%nat.

#[export] Instance block_le_dec x y : Decision (block_le x y).
Proof. unfold block_le. apply _. Defined.

(** one iteration of the loop that collapses adjacent blocks; the state is
    [((i1, j1, k1), non_adjacent)] *)
Definition collapse_step (st : block * list block) (x : block) : block * list block :=
  let '((i1, j1, k1), non_adjacent) := st in
  let '(i2, j2, k2) := x in
  if (i1 + k1 =? i2)%nat && (j1 + k1 =? j2)%nat
  then ((i1, j1, (k1 + k2)%nat), non_adjacent)
  else ((i2, j2, k2),
        if (k1 =? 0)%nat then non_adjacent else non_adjacent ++ [(i1, j1, k1)]).

Definition collapse (blocks : list block) : list block :=
  let '((i1, j1, k1), non_adjacent) := foldl collapse_step ((0, 0, 0)%nat, []) blocks in
  if (k1 =? 0)%nat then non_adjacent else non_adjacent ++ [(i1, j1, k1)].

(** the blocks the loop collects; the queue empties within
    [2 * len(a) + 1] iterations ([queue_loop_fuel] below) *)
Definition found_blocks : list block :=
  default [] (queue_loop (2 * length a + 1) [(0, length a, 0, length b)%nat] []).

(** [get_matching_blocks()] *)
Definition get_matching_blocks : list block :=
  collapse (merge_sort block_le found_blocks) ++ [(length a, length b, 0)%nat].

End Matcher.

(** *** Regions of the comparison matrix *)

(** entries of [j2len] before row [i]: a run that ends at [(i-1, j)] starts
    inside the region *)
Definition j2len_ok (alo blo i : nat) (j2len : gmap nat nat) : Prop :=
  ∀ j k, j2len !! j = Some k → k ≤ i - alo ∧ blo + k ≤ j + 1.

Definition best_ok (alo blo bhi i : nat) (best : block) : Prop :=
  alo ≤ best.1.1 ∧ best.1.1 + best.2 ≤ i ∧ blo ≤ best.1.2 ∧ best.1.2 + best.2 ≤ bhi.

(** rows [i1..i2-1] and columns [j1..j2-1], as [(i1, i2, j1, j2)] *)
Definition rect : Type := nat * nat * nat * nat.

Definition wrect (w : window) : rect := (w.1.1.1, w.1.1.2, w.1.2, w.2).
Definition brect (x : block) : rect := (x.1.1, x.1.1 + x.2, x.1.2, x.1.2 + x.2).

(** [r] is above and to the left of [r'] *)
Definition before_rect (r r' : rect) : Prop :=
  r.1.1.2 ≤ r'.1.1.1 ∧ r.2 ≤ r'.1.2.

Definition sep (r r' : rect) : Prop := before_rect r r' ∨ before_rect r' r.

Definition inside (r w : rect) : Prop :=
  w.1.1.1 ≤ r.1.1.1 ∧ r.1.1.2 ≤ w.1.1.2 ∧ w.1.2 ≤ r.1.2 ∧ r.2 ≤ w.2.

(** [R] holds from every element to every later one *)
Fixpoint pairwise {A} (R : A → A → Prop) (l : list A) : Prop :=
  match l with
  | [] => True
  | x :: l' => Forall (R x) l' ∧ pairwise R l'
  end.

Definition wf_window (w : window) : Prop := w.1.1.1 ≤ w.1.1.2 ∧ w.1.2 ≤ w.2.

(** the iterations the loop of [get_matching_blocks] needs at most for a
    queue *)
Definition cost (queue : list window) : nat :=
  sum_list_with (λ w : window, 2 * (w.1.1.2 - w.1.1.1) + 1) queue.

Definition rects (queue : list window) (mb : list block) : list rect :=
  map wrect queue ++ map brect mb.

(** block [x] ends before block [y] starts, in both sequences *)
Definition before (x y : block) : Prop :=
  x.1.1 + x.2 ≤ y.1.1 ∧ x.1.2 + x.2 ≤ y.1.2.

Definition chain (l : list block) : Prop := pairwise before l.

(** the block being extended by the collapsing loop, when it is not the
    initial dummy *)
Definition pending (cur : block) : list block :=
  if (cur.2 =? 0)%nat then [] else [cur].

(** [(i, j)] is a pair of the block [x] *)
Definition in_block (x : block) (i j : nat) : Prop :=
  ∃ d, d < x.2 ∧ i = x.1.1 + d ∧ j = x.1.2 + d.

(** the same element stands at [a[i]] and at [b[j]] *)
Definition match_at (a b : list string) (i j : nat) : Prop :=
  ∃ x, a !! i = Some x ∧ b !! j = Some x.

(** [a[i:i+k] == b[j:j+k]] for the block [(i, j, k)] *)
Definition block_match (a b : list string) (x : block) : Prop :=
  ∀ d, d < x.2 → match_at a b (x.1.1 + d) (x.1.2 + d).

(** entries of [j2len] before row [i]: the run of length [k] that ends at
    [(i-1, j)] is a run of equal elements *)
Definition j2len_match (a b : list string) (i : nat) (j2len : gmap nat nat) : Prop :=
  ∀ j k, j2len !! j = Some k →
    k ≤ i ∧ k ≤ j + 1 ∧ block_match a b (i - k, j + 1 - k, k).

End Difflib.

(** ** Exceptions *)

Inductive py_error : Set :=
  | ZeroDivisionError
  | IndexError
  | ValueError
  | OverflowError
  | OSError.

(** the outcome of a call: a value, or the exception it raises *)
Inductive result (A : Type) : Type :=
  | Ok (x : A)
  | Raise (e : py_error).

Arguments Ok {A} x.
Arguments Raise {A} e.

#[export] Instance result_ret : MRet result := λ A x, Ok x.

#[export] Instance result_bind : MBind result := λ A B k m,
  match m with
  | Ok x => k x
  | Raise e => Raise e
  end.

(** [l[i]] for an index that is not negative *)
Definition py_index {A} (l : list A) (i : nat) : result A :=
  match l !! i with
  | Some x => Ok x
  | None => Raise IndexError
  end.

(** ** align_lyrics.py *)

Module Align.

Import B64.

(** an entry of [get_lyrics_words] *)
Record lyrics_word : Type := {
  lw_original : string;
  lw_clean : string;
  lw_line : nat
}.

(** an entry of a segment's ["words"], as Whisper returns it; a key can be
    absent *)
Record word_info : Type := {
  wi_word : option string;
  wi_start : option float;
  wi_end : option float
}.

(** an entry of [transcribed] *)
Record transcribed_word : Type := {
  tw_word : string;
  tw_clean : string;
  tw_start : float;
  tw_end : float
}.

(** an entry of [result_timings]; the key ['estimated'] is present on
    interpolated entries only *)
Record timing : Type := {
  t_word : string;
  t_start : float;
  t_end : float;
  t_estimated : option bool;
  t_line : nat
}.

(** the int 0, which Python converts to 0.0 in float arithmetic *)
Definition zero : float := S754_zero false.

Definition clean_word (word : string) : string :=
  Str.sub_non_token (Str.lower word).

(** [get_lyrics_words], on the lines [f.readlines()] returned *)
Definition line_words (line_num : nat) (line : string) : list lyrics_word :=
  map (λ m, {| lw_original := m; lw_clean := clean_word m; lw_line := line_num |})
      (Str.finditer_tokens (list_ascii_of_string line) []).

Definition get_lyrics_words (lines : list string) : list lyrics_word :=
  concat (imap line_words lines).

(** the words of [result["segments"]], each segment given by its ["words"];
    an absent ["start"] or ["end"] is the int 0 *)
Definition transcribed_of (word_info : word_info) : list transcribed_word :=
  let word := Str.strip (default EmptyString (wi_word word_info)) in
  if bool_decide (word = EmptyString) then []
  else [{| tw_word := word; tw_clean := clean_word word;
           tw_start := default zero (wi_start word_info);
           tw_end := default zero (wi_end word_info) |}].

Definition transcribed_words (segments : list (list word_info)) : list transcribed_word :=
  concat (map (λ segment, concat (map transcribed_of segment)) segments).

(** the loop over the matching blocks that fills [lyrics_to_trans] *)
Definition add_block (n_lyrics n_trans : nat) (lyrics_to_trans : gmap nat nat)
    (block : Difflib.block) : gmap nat nat :=
  let '(lyrics_start, trans_start, size) := block in
  foldl (λ m i,
           let lyrics_idx := (lyrics_start + i)%nat in
           let trans_idx := (trans_start + i)%nat in
           if (lyrics_idx <? n_lyrics)%nat && (trans_idx <? n_trans)%nat
           then <[lyrics_idx := trans_idx]> m else m)
        lyrics_to_trans (seq 0 size).

Definition lyrics_to_trans (lyrics_clean trans_clean : list string) : gmap nat nat :=
  foldl (add_block (length lyrics_clean) (length trans_clean)) ∅
        (Difflib.get_matching_blocks lyrics_clean trans_clean).

Section Timings.

Variable transcribed : list transcribed_word.
Variable l2t : gmap nat nat.
(** [len(lyrics_words)] *)
Variable n : nat.

(** the first [j] of [js] that is in [lyrics_to_trans], with its image *)
Fixpoint first_matched (js : list nat) : option (nat * nat) :=
  match js with
  | [] => None
  | j :: js' =>
      match l2t !! j with
      | Some trans_idx => Some (j, trans_idx)
      | None => first_matched js'
      end
  end.

(** [range(i - 1, -1, -1)] and [range(i + 1, len(lyrics_words))] *)
Definition range_down (i : nat) : list nat := rev (seq 0 i).
Definition range_up (i : nat) : list nat := seq (i + 1) (n - (i + 1)).

Definition prev_time (i : nat) : result float :=
  match first_matched (range_down i) with
  | Some (_, trans_idx) => tw ← py_index transcribed trans_idx; Ok (tw_end tw)
  | None => Ok zero
  end.

Definition next_time (i : nat) : result (option float) :=
  match first_matched (range_up i) with
  | Some (_, trans_idx) => tw ← py_index transcribed trans_idx; Ok (Some (tw_start tw))
  | None => Ok None
  end.

Definition est_time (prev_time : float) (next_time : option float) : float :=
  match next_time with
  | Some next_time => fdiv (fadd prev_time next_time) (lit 2)
  | None => fadd prev_time (lit (3 # 10))
  end.

(** the body of the loop over [enumerate(lyrics_words)] *)
Definition timing_of (i : nat) (lw : lyrics_word) : result timing :=
  match l2t !! i with
  | Some trans_idx =>
      tw ← py_index transcribed trans_idx;
      Ok {| t_word := lw_original lw;
            t_start := round2 (tw_start tw);
            t_end := round2 (tw_end tw);
            t_estimated := None;
            t_line := lw_line lw |}
  | None =>
      prev ← prev_time i;
      next ← next_time i;
      let est := est_time prev next in
      Ok {| t_word := lw_original lw;
            t_start := round2 est;
            t_end := round2 (fadd est (lit (2 # 10)));
            t_estimated := Some true;
            t_line := lw_line lw |}
  end.

Fixpoint timings_from (i : nat) (lyrics_words : list lyrics_word) : result (list timing) :=
  match lyrics_words with
  | [] => Ok []
  | lw :: rest =>
      t ← timing_of i lw;
      ts ← timings_from (S i) rest;
      Ok (t :: ts)
  end.

(** the time the interpolator starts from: the end of the nearest matched
    word before index [i], 0 when there is none *)
Definition is_prev_time (i : nat) (pt : float) : Prop :=
  (∃ p trans_idx tw, p < i ∧ l2t !! p = Some trans_idx ∧
      (∀ q, p < q < i → l2t !! q = None) ∧
      transcribed !! trans_idx = Some tw ∧ pt = tw_end tw)
  ∨ ((∀ q, q < i → l2t !! q = None) ∧ pt = zero).

(** the start of the nearest matched word after index [i], if there is one *)
Definition is_next_time (i : nat) (nt : option float) : Prop :=
  (∃ q trans_idx tw, i < q < n ∧ l2t !! q = Some trans_idx ∧
      (∀ r, i < r < q → l2t !! r = None) ∧
      transcribed !! trans_idx = Some tw ∧ nt = Some (tw_start tw))
  ∨ ((∀ q, i < q < n → l2t !! q = None) ∧ nt = None).

End Timings.

(** [result_timings] when the loop over the lyrics words ends *)
Definition result_timings (lyrics_words : list lyrics_word)
    (transcribed : list transcribed_word) : result (list timing) :=
  let l2t := lyrics_to_trans (map lw_clean lyrics_words) (map tw_clean transcribed) in
  timings_from transcribed l2t (length lyrics_words) 0 lyrics_words.

(** [100*matched//len(lyrics_words)] in the message printed last *)
Definition match_rate (matched n : nat) : result nat :=
  if (n =? 0)%nat then Raise ZeroDivisionError else Ok ((100 * matched) / n)%nat.

Definition matched_count (l2t : gmap nat nat) (n : nat) : nat :=
  length (filter (λ i, is_Some (l2t !! i)) (seq 0 n)).

Definition align_lyrics (lines : list string) (segments : list (list word_info))
    : result (list timing) :=
  let lyrics_words := get_lyrics_words lines in
  let transcribed := transcribed_words segments in
  let l2t := lyrics_to_trans (map lw_clean lyrics_words) (map tw_clean transcribed) in
  result_timings ← result_timings lyrics_words transcribed;
  _ ← match_rate (matched_count l2t (length lyrics_words)) (length lyrics_words);
  Ok result_timings.

(** *** format_reactive *)

Record reactive_word : Type := {
  rw_font : string;
  rw_color : string;
  rw_time : float;
  rw_text : string
}.

(** a line record; ['text'] is [json.dumps(words_array)], kept here as the
    array it encodes; ['subtitle'] can be absent *)
Record reactive_line : Type := {
  rl_text : list reactive_word;
  rl_isJson : bool;
  rl_locked : bool;
  rl_seconds : float;
  rl_subtitle : option string
}.

(** the dictionary [lines]: line number to the words of the line *)
Definition group_lines (word_timings : list timing) : gmap nat (list timing) :=
  foldl (λ lines word, <[t_line word := default [] (lines !! t_line word) ++ [word]]> lines)
        ∅ word_timings.

(** [sorted(lines.keys())] *)
Definition sorted_keys (lines : gmap nat (list timing)) : list nat :=
  merge_sort Nat.le (map fst (map_to_list lines)).

Fixpoint words_array (font color : string) (prev_start : float) (line_words : list timing)
    : list reactive_word :=
  match line_words with
  | [] => []
  | word :: rest =>
      {| rw_font := font; rw_color := color;
         rw_time := round2 (fsub (t_start word) prev_start);
         rw_text := Str.upper (t_word word) |}
        :: words_array font color (t_start word) rest
  end.

(** [subtitles[line_num].upper()] under [if subtitles and line_num < len(subtitles)] *)
Definition subtitle_of (subtitles : option (list string)) (line_num : nat) : option string :=
  match subtitles with
  | Some subs =>
      if (line_num <? length subs)%nat then Str.upper <$> subs !! line_num else None
  | None => None
  end.

Definition line_obj (font color : string) (subtitles : option (list string))
    (line_num : nat) (line_words : list timing) : list reactive_line :=
  match line_words with
  | [] => []
  | first :: _ =>
      let line_start := t_start first in
      [{| rl_text := words_array font color line_start line_words;
          rl_isJson := true;
          rl_locked := true;
          rl_seconds := line_start;
          rl_subtitle := subtitle_of subtitles line_num |}]
  end.

Definition format_reactive (word_timings : list timing) (font color : string)
    (subtitles : option (list string)) : list reactive_line :=
  let lines := group_lines word_timings in
  concat (map (λ line_num, line_obj font color subtitles line_num
                             (default [] (lines !! line_num)))
              (sorted_keys lines)).

(** *** format_output *)

(** a time in the output: a float of seconds, or an int of milliseconds *)
Inductive num : Type :=
  | NFloat (x : float)
  | NInt (k : Z).

(** an entry of the flat output; the keys ['estimated'] and ['line'] can be
    absent *)
Record entry : Type := {
  e_word : string;
  e_start : num;
  e_end : num;
  e_estimated : option bool;
  e_line : option nat
}.

Inductive output : Type :=
  | OutSimple (m : gmap string num)
  | OutFlat (l : list entry).

(** [int(x * 1000)] *)
Definition to_ms (x : float) : result Z :=
  let y := fmul x (lit 1000) in
  match py_int y with
  | Some k => Ok k
  | None => Raise (if is_nan y then ValueError else OverflowError)
  end.

Definition time_val (use_milliseconds : bool) (x : float) : result num :=
  if use_milliseconds then k ← to_ms x; Ok (NInt k) else Ok (NFloat x).

(** the body of the loop of the simple format; the state is
    [(result, word_count)] *)
Definition simple_step (use_milliseconds : bool)
    (st : gmap string num * gmap string nat) (item : timing)
    : result (gmap string num * gmap string nat) :=
  let '(res, word_count) := st in
  let clean := clean_word (t_word item) in
  if bool_decide (clean = EmptyString) then Ok st
  else
    let '(word_count', key) :=
      match word_count !! clean with
      | Some c => (<[clean := S c]> word_count,
                   String.append clean (String.append "_" (Str.str_of_nat (S c))))
      | None => (<[clean := 1%nat]> word_count, clean)
      end in
    v ← time_val use_milliseconds (t_start item);
    Ok (<[key := v]> res, word_count').

Fixpoint simple_loop (use_milliseconds : bool) (st : gmap string num * gmap string nat)
    (word_timings : list timing) : result (gmap string num * gmap string nat) :=
  match word_timings with
  | [] => Ok st
  | item :: rest =>
      st' ← simple_step use_milliseconds st item;
      simple_loop use_milliseconds st' rest
  end.

(** an item of the list comprehension of the flat format in milliseconds *)
Definition ms_entry (item : timing) : result entry :=
  s ← to_ms (t_start item);
  e ← to_ms (t_end item);
  Ok {| e_word := t_word item; e_start := NInt s; e_end := NInt e;
        e_estimated := None; e_line := None |}.

Fixpoint ms_entries (word_timings : list timing) : result (list entry) :=
  match word_timings with
  | [] => Ok []
  | item :: rest =>
      e ← ms_entry item;
      es ← ms_entries rest;
      Ok (e :: es)
  end.

(** a dictionary of [word_timings], returned as it is *)
Definition entry_of (item : timing) : entry :=
  {| e_word := t_word item; e_start := NFloat (t_start item);
     e_end := NFloat (t_end item); e_estimated := t_estimated item;
     e_line := Some (t_line item) |}.

Definition format_output (word_timings : list timing) (use_milliseconds simple : bool)
    : result output :=
  if simple then
    st ← simple_loop use_milliseconds (∅, ∅) word_timings;
    Ok (OutSimple st.1)
  else if use_milliseconds then
    es ← ms_entries word_timings;
    Ok (OutFlat es)
  else Ok (OutFlat (map entry_of word_timings)).

(** *** load_subtitles *)

(** [f"{base}_s{ext}"] *)
Definition subtitle_path (lyrics_path : string) : string :=
  let '(base, ext) := Str.splitext lyrics_path in
  String.append base (String.append "_s" ext).

(** what stands at a path for which [os.path.exists] is true: a file that
    [open] and [f.readlines()] read, with the lines returned, or something
    they fail on (a directory, a file without read permission, bytes that do
    not decode), with the exception raised *)
Inductive file_state : Type :=
  | Readable (lines : list string)
  | Unreadable (e : py_error).

(** [load_subtitles]; [files] holds the paths that exist *)
Definition load_subtitles (files : gmap string file_state) (lyrics_path : string)
    : result (option (list string)) :=
  match files !! subtitle_path lyrics_path with
  | None => Ok None
  | Some (Readable lines) => Ok (Some (map (Str.rstrip_chars ["010"; "013"]%char) lines))
  | Some (Unreadable e) => Raise e
  end.

(** *** main *)

(** the arguments of the command line that [main] reads after the
    alignment *)
Record args : Type := {
  arg_lyrics : string;
  arg_output : option string;
  arg_milliseconds : bool;
  arg_simple : bool;
  arg_reactive : bool;
  arg_font : string;
  arg_color : string
}.

(** the value given to [json.dumps] *)
Inductive document : Type :=
  | DocReactive (lines : list reactive_line)
  | DocOutput (out : output).

(** [args.output if args.output else "result.json"] *)
Definition output_path (a : args) : string :=
  match arg_output a with
  | Some p => if bool_decide (p = EmptyString) then "result.json" else p
  | None => "result.json"
  end.

(** [main], from the lines [f.readlines()] returns for the lyrics file and
    the segments of the transcription of the audio file: the path written to
    and the value serialised into it *)
Definition main (lines : list string) (segments : list (list word_info))
    (files : gmap string file_state) (a : args) : result (string * document) :=
  timings ← align_lyrics lines segments;
  subtitles ← load_subtitles files (arg_lyrics a);
  output ← (if arg_reactive a
            then Ok (DocReactive (format_reactive timings (arg_font a) (arg_color a) subtitles))
            else out ← format_output timings (arg_milliseconds a) (arg_simple a);
                 Ok (DocOutput out));
  Ok (output_path a, output).

(** *** Definitions for the statements *)

(** the words of a line, in their order *)
Definition on_line (line_num : nat) (word_timings : list timing) : list timing :=
  filter (λ w, t_line w = line_num) word_timings.

(** the time deltas of a line whose words start at [starts]: 0 for the first
    word (its start minus itself), then each start minus the one before,
    rounded to two decimals *)
Definition deltas (starts : list float) : list float :=
  match starts with
  | [] => []
  | s0 :: rest =>
      round2 (fsub s0 s0) :: zip_with (λ prev cur, round2 (fsub cur prev)) starts rest
  end.

(** the transcription words the claims about times are stated for: a time
    is a finite binary64 number of seconds that is not negative, a word does
    not end before it starts, and a word does not start before the words
    before it have ended *)
Definition is_time (x : float) : Prop := is_binary64 x = true ∧ fle zero x = true.

Definition well_timed (transcribed : list transcribed_word) : Prop :=
  ∀ j tw, transcribed !! j = Some tw →
    is_time (tw_start tw) ∧ is_time (tw_end tw) ∧ fle (tw_start tw) (tw_end tw) = true.

Definition chronological (transcribed : list transcribed_word) : Prop :=
  ∀ j j' tw tw', j < j' → transcribed !! j = Some tw → transcribed !! j' = Some tw' →
    fle (tw_end tw) (tw_start tw') = true.

(** no word ends after [bound] *)
Definition below (bound : float) (transcribed : list transcribed_word) : Prop :=
  ∀ j tw, transcribed !! j = Some tw → fle (tw_end tw) bound = true.

Definition increasing (l2t : gmap nat nat) : Prop :=
  ∀ i1 j1 i2 j2, l2t !! i1 = Some j1 → l2t !! i2 = Some j2 → i1 < i2 → j1 < j2.

(** a word as Whisper returns it, with its start and end in seconds *)
Definition heard (word : string) (start end_ : Q) : word_info :=
  {| wi_word := Some word; wi_start := Some (lit start); wi_end := Some (lit end_) |}.

(** an entry of [result_timings] with the given times, in seconds *)
Definition timed (word : string) (start end_ : Q) (line : nat) : timing :=
  {| t_word := word; t_start := lit start; t_end := lit end_;
     t_estimated := None; t_line := line |}.

(** [k] is [q] truncated toward zero *)
Definition truncates (k : Z) (q : Q) : Prop :=
  ((0 <= q)%Q → (inject_Z k <= q)%Q ∧ (q < inject_Z k + 1)%Q) ∧
  ((q <= 0)%Q → (inject_Z k - 1 < q)%Q ∧ (q <= inject_Z k)%Q).

(** what the flat format in milliseconds makes of an entry *)
Definition ms_of (it : timing) (e : entry) : Prop :=
  ∃ s e', to_ms (t_start it) = Ok s ∧ to_ms (t_end it) = Ok e' ∧
    e = {| e_word := t_word it; e_start := NInt s; e_end := NInt e';
           e_estimated := None; e_line := None |}.

(** the values of the simple format in milliseconds *)
Definition ms_values (wt : list timing) (m : gmap string num) : Prop :=
  ∀ key v, m !! key = Some v → ∃ it k, it ∈ wt ∧ to_ms (t_start it) = Ok k ∧ v = NInt k.

(** what [format_reactive] makes of the words of line [line_num] *)
Definition reactive_line_of (word_timings : list timing)
    (subtitles : option (list string)) (line_num : nat) (rl : reactive_line) : Prop :=
  ∃ first rest,
    on_line line_num word_timings = first :: rest ∧
    rl_seconds rl = t_start first ∧
    map rw_time (rl_text rl) = deltas (map t_start (first :: rest)) ∧
    map rw_text (rl_text rl) = map (λ w, Str.upper (t_word w)) (first :: rest) ∧
    (is_finite (t_start first) = true → head (map rw_time (rl_text rl)) = Some zero) ∧
    (∀ subs, subtitles = Some subs → length subs ≤ line_num → rl_subtitle rl = None) ∧
    (∀ subs s, subtitles = Some subs → subs !! line_num = Some s →
               rl_subtitle rl = Some (Str.upper s)).

(** a token of the lyrics: not empty, of characters of [[\w']] only *)
Definition token (s : string) : Prop :=
  s ≠ EmptyString ∧ Forall (λ c, Str.is_token_char c = true) (list_ascii_of_string s).

(** segments whose words are ASCII text *)
Definition ascii_segments (segments : list (list word_info)) : Prop :=
  Forall (Forall (λ wi, ∀ w, wi_word wi = Some w → Str.ascii_text w)) segments.

(** no white space at either end *)
Definition stripped (s : string) : Prop :=
  (∀ c, head (list_ascii_of_string s) = Some c → Str.is_space c = false) ∧
  (∀ c, last (list_ascii_of_string s) = Some c → Str.is_space c = false).

(** the entry of a word when no word at all is matched: estimated, from
    0.3 s to 0.5 s *)
Definition unanchored (lw : lyrics_word) : timing :=
  {| t_word := lw_original lw; t_start := lit (3 # 10); t_end := lit (1 # 2);
     t_estimated := Some true; t_line := lw_line lw |}.

(** the normalised form of an entry's word, the key the simple format
    starts from *)
Definition form (item : timing) : string := clean_word (t_word item).

(** [f"{clean}_{word_count[clean]}"] *)
Definition numbered (clean : string) (c : nat) : string :=
  String.append clean (String.append "_" (Str.str_of_nat c)).

(** the number of entries of [word_timings] with the form [w] *)
Definition occurrences (w : string) (word_timings : list timing) : nat :=
  length (filter (λ item, form item = w) word_timings).

(** a key of the simple format and its value come from the entry [item] *)
Definition key_of (use_milliseconds : bool) (word_timings : list timing)
    (key : string) (v : num) (item : timing) : Prop :=
  form item ≠ EmptyString ∧ time_val use_milliseconds (t_start item) = Ok v ∧
  (key = form item ∨
   ∃ c, (2 ≤ c ≤ occurrences (form item) word_timings)%nat ∧ key = numbered (form item) c).

(** the state of the loop of the simple format after the entries [seen] *)
Definition simple_inv (b : bool) (seen : list timing)
    (st : gmap string num * gmap string nat) : Prop :=
  (∀ w c, st.2 !! w = Some c → w ≠ EmptyString ∧ c = occurrences w seen ∧ (1 ≤ c)%nat) ∧
  (∀ it, it ∈ seen → form it ≠ EmptyString → is_Some (st.2 !! form it)) ∧
  (∀ it, it ∈ seen → form it ≠ EmptyString → is_Some (st.1 !! form it)) ∧
  (∀ key v, st.1 !! key = Some v → ∃ it, it ∈ seen ∧ key_of b seen key v it) ∧
  (size st.1 ≤ length seen)%nat.

(** the state of the loop when no form occurs twice *)
Definition distinct_inv (seen : list timing)
    (st : gmap string num * gmap string nat) : Prop :=
  (∀ w, is_Some (st.2 !! w) → ∃ it, it ∈ seen ∧ form it = w) ∧
  (∀ key v, st.1 !! key = Some v ↔
     key ≠ EmptyString ∧ ∃ it, it ∈ seen ∧ form it = key ∧ v = NFloat (t_start it)).

(** the number of word objects of a reactive output *)
Definition total_words (lines : list reactive_line) : nat :=
  sum_list_with (λ rl, length (rl_text rl)) lines.

(** an entry with only the keys [format_reactive] reads: the end time and
    the flag ['estimated'] are blanked *)
Definition reactive_view (item : timing) : timing :=
  {| t_word := t_word item; t_start := t_start item; t_end := zero;
     t_estimated := None; t_line := t_line item |}.

(** not after, for the start times of two entries *)
Definition starts_le (t t' : timing) : Prop := (val (t_start t) <= val (t_start t'))%Q.

End Align.

(** * Facts about the embedding *)

(** ** Rounding to binary64 *)

Module B64Facts.

Import B64.
Local Open Scope Q_scope.

(** the operations agree with the reference implementation of the Standard
    Library ([SpecFloat]) at the values the claims use *)
Example fadd_reference :
  fadd (lit (3 # 10)) (lit 1) = SFadd 53 1024 (lit (3 # 10)) (lit 1) /\
  fadd (lit (65 # 100)) (lit (2 # 10)) = SFadd 53 1024 (lit (65 # 100)) (lit (2 # 10)) /\
  fadd (S754_finite false 1 (-1074)) (S754_finite true 3 (-1074))
    = SFadd 53 1024 (S754_finite false 1 (-1074)) (S754_finite true 3 (-1074)) /\
  fadd (S754_finite false 9007199254740991 971) (S754_finite false 9007199254740991 971)
    = SFadd 53 1024 (S754_finite false 9007199254740991 971)
                    (S754_finite false 9007199254740991 971).
Proof. vm_compute. repeat split. Qed.

Example fmul_fdiv_fsub_reference :
  fmul (lit (1239 # 1000)) (lit 1000) = SFmul 53 1024 (lit (1239 # 1000)) (lit 1000) /\
  fmul (lit (12395 # 10000)) (lit 1000) = SFmul 53 1024 (lit (12395 # 10000)) (lit 1000) /\
  fdiv (lit (13 # 10)) (lit 2) = SFdiv 53 1024 (lit (13 # 10)) (lit 2) /\
  fdiv (S754_finite false 3 (-1074)) (lit 2) = SFdiv 53 1024 (S754_finite false 3 (-1074)) (lit 2) /\
  fsub (lit (112 # 10)) (lit (105 # 10)) = SFsub 53 1024 (lit (112 # 10)) (lit (105 # 10)).
Proof. vm_compute. repeat split. Qed.

(** [round(x, 2)] at halves that binary64 holds exactly (ties go to the even
    hundredth) and at decimals it does not hold exactly *)
Example round2_values :
  round2 (lit (125 # 1000)) = lit (12 # 100) /\
  round2 (lit (375 # 1000)) = lit (38 # 100) /\
  round2 (lit (2675 # 1000)) = lit (267 # 100) /\
  round2 (lit (15 # 1000)) = lit (1 # 100) /\
  round2 (lit (655 # 1000)) = lit (66 # 100).
Proof. vm_compute. repeat split. Qed.

Lemma pow2_pos e : 0 < pow2 e.
Proof. unfold pow2. apply Qpower_0_lt. reflexivity. Qed.

Lemma pow2_add x y : pow2 (x + y) == pow2 x * pow2 y.
Proof. unfold pow2. apply Qpower_plus. discriminate. Qed.

Lemma pow2_Z k : (0 <= k)%Z -> pow2 k == inject_Z (2 ^ k)%Z.
Proof. intros H. unfold pow2. symmetry. apply (Zpower_Qpower 2 k H). Qed.

Lemma pow2_ge1 k : (0 <= k)%Z -> 1 <= pow2 k.
Proof.
  intros H. rewrite (pow2_Z k H).
  assert (1 <= 2 ^ k)%Z by (apply Z.lt_pred_le; apply Z.pow_pos_nonneg; lia).
  rewrite <- (Zle_Qle 1). exact H0. 
Qed.

Lemma pow2_le x y : (x <= y)%Z -> pow2 x <= pow2 y.
Proof.
  intros H. replace y with (x + (y - x))%Z by lia. rewrite pow2_add.
  pose proof (pow2_pos x). pose proof (pow2_ge1 (y - x) ltac:(lia)). nra.
Qed.

Lemma pow2_lt x y : (x < y)%Z -> pow2 x < pow2 y.
Proof.
  intros H. replace y with (x + 1 + (y - x - 1))%Z by lia. rewrite !pow2_add.
  pose proof (pow2_pos x). pose proof (pow2_ge1 (y - x - 1) ltac:(lia)).
  change (pow2 1) with 2. nra.
Qed.

Lemma pow2_lt_inv x y : pow2 x < pow2 y -> (x < y)%Z.
Proof.
  intros H. destruct (Z.lt_ge_cases x y) as [|Hge]; [assumption|].
  apply pow2_le in Hge. lra.
Qed.

Lemma pow2_S x : pow2 (x + 1) == 2 * pow2 x.
Proof. rewrite pow2_add. change (pow2 1) with 2. ring. Qed.

Lemma Zlog2_pow2 n : (0 < n)%Z -> pow2 (Z.log2 n) <= inject_Z n /\ inject_Z n < pow2 (Z.log2 n + 1).
Proof.
  intros H. destruct (Z.log2_spec n H) as [H1 H2].
  pose proof (Z.log2_nonneg n).
  rewrite !pow2_Z by lia. rewrite <- Zle_Qle, <- Zlt_Qlt.
  replace (Z.log2 n + 1)%Z with (Z.succ (Z.log2 n)) by lia. auto.
Qed.

Lemma ilog2_spec a : 0 < a -> pow2 (ilog2 a) <= a /\ a < pow2 (ilog2 a + 1).
Proof.
  intros Ha. unfold ilog2.
  destruct a as [n d]. cbn [Qnum Qden].
  assert (Hn : (0 < n)%Z) by (unfold Qlt in Ha; simpl in Ha; lia).
  destruct (Zlog2_pow2 n Hn) as [N1 N2].
  destruct (Zlog2_pow2 (Zpos d) ltac:(lia)) as [D1 D2].
  set (ln := Z.log2 n) in *. set (ld := Z.log2 (Zpos d)) in *.
  assert (E : n # d == inject_Z n / inject_Z (Zpos d)%Z) by (apply Qmake_Qdiv).
  assert (Dp : 0 < inject_Z (Zpos d)%Z) by (rewrite <- (Zlt_Qlt 0); lia).
  assert (Hup : n # d < pow2 (ln - ld + 1)).
  { rewrite E. apply Qlt_shift_div_r; [assumption|].
    replace (ln - ld + 1)%Z with ((ln + 1) + (- ld))%Z by lia. rewrite pow2_add.
    assert (P : pow2 (- ld) * pow2 ld == 1).
    { rewrite <- pow2_add. replace (- ld + ld)%Z with 0%Z by lia. reflexivity. }
    pose proof (pow2_pos (- ld)). pose proof (pow2_pos (ln+1)). pose proof (pow2_pos ld).
    assert (1 <= pow2 (- ld) * inject_Z (Zpos d)%Z) by nra.
    nra. }
  assert (Hlo : pow2 (ln - ld - 1) < n # d).
  { rewrite E. apply Qlt_shift_div_l; [assumption|].
    replace (ln - ld - 1)%Z with (ln + (- (ld + 1)))%Z by lia. rewrite pow2_add.
    assert (P : pow2 (- (ld + 1)) * pow2 (ld + 1) == 1).
    { rewrite <- pow2_add. replace (- (ld + 1) + (ld + 1))%Z with 0%Z by lia. reflexivity. }
    pose proof (pow2_pos (- (ld + 1))). pose proof (pow2_pos ln). pose proof (pow2_pos (ld + 1)).
    assert (pow2 (- (ld + 1)) * inject_Z (Zpos d)%Z < 1) by nra.
    nra. }
  destruct (Qle_bool (pow2 (ln - ld)) (n # d)) eqn:B.
  - apply Qle_bool_iff in B. split; assumption.
  - assert (~ pow2 (ln - ld) <= n # d) by (intros C; apply Qle_bool_iff in C; congruence).
    replace (ln - ld - 1 + 1)%Z with (ln - ld)%Z by lia. split; lra.
Qed.

Lemma ilog2_unique a l : pow2 l <= a -> a < pow2 (l + 1) -> ilog2 a = l.
Proof.
  intros H1 H2.
  assert (Ha : 0 < a) by (pose proof (pow2_pos l); lra).
  destruct (ilog2_spec a Ha) as [S1 S2].
  assert (pow2 l < pow2 (ilog2 a + 1)) by lra.
  assert (pow2 (ilog2 a) < pow2 (l + 1)) by lra.
  apply pow2_lt_inv in H, H0. lia.
Qed.

Lemma ilog2_mono a1 a2 : 0 < a1 -> a1 <= a2 -> (ilog2 a1 <= ilog2 a2)%Z.
Proof.
  intros H1 H2.
  destruct (ilog2_spec a1 H1) as [S1 S2].
  destruct (ilog2_spec a2 ltac:(lra)) as [T1 T2].
  assert (pow2 (ilog2 a1) < pow2 (ilog2 a2 + 1)) by lra.
  apply pow2_lt_inv in H. lia.
Qed.

Lemma rhe_proper x y : x == y -> rhe x = rhe y.
Proof.
  intros E. unfold rhe.
  assert (F : Qfloor x = Qfloor y) by (apply Qfloor_comp; exact E).
  assert (C : (x - inject_Z (Qfloor x)%Z ?= 1 # 2) = (y - inject_Z (Qfloor y)%Z ?= 1 # 2)).
  { apply Qcompare_comp; [|reflexivity]. rewrite F, E. reflexivity. }
  rewrite C, F. reflexivity.
Qed.

Lemma rhe_floor x : rhe x = Qfloor x \/ rhe x = (Qfloor x + 1)%Z.
Proof.
  unfold rhe. destruct (x - inject_Z (Qfloor x)%Z ?= 1 # 2); auto.
  destruct (Z.even (Qfloor x)); auto.
Qed.

Lemma inject_Z_S k : inject_Z (k + 1)%Z == inject_Z k + 1.
Proof. rewrite inject_Z_plus. reflexivity. Qed.

Lemma rhe_bounds x : inject_Z (rhe x)%Z - (1 # 2) <= x /\ x <= inject_Z (rhe x)%Z + (1 # 2).
Proof.
  pose proof (Qfloor_le x) as L. pose proof (Qlt_floor x) as U.
  rewrite inject_Z_S in U. unfold rhe.
  destruct (Qcompare_spec (x - inject_Z (Qfloor x)%Z) (1 # 2)) as [E|E|E].
  - destruct (Z.even (Qfloor x)); rewrite ?inject_Z_S; split; lra.
  - split; lra.
  - rewrite inject_Z_S. split; lra.
Qed.

Lemma rhe_Z k : rhe (inject_Z k) = k.
Proof.
  unfold rhe. rewrite Qfloor_Z.
  destruct (Qcompare_spec (inject_Z k - inject_Z k) (1 # 2)) as [E|E|E]; try lra.
  reflexivity.
Qed.

Lemma rhe_mono x y : x <= y -> (rhe x <= rhe y)%Z.
Proof.
  intros H.
  pose proof (Qfloor_resp_le x y H) as F.
  destruct (Z.eq_dec (Qfloor x) (Qfloor y)) as [E|N].
  - unfold rhe. rewrite <- E.
    destruct (Qcompare_spec (x - inject_Z (Qfloor x)%Z) (1 # 2)) as [Ex|Ex|Ex];
    destruct (Qcompare_spec (y - inject_Z (Qfloor x)%Z) (1 # 2)) as [Ey|Ey|Ey];
    try lra; try lia; destruct (Z.even (Qfloor x)); lia.
  - destruct (rhe_floor x) as [-> | ->]; destruct (rhe_floor y) as [-> | ->]; try lia.
    (* rhe x = floor x + 1, rhe y = floor y, floor x < floor y *)
Qed.

Lemma pow2_opp e : / pow2 e == pow2 (- e).
Proof. unfold pow2. symmetry. apply Qpower_opp. Qed.

Lemma div_pow2 a e : a / pow2 e == a * pow2 (- e).
Proof. unfold Qdiv. rewrite pow2_opp. reflexivity. Qed.

Lemma pow2_cancel e : pow2 (- e) * pow2 e == 1.
Proof. rewrite <- pow2_add. replace (- e + e)%Z with 0%Z by lia. reflexivity. Qed.

Lemma expo_ge a : (-1074 <= expo a)%Z.
Proof. unfold expo. lia. Qed.

Lemma expo_ilog2 a : (ilog2 a - 52 <= expo a)%Z.
Proof. unfold expo. lia. Qed.

Lemma mant_zero a : a == 0 -> mant a = 0%Z.
Proof.
  intros E. unfold mant. rewrite (rhe_proper _ 0); [apply (rhe_Z 0)|].
  unfold Qdiv. rewrite E at 1. ring.
Qed.

Lemma mant_nonneg a : 0 <= a -> (0 <= mant a)%Z.
Proof.
  intros H. unfold mant. rewrite <- (rhe_Z 0). apply rhe_mono.
  rewrite div_pow2. pose proof (pow2_pos (- expo a)). change (inject_Z 0) with 0. nra.
Qed.

Lemma scaled_lt a : 0 < a -> a * pow2 (- expo a) < pow2 53.
Proof.
  intros H. destruct (ilog2_spec a H) as [_ U].
  pose proof (expo_ilog2 a) as E.
  pose proof (pow2_pos (- expo a)) as P.
  assert (pow2 (ilog2 a + 1) * pow2 (- expo a) <= pow2 53).
  { rewrite <- pow2_add. apply pow2_le. lia. }
  nra.
Qed.

Lemma mant_le a : 0 <= a -> (mant a <= 2 ^ 53)%Z.
Proof.
  intros H. destruct (Qlt_le_dec 0 a) as [P|N].
  - unfold mant. rewrite <- (rhe_Z (2 ^ 53)%Z). apply rhe_mono.
    rewrite div_pow2. rewrite <- (pow2_Z 53) by lia.
    apply Qlt_le_weak, scaled_lt, P.
  - rewrite mant_zero by lra. lia.
Qed.

Lemma mant_ge a : 0 < a -> (-1074 < expo a)%Z -> (2 ^ 52 <= mant a)%Z.
Proof.
  intros H E. destruct (ilog2_spec a H) as [L _].
  assert (X : expo a = (ilog2 a - 52)%Z) by (unfold expo in *; lia).
  unfold mant. rewrite <- (rhe_Z (2 ^ 52)%Z). apply rhe_mono.
  rewrite div_pow2. rewrite <- (pow2_Z 52) by lia.
  pose proof (pow2_pos (- expo a)) as P.
  assert (pow2 52 == pow2 (ilog2 a) * pow2 (- expo a)).
  { rewrite <- pow2_add. rewrite X. replace (ilog2 a + - (ilog2 a - 52))%Z with 52%Z by lia. reflexivity. }
  nra.
Qed.

Lemma rndQ_nonneg a : 0 <= a -> 0 <= rndQ a.
Proof.
  intros H. unfold rndQ. pose proof (mant_nonneg a H). pose proof (pow2_pos (expo a)).
  rewrite (Zle_Qle 0) in H0. change (inject_Z 0) with 0 in H0. nra.
Qed.

Lemma rndQ_zero a : a == 0 -> rndQ a == 0.
Proof. intros E. unfold rndQ. rewrite (mant_zero a E). change (inject_Z 0) with 0. ring. Qed.

(** an integer multiple of 2^e', e' >= expo, is rounded to itself *)
Lemma rndQ_exact a k : 0 <= a -> a == inject_Z k * pow2 (expo a) -> rndQ a == a.
Proof.
  intros H E. unfold rndQ, mant.
  rewrite (rhe_proper _ (inject_Z k)).
  - rewrite rhe_Z. symmetry. exact E.
  - rewrite div_pow2. rewrite E at 1. rewrite <- Qmult_assoc.
    rewrite (Qmult_comm (pow2 _)). rewrite pow2_cancel. ring.
Qed.

Lemma ilog2_proper a a' : 0 < a -> a == a' -> ilog2 a = ilog2 a'.
Proof.
  intros P E. destruct (ilog2_spec a P) as [L U].
  symmetry. apply ilog2_unique; rewrite <- E; assumption.
Qed.

Lemma expo_proper a a' : 0 < a -> a == a' -> expo a = expo a'.
Proof. intros P E. unfold expo. rewrite (ilog2_proper a a' P E). reflexivity. Qed.

Lemma mant_proper a a' : 0 < a -> a == a' -> mant a = mant a'.
Proof.
  intros P E. unfold mant. rewrite (expo_proper a a' P E).
  apply rhe_proper. rewrite E. reflexivity.
Qed.

Lemma rndQ_proper a a' : 0 <= a -> a == a' -> rndQ a == rndQ a'.
Proof.
  intros P E. destruct (Qlt_le_dec 0 a) as [Q|N].
  - unfold rndQ. rewrite (mant_proper a a' Q E), (expo_proper a a' Q E). reflexivity.
  - rewrite (rndQ_zero a) by lra. rewrite (rndQ_zero a') by lra. reflexivity.
Qed.

Lemma RNabs_proper s a a' : 0 < a -> a == a' -> RNabs s a = RNabs s a'.
Proof.
  intros P E. unfold RNabs.
  rewrite (mant_proper a a' P E), (expo_proper a a' P E). reflexivity.
Qed.

Lemma rndQ_fix_lt m e : (0 <= m < 2 ^ 53)%Z -> (-1074 <= e)%Z ->
  rndQ (inject_Z m * pow2 e) == inject_Z m * pow2 e.
Proof.
  intros Hm He. set (a := inject_Z m * pow2 e).
  assert (Mq : 0 <= inject_Z m) by (rewrite <- (Zle_Qle 0); lia).
  pose proof (pow2_pos e) as Pe.
  assert (A0 : 0 <= a) by (unfold a; nra).
  destruct (Qlt_le_dec 0 a) as [P|N].
  2:{ assert (Z0 : a == 0) by lra. rewrite (rndQ_zero a Z0). symmetry. exact Z0. }
  assert (Ex : (expo a <= e)%Z).
  { destruct (ilog2_spec a P) as [L _].
    assert (a < pow2 (53 + e)).
    { unfold a. rewrite pow2_add. rewrite (pow2_Z 53) by lia.
      assert (inject_Z m < inject_Z (2 ^ 53)%Z) by (rewrite <- Zlt_Qlt; lia). nra. }
    assert (Hlt : pow2 (ilog2 a) < pow2 (53 + e)) by lra.
    apply pow2_lt_inv in Hlt. unfold expo. lia. }
  apply (rndQ_exact a (m * 2 ^ (e - expo a))%Z); [exact A0|].
  rewrite inject_Z_mult. rewrite <- (pow2_Z (e - expo a)) by lia.
  rewrite <- Qmult_assoc. rewrite <- pow2_add.
  replace (e - expo a + expo a)%Z with e by lia. reflexivity.
Qed.

Lemma rndQ_fix m e : (0 <= m <= 2 ^ 53)%Z -> (-1074 <= e)%Z ->
  rndQ (inject_Z m * pow2 e) == inject_Z m * pow2 e.
Proof.
  intros Hm He. destruct (Z.eq_dec m (2 ^ 53)%Z) as [->|Hne].
  - assert (E : inject_Z (2 ^ 53)%Z * pow2 e == inject_Z (2 ^ 52)%Z * pow2 (e + 1)).
    { rewrite pow2_S.
      assert (X : inject_Z (2 ^ 53)%Z == 2 * inject_Z (2 ^ 52)%Z) by reflexivity.
      rewrite X. ring. }
    assert (P : 0 <= inject_Z (2 ^ 53)%Z * pow2 e).
    { pose proof (pow2_pos e). assert (0 < inject_Z (2 ^ 53)%Z) by reflexivity. nra. }
    rewrite (rndQ_proper _ _ P E).
    rewrite E. apply rndQ_fix_lt; lia.
  - apply rndQ_fix_lt; lia.
Qed.

(** rounding is monotone on the rationals that are not negative *)
Lemma rndQ_mono a1 a2 : 0 <= a1 -> a1 <= a2 -> rndQ a1 <= rndQ a2.
Proof.
  intros H1 H2.
  destruct (Qlt_le_dec 0 a1) as [P1|N1].
  2:{ rewrite (rndQ_zero a1) by lra. apply rndQ_nonneg. lra. }
  assert (P2 : 0 < a2) by lra.
  pose proof (ilog2_mono a1 a2 P1 H2) as Lm.
  assert (Em : (expo a1 <= expo a2)%Z) by (unfold expo; lia).
  destruct (Z.eq_dec (expo a1) (expo a2)) as [Ee|Ne].
  - unfold rndQ. rewrite Ee.
    assert (M : (mant a1 <= mant a2)%Z).
    { unfold mant. apply rhe_mono. rewrite Ee, !div_pow2.
      pose proof (pow2_pos (- expo a2)). nra. }
    rewrite Zle_Qle in M. pose proof (pow2_pos (expo a2)). nra.
  - assert (E2 : expo a2 = (ilog2 a2 - 52)%Z) by (unfold expo in *; lia).
    assert (L12 : (ilog2 a1 + 1 <= ilog2 a2)%Z) by (unfold expo in *; lia).
    destruct (ilog2_spec a1 P1) as [_ U1].
    pose proof (pow2_le _ _ L12) as L12q.
    pose proof (expo_ge a1) as G1.
    set (t := (ilog2 a2 - expo a1)%Z).
    assert (T0 : (0 <= t)%Z) by (unfold t; lia).
    assert (B1 : rndQ a1 <= pow2 (ilog2 a2)).
    { unfold rndQ.
      assert (X : pow2 (ilog2 a2) == pow2 t * pow2 (expo a1)).
      { rewrite <- pow2_add. unfold t.
        replace (ilog2 a2 - expo a1 + expo a1)%Z with (ilog2 a2) by lia. reflexivity. }
      assert (M : (mant a1 <= 2 ^ t)%Z).
      { unfold mant. rewrite <- (rhe_Z (2 ^ t)%Z). apply rhe_mono.
        rewrite div_pow2. rewrite <- (pow2_Z t T0).
        assert (Y : pow2 t == pow2 (ilog2 a2) * pow2 (- expo a1)).
        { rewrite <- pow2_add. unfold t. reflexivity. }
        pose proof (pow2_pos (- expo a1)). nra. }
      rewrite Zle_Qle in M. rewrite <- (pow2_Z t T0) in M.
      pose proof (pow2_pos (expo a1)). nra. }
    assert (B2 : pow2 (ilog2 a2) <= rndQ a2).
    { unfold rndQ. pose proof (mant_ge a2 P2 ltac:(pose proof (expo_ge a1); lia)) as M.
      rewrite Zle_Qle in M. rewrite <- (pow2_Z 52) in M by lia.
      assert (X : pow2 (ilog2 a2) == pow2 52 * pow2 (expo a2)).
      { rewrite <- pow2_add. rewrite E2. replace (52 + (ilog2 a2 - 52))%Z with (ilog2 a2) by lia. reflexivity. }
      pose proof (pow2_pos (expo a2)). nra. }
    lra.
Qed.

Lemma inject_pos_pow2 p e : 0 < inject_Z (Zpos p)%Z * pow2 e.
Proof.
  pose proof (pow2_pos e). assert (0 < inject_Z (Zpos p)%Z) by (rewrite <- (Zlt_Qlt 0); lia). nra.
Qed.

Lemma nnf_cases x : nnf x ->
  (exists s, x = S754_zero s) \/
  (exists p e, x = S754_finite false p e /\ (Zpos p < 2 ^ 53)%Z /\ (-1074 <= e <= 971)%Z).
Proof.
  intros [B V]. destruct x as [s|s| |s p e]; try discriminate; [left; eauto|].
  right. exists p, e. cbn in B, V.
  destruct s.
  - exfalso. pose proof (inject_pos_pow2 p e). lra.
  - split; [reflexivity|]. lia.
Qed.

Lemma nnf_lt_max x : nnf x -> val x < pow2 1024.
Proof.
  intros H. destruct (nnf_cases x H) as [[s ->]|(p & e & -> & Hp & He)]; cbn [val].
  - apply pow2_pos.
  - assert (inject_Z (Zpos p)%Z < pow2 53) by (rewrite pow2_Z by lia; rewrite <- Zlt_Qlt; lia).
    assert (pow2 53 * pow2 e <= pow2 1024) by (rewrite <- pow2_add; apply pow2_le; lia).
    pose proof (pow2_pos e). nra.
Qed.

Lemma nnf_key x : nnf x -> key x = val x /\ is_nan x = false.
Proof.
  intros H. destruct (nnf_cases x H) as [[s ->]|(p & e & -> & _)]; split; reflexivity.
Qed.

Lemma RNabs_zero s a : a == 0 -> RNabs s a = S754_zero s.
Proof. intros E. unfold RNabs. rewrite (mant_zero a E). reflexivity. Qed.

(** the two outcomes of rounding a rational that is not negative *)
Lemma RNabs_cases a : 0 <= a ->
  (rndQ a < pow2 1024 /\ nnf (RNabs false a) /\ val (RNabs false a) == rndQ a)
  \/ (pow2 1024 <= rndQ a /\ RNabs false a = S754_infinity false).
Proof.
  intros H. destruct (Qlt_le_dec 0 a) as [P|N].
  2:{ assert (Z0 : a == 0) by lra. left. rewrite (RNabs_zero _ _ Z0), (rndQ_zero _ Z0).
      split; [apply pow2_pos|]. split; [split; [reflexivity|cbn; lra]|reflexivity]. }
  pose proof (mant_nonneg a H) as M0. pose proof (mant_le a H) as M1.
  pose proof (expo_ge a) as E0.
  pose proof (mant_ge a P) as M2.
  unfold RNabs, rndQ.
  set (m := mant a) in *. set (e := expo a) in *.
  pose proof (pow2_pos e) as Pe.
  destruct (Z.eqb_spec m (2 ^ 53)%Z) as [E53|N53].
  - (* the significand rounds up to 2^53 *)
    rewrite E53.
    assert (V : inject_Z (2 ^ 53)%Z * pow2 e == pow2 (e + 53)).
    { rewrite <- (pow2_Z 53) by lia. rewrite (Z.add_comm e 53), pow2_add. reflexivity. }
    change (match (2 ^ 52)%Z with Zpos p => _ | _ => S754_zero false end)
      with (if (971 <? e + 1)%Z then S754_infinity false
            else S754_finite false (Z.to_pos (2 ^ 52)) (e + 1)).
    destruct (Z.ltb_spec 971 (e + 1)%Z) as [O|O].
    + right. split; [|reflexivity]. rewrite V. apply pow2_le. lia.
    + left. split; [rewrite V; apply pow2_lt; lia|]. split.
      * split; [|cbn [val]; apply Qlt_le_weak, inject_pos_pow2].
        cbn [is_binary64]. apply orb_true_iff. left.
        rewrite !andb_true_iff. repeat split; try reflexivity; lia.
      * cbn [val]. rewrite V.
        change (inject_Z (Zpos (Z.to_pos (2 ^ 52)))%Z) with (inject_Z (2 ^ 52)%Z).
        rewrite <- (pow2_Z 52) by lia. rewrite Qmult_1_l, <- pow2_add.
        replace (52 + (e + 1))%Z with (e + 53)%Z by lia. reflexivity.
  - destruct m as [|p|p] eqn:Em; try lia.
    + (* underflow to zero *)
      left. split; [|split; [split; [reflexivity|cbn; lra]|cbn; ring]].
      change (inject_Z 0) with 0. pose proof (pow2_pos 1024). lra.
    + destruct (Z.ltb_spec 971 e) as [O|O].
      * right. split; [|reflexivity].
        assert (M : (2 ^ 52 <= Zpos p)%Z) by (apply M2; lia).
        rewrite Zle_Qle in M. rewrite <- (pow2_Z 52) in M by lia.
        assert (pow2 1024 <= pow2 52 * pow2 e) by (rewrite <- pow2_add; apply pow2_le; lia).
        nra.
      * assert (B : (Zpos p < 2 ^ 53)%Z) by lia.
        left. split; [|split; [split|]].
        -- assert (inject_Z (Zpos p)%Z < pow2 53) by (rewrite pow2_Z by lia; rewrite <- Zlt_Qlt; lia).
           assert (pow2 53 * pow2 e <= pow2 1024) by (rewrite <- pow2_add; apply pow2_le; lia).
           nra.
        -- cbn [is_binary64]. apply orb_true_iff.
           destruct (Z.eq_dec e (-1074)%Z) as [Ee|Ne].
           ++ destruct (Z.ltb_spec (Zpos p) (2 ^ 52)%Z).
              ** right. rewrite andb_true_iff. split; [reflexivity|lia].
              ** left. rewrite !andb_true_iff. repeat split; lia.
           ++ left. assert (2 ^ 52 <= Zpos p)%Z by (apply M2; lia).
              rewrite !andb_true_iff. repeat split; lia.
        -- cbn [val]. apply Qlt_le_weak, inject_pos_pow2.
        -- cbn [val]. ring.
Qed.

Lemma G_le_max a : 0 <= a -> G a <= pow2 1024.
Proof.
  intros H. unfold G. destruct (RNabs_cases a H) as [(L & N & V)|(L & ->)].
  - destruct (nnf_key _ N) as [-> _]. lra.
  - cbn. lra.
Qed.

Lemma G_nonneg a : 0 <= a -> 0 <= G a.
Proof.
  intros H. unfold G. destruct (RNabs_cases a H) as [(L & N & V)|(L & ->)].
  - destruct (nnf_key _ N) as [-> _]. apply N.
  - cbn. pose proof (pow2_pos 1024). lra.
Qed.

Lemma RNabs_nnx a : 0 <= a -> nnx (RNabs false a).
Proof.
  intros H. destruct (RNabs_cases a H) as [(L & N & V)|(L & E)]; [left|right]; assumption.
Qed.

Lemma nnx_not_nan x : nnx x -> is_nan x = false.
Proof. intros [N| ->]; [apply (nnf_key x N)|reflexivity]. Qed.

Lemma nnx_key x : nnx x -> 0 <= key x <= pow2 1024.
Proof.
  intros [N| ->].
  - destruct (nnf_key x N) as [-> _]. pose proof (nnf_lt_max x N). destruct N. split; lra.
  - cbn. pose proof (pow2_pos 1024). split; lra.
Qed.

Lemma G_mono a1 a2 : 0 <= a1 -> a1 <= a2 -> G a1 <= G a2.
Proof.
  intros H1 H2. pose proof (rndQ_mono a1 a2 H1 H2) as R.
  pose proof (G_le_max a1 H1) as M1.
  unfold G in *.
  destruct (RNabs_cases a2 ltac:(lra)) as [(L2 & N2 & V2)|(L2 & E2)].
  - destruct (RNabs_cases a1 H1) as [(L1 & N1 & V1)|(L1 & E1)]; [|lra].
    destruct (nnf_key _ N1) as [-> _]. destruct (nnf_key _ N2) as [-> _]. lra.
  - rewrite E2. exact M1.
Qed.

Lemma G_proper a a' : 0 <= a -> a == a' -> G a == G a'.
Proof.
  intros H E. unfold G. destruct (Qlt_le_dec 0 a) as [P|N].
  - rewrite (RNabs_proper false a a' P E). reflexivity.
  - rewrite (RNabs_zero false a) by lra. rewrite (RNabs_zero false a') by lra. reflexivity.
Qed.

Lemma G_fix x : nnf x -> G (val x) == val x.
Proof.
  intros H. pose proof (nnf_lt_max x H) as L.
  assert (R : rndQ (val x) == val x).
  { destruct (nnf_cases x H) as [[s ->]|(p & e & -> & Hp & He)]; cbn [val].
    - apply rndQ_zero. reflexivity.
    - rewrite (rndQ_proper _ (inject_Z (Zpos p)%Z * pow2 e)).
      + rewrite rndQ_fix by lia. ring.
      + rewrite Qmult_1_l. apply Qlt_le_weak, inject_pos_pow2.
      + ring. }
  unfold G. destruct (RNabs_cases (val x) (proj2 H)) as [(L1 & N1 & V1)|(L1 & E1)].
  - destruct (nnf_key _ N1) as [-> _]. lra.
  - lra.
Qed.

Lemma RN_nonneg q : 0 <= q -> RN q = RNabs false q.
Proof.
  intros H. unfold RN.
  assert (B : Qle_bool 0 q = true) by (apply Qle_bool_iff; exact H).
  rewrite B. cbn [negb]. f_equal.
  destruct q as [n d]. unfold Qabs. f_equal. apply Z.abs_eq.
  unfold Qle in H. cbn in H. lia.
Qed.

Lemma fle_intro x y : is_nan x = false -> is_nan y = false -> key x <= key y -> fle x y = true.
Proof.
  intros Hx Hy H. unfold fle. rewrite Hx, Hy. cbn [negb andb]. apply Qle_bool_iff. exact H.
Qed.

Lemma fle_elim x y : fle x y = true -> is_nan x = false /\ is_nan y = false /\ key x <= key y.
Proof.
  unfold fle. intros H. apply andb_true_iff in H as [H H3]. apply andb_true_iff in H as [H1 H2].
  apply negb_true_iff in H1, H2. apply Qle_bool_iff in H3. auto.
Qed.

Lemma nnf_zero s : nnf (S754_zero s).
Proof. split; [reflexivity|cbn; lra]. Qed.

Lemma nnf_pos p e : nnf (S754_finite false p e) -> 0 < val (S754_finite false p e).
Proof. intros _. cbn [val]. rewrite Qmult_1_l. apply inject_pos_pow2. Qed.

Lemma Qeq_bool_false q : ~ q == 0 -> Qeq_bool q 0 = false.
Proof.
  intros H. destruct (Qeq_bool q 0) eqn:E; [|reflexivity].
  apply Qeq_bool_iff in E. contradiction.
Qed.

Lemma G_zero a : a == 0 -> G a == 0.
Proof. intros E. unfold G. rewrite (RNabs_zero false a E). reflexivity. Qed.

(** x + y for two finite floats that are not negative *)
Lemma fadd_key x y : nnf x -> nnf y ->
  nnx (fadd x y) /\ key (fadd x y) == G (val x + val y).
Proof.
  intros Hx Hy.
  destruct (nnf_cases x Hx) as [[sx ->]|(px & ex & -> & _)];
  destruct (nnf_cases y Hy) as [[sy ->]|(py & ey & -> & _)].
  - cbn [fadd]. split; [left; apply nnf_zero|]. rewrite G_zero; [reflexivity|cbn; ring].
  - cbn [fadd]. split; [left; exact Hy|].
    destruct (nnf_key _ Hy) as [-> _].
    rewrite <- (G_fix _ Hy) at 1. apply G_proper; [apply Hy|]. cbn [val]. ring.
  - cbn [fadd]. split; [left; exact Hx|].
    destruct (nnf_key _ Hx) as [-> _].
    rewrite <- (G_fix _ Hx) at 1. apply G_proper; [apply Hx|]. cbn [val]. ring.
  - pose proof (nnf_pos _ _ Hx) as Px. pose proof (nnf_pos _ _ Hy) as Py.
    unfold fadd. rewrite Qeq_bool_false by lra.
    rewrite RN_nonneg by lra. split; [apply RNabs_nnx; lra|reflexivity].
Qed.

Lemma lit_2 : lit 2 = S754_finite false 4503599627370496 (-51).
Proof. vm_compute. reflexivity. Qed.

Lemma val_lit_2 : val (lit 2) == 2.
Proof. rewrite lit_2. vm_compute. reflexivity. Qed.

(** x / 2 for a finite float that is not negative *)
Lemma fdiv2_key x : nnf x ->
  nnx (fdiv x (lit 2)) /\ key (fdiv x (lit 2)) == G (val x / 2).
Proof.
  intros Hx. destruct (nnf_cases x Hx) as [[sx ->]|(px & ex & -> & _)].
  - rewrite lit_2. cbn [fdiv xorb]. split; [left; apply nnf_zero|].
    rewrite G_zero; [destruct sx; reflexivity|cbn; reflexivity].
  - pose proof (nnf_pos _ _ Hx) as Px. pose proof val_lit_2 as V2.
    rewrite lit_2 in *. unfold fdiv.
    set (v := val (S754_finite false px ex)) in *.
    set (w := val (S754_finite false 4503599627370496 (-51))) in *.
    assert (E : v / w == v / 2) by (rewrite V2; reflexivity).
    assert (P : 0 < v / w) by (rewrite E; apply Qlt_shift_div_l; lra).
    rewrite RN_nonneg by lra. split; [apply RNabs_nnx; lra|].
    apply G_proper; [lra|exact E].
Qed.

Lemma cents_nonneg x : 0 <= val x -> (0 <= cents x)%Z.
Proof.
  intros H. unfold cents. rewrite <- (rhe_Z 0). apply rhe_mono.
  change (inject_Z 0) with 0. lra.
Qed.

Lemma cents_mono x y : val x <= val y -> (cents x <= cents y)%Z.
Proof. intros H. unfold cents. apply rhe_mono. lra. Qed.

Lemma cents_zero s : cents (S754_zero s) = 0%Z.
Proof. reflexivity. Qed.

(** round(x, 2) for a finite float that is not negative *)
Lemma round2_key x : nnf x ->
  nnx (round2 x) /\ key (round2 x) == G (inject_Z (cents x)%Z / 100).
Proof.
  intros Hx. pose proof (cents_nonneg x (proj2 Hx)) as C0.
  assert (Q0 : 0 <= inject_Z (cents x)%Z / 100).
  { apply Qle_shift_div_l; [reflexivity|]. rewrite Zle_Qle in C0. change (inject_Z 0) with 0 in C0. lra. }
  destruct (nnf_cases x Hx) as [[sx ->]|(px & ex & -> & _)].
  - cbn [round2]. split; [left; apply nnf_zero|]. rewrite cents_zero. reflexivity.
  - cbn [round2]. destruct (Z.eqb_spec (cents (S754_finite false px ex)) 0) as [E|N].
    + split; [left; apply nnf_zero|]. rewrite E. reflexivity.
    + rewrite RN_nonneg by exact Q0. split; [apply RNabs_nnx; exact Q0|reflexivity].
Qed.

Lemma round2_inf : round2 (S754_infinity false) = S754_infinity false.
Proof. reflexivity. Qed.

(** round(x, 2) is monotone on the floats that are not negative *)
Lemma round2_mono x y : nnx x -> nnx y -> key x <= key y ->
  fle (round2 x) (round2 y) = true.
Proof.
  intros Hx Hy H.
  assert (Nx : nnx (round2 x)).
  { destruct Hx as [Hx| ->]; [apply round2_key, Hx|right; reflexivity]. }
  destruct Hy as [Hy| ->].
  - destruct Hx as [Hx| ->].
    + destruct (round2_key x Hx) as [N1 K1]. destruct (round2_key y Hy) as [N2 K2].
      apply fle_intro; [apply nnx_not_nan, N1|apply nnx_not_nan, N2|].
      rewrite K1, K2.
      destruct (nnf_key x Hx) as [Kx _]. destruct (nnf_key y Hy) as [Ky _].
      rewrite Kx, Ky in H.
      pose proof (cents_mono x y H) as C. pose proof (cents_nonneg x (proj2 Hx)) as C0.
      rewrite Zle_Qle in C, C0. change (inject_Z 0) with 0 in C0.
      apply G_mono.
      * apply Qle_shift_div_l; [reflexivity|]. lra.
      * unfold Qdiv. assert (0 < / 100) by reflexivity. nra.
    + exfalso. destruct (nnf_key y Hy) as [Ky _]. rewrite Ky in H. cbn [key] in H.
      pose proof (nnf_lt_max y Hy). lra.
  - rewrite round2_inf. apply fle_intro; [apply nnx_not_nan, Nx|reflexivity|].
    cbn [key]. rewrite Qmult_1_l. apply (nnx_key _ Nx).
Qed.

Lemma round2_nnx x : nnx x -> nnx (round2 x).
Proof. intros [Hx| ->]; [apply round2_key, Hx|right; reflexivity]. Qed.

(** adding a finite float that is not negative does not decrease *)
Lemma fadd_ge x c : nnx x -> nnf c -> nnx (fadd x c) /\ key x <= key (fadd x c).
Proof.
  intros [Hx| ->] Hc.
  - destruct (fadd_key x c Hx Hc) as [N K]. split; [exact N|].
    rewrite K. destruct (nnf_key x Hx) as [-> _].
    rewrite <- (G_fix x Hx) at 1. apply G_mono; [apply Hx|].
    destruct Hc as [_ Hc]. lra.
  - destruct (nnf_cases c Hc) as [[sc ->]|(pc & ec & -> & _)]; cbn [fadd];
      (split; [right; reflexivity|lra]).
Qed.

(** the midpoint of a <= b is not below a *)
Lemma midpoint_ge a b : nnf a -> nnf b -> val a <= val b ->
  nnx (fdiv (fadd a b) (lit 2)) /\ key a <= key (fdiv (fadd a b) (lit 2)).
Proof.
  intros Ha Hb H.
  destruct (fadd_key a b Ha Hb) as [Ns Ks].
  destruct (nnf_key a Ha) as [Ka _]. rewrite Ka.
  pose proof (nnf_lt_max a Ha) as La. destruct Ha as [Ba Va].
  destruct Ns as [Ns|Es].
  - destruct (fdiv2_key _ Ns) as [Nh Kh]. split; [exact Nh|].
    rewrite Kh. destruct (nnf_key _ Ns) as [Kk _]. rewrite Kk in Ks.
    (* val s >= 2 * val a *)
    assert (D : val a + val a <= val (fadd a b)).
    { destruct (nnf_cases a (conj Ba Va)) as [[sa Ea]|(pa & ea & Ea & Hp & He)].
      - destruct Ns as [_ Ns]. rewrite Ea in *. cbn [val] in *. lra.
      - assert (R : rndQ (val a + val a) == val a + val a).
        { rewrite (rndQ_proper _ (inject_Z (Zpos pa)%Z * pow2 (ea + 1))).
          - rewrite rndQ_fix by lia. rewrite Ea. cbn [val]. rewrite pow2_S. ring.
          - lra.
          - rewrite Ea. cbn [val]. rewrite pow2_S. ring. }
        assert (M : G (val a + val a) <= G (val a + val b)) by (apply G_mono; lra).
        rewrite <- Ks in M. pose proof (nnf_lt_max _ Ns) as Ls.
        unfold G in M. destruct (RNabs_cases (val a + val a) ltac:(lra)) as [(L1 & N1 & V1)|(L1 & E1)].
        + destruct (nnf_key _ N1) as [K1 _]. rewrite K1 in M. lra.
        + rewrite E1 in M. cbn [key] in M. lra. }
    rewrite <- (G_fix a (conj Ba Va)). apply G_mono; [exact Va|].
    apply Qle_shift_div_l; [reflexivity|]. lra.
  - rewrite Es. rewrite lit_2. cbn [fdiv xorb]. split; [right; reflexivity|].
    cbn [key]. lra.
Qed.

End B64Facts.

(** ** The matching blocks *)

Module DifflibFacts.

Import Difflib.

Section FLM.
Variables a b : list string.

Lemma j2len_get_ok alo blo i j2len j :
  alo ≤ i → blo ≤ j → j2len_ok alo blo i j2len →
  j2len_get j2len j + 1 ≤ i + 1 - alo ∧ blo + (j2len_get j2len j + 1) ≤ j + 1.
Proof.
  intros Hi Hj H. unfold j2len_get. destruct j as [|j']; [lia|].
  destruct (j2len !! j') as [k|] eqn:E; simpl; [|lia].
  destruct (H _ _ E). lia.
Qed.

Lemma scan_row_ok alo blo bhi i j2len js newj2len best :
  alo ≤ i → j2len_ok alo blo i j2len →
  j2len_ok alo blo (S i) newj2len → best_ok alo blo bhi (S i) best →
  j2len_ok alo blo (S i) (scan_row blo bhi i j2len js newj2len best).1 ∧
  best_ok alo blo bhi (S i) (scan_row blo bhi i j2len js newj2len best).2.
Proof.
  intros Hi HJ. revert newj2len best.
  induction js as [|j js IH]; intros newj2len best HN HB; simpl; [done|].
  destruct (Nat.ltb_spec j blo); [by apply IH|].
  destruct (Nat.leb_spec bhi j); [done|].
  destruct (j2len_get_ok alo blo i j2len j Hi ltac:(lia) HJ) as [K1 K2].
  apply IH.
  - intros j' k'. rewrite lookup_insert. case_decide; [|by apply HN].
    intros [= <-]. lia.
  - destruct (Nat.ltb_spec best.2 (j2len_get j2len j + 1)); [|done].
    unfold best_ok; simpl. lia.
Qed.

Lemma row_step_ok alo blo bhi i st :
  alo ≤ i → j2len_ok alo blo i st.1 → best_ok alo blo bhi i st.2 →
  j2len_ok alo blo (S i) (row_step a b blo bhi st i).1 ∧
  best_ok alo blo bhi (S i) (row_step a b blo bhi st i).2.
Proof.
  intros Hi HJ HB. unfold row_step. apply scan_row_ok; [done|done| |].
  - intros j k. by rewrite lookup_empty.
  - unfold best_ok in *. lia.
Qed.

Lemma rows_ok alo blo bhi n : ∀ i st,
  alo ≤ i → j2len_ok alo blo i st.1 → best_ok alo blo bhi i st.2 →
  best_ok alo blo bhi (i + n) (foldl (row_step a b blo bhi) st (seq i n)).2.
Proof.
  induction n as [|n IH]; intros i st Hi HJ HB; simpl.
  - by rewrite Nat.add_0_r.
  - destruct (row_step_ok alo blo bhi i st Hi HJ HB) as [HJ' HB'].
    replace (i + S n) with (S i + n) by lia. apply IH; [lia|done|done].
Qed.

Lemma extend_left_ok alo blo besti : ∀ bestj bestsize,
  alo ≤ besti → blo ≤ bestj →
  let r := extend_left a b alo blo besti bestj bestsize in
  alo ≤ r.1.1 ∧ blo ≤ r.1.2 ∧ r.1.1 + r.2 = besti + bestsize ∧ r.1.2 + r.2 = bestj + bestsize.
Proof.
  induction besti as [|i' IH]; intros bestj bestsize Hi Hj; simpl; [lia|].
  destruct bestj as [|j']; simpl; [lia|].
  destruct (_ && _) eqn:G; simpl; [|lia].
  apply andb_prop in G as [G _]. apply andb_prop in G as [G1 G2].
  apply Nat.ltb_lt in G1, G2.
  destruct (IH j' (bestsize + 1) ltac:(lia) ltac:(lia)) as (? & ? & ? & ?). lia.
Qed.

Lemma extend_right_ok ahi bhi besti bestj n : ∀ bestsize,
  besti + bestsize ≤ ahi → bestj + bestsize ≤ bhi →
  let k := extend_right a b n ahi bhi besti bestj bestsize in
  bestsize ≤ k ∧ besti + k ≤ ahi ∧ bestj + k ≤ bhi.
Proof.
  induction n as [|n IH]; intros bestsize Hi Hj; simpl; [lia|].
  destruct (_ && _) eqn:G; simpl; [|lia].
  apply andb_prop in G as [G _]. apply andb_prop in G as [G1 G2].
  apply Nat.ltb_lt in G1, G2.
  destruct (IH (bestsize + 1) ltac:(lia) ltac:(lia)) as (? & ? & ?). lia.
Qed.

(** the block found lies inside the window *)
Lemma find_longest_match_ok alo ahi blo bhi :
  alo ≤ ahi → blo ≤ bhi →
  let r := find_longest_match a b alo ahi blo bhi in
  alo ≤ r.1.1 ∧ r.1.1 + r.2 ≤ ahi ∧ blo ≤ r.1.2 ∧ r.1.2 + r.2 ≤ bhi.
Proof.
  intros Ha Hb. unfold find_longest_match.
  pose proof (rows_ok alo blo bhi (ahi - alo) alo (∅, (alo, blo, 0))) as R.
  simpl in R. specialize (R ltac:(lia)).
  destruct R as (R1 & R2 & R3 & R4).
  { intros j k. by rewrite lookup_empty. }
  { unfold best_ok; simpl; lia. }
  destruct (foldl _ _ _).2 as [[bi0 bj0] bk0] eqn:E0. simpl in *.
  pose proof (extend_left_ok alo blo bi0 bj0 bk0 R1 R3) as L.
  destruct (extend_left a b alo blo bi0 bj0 bk0) as [[bi bj] bk1] eqn:E1. simpl in *.
  destruct L as (L1 & L2 & L3 & L4).
  pose proof (extend_right_ok ahi bhi bi bj (ahi - (bi + bk1)) bk1 ltac:(lia) ltac:(lia)) as X.
  simpl in X. lia.
Qed.

End FLM.

Lemma sep_sym r r' : sep r r' → sep r' r.
Proof. unfold sep. tauto. Qed.

Lemma sep_inside r w x : inside r w → sep w x → sep r x.
Proof. unfold inside, sep, before_rect. lia. Qed.

Lemma pairwise_app {A} (R : A → A → Prop) l1 l2 :
  pairwise R (l1 ++ l2) ↔
  pairwise R l1 ∧ pairwise R l2 ∧ Forall (λ x, Forall (R x) l2) l1.
Proof.
  induction l1 as [|x l1 IH]; simpl.
  - split; [intros; repeat split; auto|tauto].
  - rewrite Forall_app, IH, Forall_cons. tauto.
Qed.

Lemma pairwise_perm {A} (R : A → A → Prop) l l' :
  (∀ x y, R x y → R y x) → l ≡ₚ l' → pairwise R l → pairwise R l'.
Proof.
  intros Hs Hp. induction Hp as [|x l l' Hp IH|x y l|l l' l'' H1 IH1 H2 IH2]; simpl.
  - done.
  - intros [H1 H2]. split; [by rewrite <- Hp|auto].
  - rewrite !Forall_cons. intros [[H1 H2] [H3 H4]]. repeat split; auto.
  - auto.
Qed.

Section Loop.
Variables a b : list string.

Lemma cost_app q1 q2 : cost (q1 ++ q2) = cost q1 + cost q2.
Proof. unfold cost. by rewrite sum_list_with_app. Qed.

(** the regions pushed after a block (i, j, k) was found in a window *)
Lemma pushed_ok alo ahi blo bhi i j k (queue' : list window) :
  alo ≤ i → i + k ≤ ahi → blo ≤ j → j + k ≤ bhi → 1 ≤ k →
  let q1 := if (alo <? i) && (blo <? j) then (alo, i, blo, j) :: queue' else queue' in
  let q2 := if (i + k <? ahi) && (j + k <? bhi) then (i + k, ahi, j + k, bhi) :: q1 else q1 in
  ∃ news, q2 = news ++ queue' ∧ Forall wf_window news ∧
    Forall (λ w, inside (wrect w) (wrect (alo, ahi, blo, bhi)) ∧
                 sep (brect (i, j, k)) (wrect w)) news ∧
    pairwise sep (map wrect news) ∧ cost news ≤ 2 * (ahi - alo).
Proof.
  intros F1 F2 F3 F4 Hk. simpl.
  destruct ((alo <? i) && (blo <? j)) eqn:G; destruct ((i + k <? ahi) && (j + k <? bhi)) eqn:G';
    repeat match goal with
    | H : _ && _ = true |- _ => apply andb_prop in H as [? ?]
    | H : (_ <? _) = true |- _ => apply Nat.ltb_lt in H
    end.
  - exists [(i + k, ahi, j + k, bhi); (alo, i, blo, j)].
    split; [done|].
    unfold wf_window, inside, sep, before_rect, cost; simpl.
    repeat split; repeat constructor; simpl; lia.
  - exists [(alo, i, blo, j)].
    split; [done|].
    unfold wf_window, inside, sep, before_rect, cost; simpl.
    repeat split; repeat constructor; simpl; lia.
  - exists [(i + k, ahi, j + k, bhi)].
    split; [done|].
    unfold wf_window, inside, sep, before_rect, cost; simpl.
    repeat split; repeat constructor; simpl; lia.
  - exists []. split; [done|].
    unfold cost; simpl. repeat split; try constructor; lia.
Qed.

Lemma queue_loop_ok fuel : ∀ queue mb,
  Forall wf_window queue → Forall (λ x : block, 1 ≤ x.2) mb →
  pairwise sep (rects queue mb) → cost queue ≤ fuel →
  ∃ mb', queue_loop a b fuel queue mb = Some mb' ∧
         Forall (λ x : block, 1 ≤ x.2) mb' ∧ pairwise sep (map brect mb').
Proof.
  induction fuel as [|fuel IH]; intros queue mb Hwf Hk Hsep Hfuel.
  - destruct queue as [|[[[alo ahi] blo] bhi] queue'].
    + exists mb. simpl. unfold rects in Hsep. simpl in Hsep. done.
    + unfold cost in Hfuel. simpl in Hfuel. lia.
  - destruct queue as [|[[[alo ahi] blo] bhi] queue'].
    { exists mb. simpl. unfold rects in Hsep. simpl in Hsep. done. }
    simpl.
    apply Forall_cons in Hwf as [[Ha Hb] Hwf]. simpl in Ha, Hb.
    pose proof (find_longest_match_ok a b alo ahi blo bhi Ha Hb) as F.
    destruct (find_longest_match a b alo ahi blo bhi) as [[i j] k]. simpl in F.
    destruct F as (F1 & F2 & F3 & F4).
    change (cost ((alo, ahi, blo, bhi) :: queue')) with
      (2 * (ahi - alo) + 1 + cost queue') in Hfuel.
    unfold rects in Hsep. simpl in Hsep. destruct Hsep as [HW Hrest].
    fold (rects queue' mb) in HW, Hrest.
    destruct (Nat.eqb_spec k 0) as [->|Hk0].
    { apply IH; [done|done|done|lia]. }
    destruct (pushed_ok alo ahi blo bhi i j k queue' F1 F2 F3 F4 ltac:(lia))
      as (news & -> & Nwf & Nin & Npw & Ncost).
    apply IH.
    + apply Forall_app; done.
    + apply Forall_app. split; [done|]. repeat constructor. simpl. lia.
    + assert (Bin : inside (brect (i, j, k)) (wrect (alo, ahi, blo, bhi))).
      { unfold inside; simpl; lia. }
      apply (pairwise_perm sep ((brect (i, j, k) :: map wrect news) ++ rects queue' mb));
        [apply sep_sym| |].
      { unfold rects. rewrite !map_app. simpl.
        rewrite Permutation_cons_append. by rewrite <- !app_assoc. }
      apply pairwise_app. split; [|split; [done|]].
      * simpl. split; [|done]. apply Forall_fmap. eapply Forall_impl; [exact Nin|].
        simpl. intros w [_ Hs]. exact Hs.
      * apply Forall_cons. split.
        -- eapply Forall_impl; [exact HW|]. intros x Hx. by apply (sep_inside _ _ _ Bin).
        -- apply Forall_fmap. eapply Forall_impl; [exact Nin|]. simpl. intros w [Hin _].
           eapply Forall_impl; [exact HW|]. intros x Hx. by apply (sep_inside _ _ _ Hin).
    + rewrite cost_app. lia.
Qed.

(** the loop empties its queue within its fuel; the blocks it collects are
   not empty and lie apart from each other *)
Lemma found_blocks_ok :
  ∃ mb, queue_loop a b (2 * length a + 1) [(0, length a, 0, length b)] [] = Some mb ∧
        Forall (λ x : block, 1 ≤ x.2) mb ∧ pairwise sep (map brect mb).
Proof.
  apply queue_loop_ok.
  - repeat constructor; simpl; lia.
  - constructor.
  - unfold rects; simpl. done.
  - unfold cost; simpl. lia.
Qed.

End Loop.

#[export] Instance block_le_trans : Transitive block_le.
Proof. intros x y z. unfold block_le. lia. Qed.

#[export] Instance block_le_total : Total block_le.
Proof. intros x y. unfold block_le. lia. Qed.

Lemma StronglySorted_pairwise {A} (R : relation A) l :
  StronglySorted R l → pairwise R l.
Proof. induction 1; simpl; auto. Qed.

Lemma sorted_chain l :
  Forall (λ x : block, 1 ≤ x.2) l → pairwise sep (map brect l) →
  pairwise block_le l → chain l.
Proof.
  induction l as [|x l IH]; simpl; [done|].
  rewrite Forall_cons. intros [Hx Hl] [S1 S2] [L1 L2].
  split; [|by apply IH].
  change (map brect l) with (brect <$> l) in S1. rewrite Forall_fmap in S1.
  rewrite Forall_forall in *. intros y Hy.
  specialize (S1 y Hy). specialize (L1 y Hy). specialize (Hl y Hy).
  unfold sep, before_rect, block_le, before in *. simpl in *. lia.
Qed.

Lemma collapse_loop_chain rest : ∀ cur na,
  Forall (λ x : block, 1 ≤ x.2) rest →
  (cur.2 = 0 → na = [] ∧ cur = (0, 0, 0)) →
  chain (na ++ pending cur ++ rest) →
  let st := foldl collapse_step (cur, na) rest in
  chain (st.2 ++ pending st.1).
Proof.
  induction rest as [|x rest IH]; intros [[i1 j1] k1] na Hk H0 Hc; simpl.
  { by rewrite app_nil_r in Hc. }
  destruct x as [[i2 j2] k2]. apply Forall_cons in Hk as [Hk2 Hk]. simpl in Hk2.
  unfold chain in *.
  destruct (_ && _) eqn:G.
  - apply andb_prop in G as [G1 G2]. apply Nat.eqb_eq in G1, G2.
    apply IH; [done|simpl; lia|].
    unfold pending in *. simpl in *.
    destruct (Nat.eqb_spec (k1 + k2) 0) as [|_]; [lia|].
    destruct (Nat.eqb_spec k1 0) as [Hz|Hnz].
    + destruct (H0 Hz) as [-> [= -> -> ->]]. simpl in *. subst. done.
    + apply pairwise_app in Hc as (C1 & C2 & C3). simpl in C2.
      destruct C2 as [C2 [C4 C5]]. apply Forall_cons in C2 as [C2 C6].
      apply pairwise_app. split; [done|]. split.
      * simpl. split; [|done]. eapply Forall_impl; [exact C4|].
        intros y. unfold before. simpl. lia.
      * eapply Forall_impl; [exact C3|]. simpl. intros y Hy.
        apply Forall_cons in Hy as [Hy1 Hy]. apply Forall_cons in Hy as [Hy2 Hy].
        apply Forall_cons. split; [|done]. unfold before in *. simpl in *. lia.
  - apply IH; [done|simpl; lia|].
    unfold pending in *. simpl in *.
    destruct (Nat.eqb_spec k2 0) as [|_]; [lia|].
    destruct (Nat.eqb_spec k1 0) as [Hz|Hnz]; simpl in *; [done|].
    by rewrite <- app_assoc.
Qed.

Lemma collapse_chain l :
  Forall (λ x : block, 1 ≤ x.2) l → chain l → chain (collapse l).
Proof.
  intros Hk Hc. unfold collapse.
  pose proof (collapse_loop_chain l (0, 0, 0) [] Hk ltac:(done) Hc) as H.
  simpl in H. destruct (foldl collapse_step _ l) as [[[i1 j1] k1] na].
  unfold pending in H. simpl in H. destruct (k1 =? 0); [by rewrite app_nil_r in H|done].
Qed.

(** the blocks of get_matching_blocks before the final dummy follow each
   other in both sequences *)
Lemma matching_blocks_chain (a b : list string) :
  chain (collapse (merge_sort block_le (found_blocks a b))).
Proof.
  destruct (found_blocks_ok a b) as (mb & E & Hk & Hs).
  unfold found_blocks. rewrite E. simpl.
  pose proof (merge_sort_Permutation block_le mb) as P.
  assert (K : Forall (λ x : block, 1 ≤ x.2) (merge_sort block_le mb)) by (by rewrite P).
  apply collapse_chain; [done|].
  apply sorted_chain; [done| |].
  - eapply pairwise_perm; [apply sep_sym| |exact Hs]. by rewrite P.
  - apply StronglySorted_pairwise, StronglySorted_merge_sort; apply _.
Qed.

Lemma add_block_lookup nl nt m x i j :
  Align.add_block nl nt m x !! i = Some j →
  m !! i = Some j ∨ (in_block x i j ∧ i < nl ∧ j < nt).
Proof.
  destruct x as [[s t] k]. unfold Align.add_block, in_block. simpl.
  assert (G : ∀ (n : list nat) (m : gmap nat nat), (∀ d, d ∈ n → d < k) →
    foldl (λ m i, if (s + i <? nl) && (t + i <? nt) then <[s + i := t + i]> m else m) m n !! i = Some j →
    m !! i = Some j ∨ ((∃ d, d < k ∧ i = s + d ∧ j = t + d) ∧ i < nl ∧ j < nt)).
  { induction n as [|d n IH]; intros m' Hn; simpl; [auto|].
    intros H. apply IH in H; [|intros; apply Hn; by right].
    destruct H as [H|H]; [|by right].
    destruct (_ && _) eqn:C; [|by left].
    apply andb_prop in C as [C1 C2]. apply Nat.ltb_lt in C1, C2.
    rewrite lookup_insert in H. case_decide; [|by left].
    injection H as <-. subst i. right. split; [|done].
    exists d. split; [apply Hn; by left|done]. }
  apply G. intros d Hd. apply elem_of_seq in Hd. lia.
Qed.

Lemma add_blocks_lookup nl nt blocks : ∀ m i j,
  foldl (Align.add_block nl nt) m blocks !! i = Some j →
  m !! i = Some j ∨ ∃ x, x ∈ blocks ∧ in_block x i j ∧ i < nl ∧ j < nt.
Proof.
  induction blocks as [|x blocks IH]; intros m i j; simpl; [auto|].
  intros H. apply IH in H as [H|(y & Hy & H)].
  - apply add_block_lookup in H as [H|H]; [by left|].
    right. exists x. split; [by left|done].
  - right. exists y. split; [by right|done].
Qed.

Lemma chain_entries l x y i1 j1 i2 j2 :
  chain l → x ∈ l → y ∈ l → in_block x i1 j1 → in_block y i2 j2 →
  i1 < i2 → j1 < j2.
Proof.
  intros Hc Hx Hy (d1 & D1 & -> & ->) (d2 & D2 & -> & ->) Hlt.
  induction l as [|z l IH]; [by apply elem_of_nil in Hx|].
  destruct Hc as [Hz Hc]. rewrite Forall_forall in Hz.
  apply elem_of_cons in Hx as [->|Hx]; apply elem_of_cons in Hy as [->|Hy].
  - lia.
  - specialize (Hz y Hy). unfold before in Hz. lia.
  - specialize (Hz x Hx). unfold before in Hz. lia.
  - by apply IH.
Qed.

Lemma lyrics_to_trans_lookup (a b : list string) i j :
  Align.lyrics_to_trans a b !! i = Some j →
  (∃ x, x ∈ collapse (merge_sort block_le (found_blocks a b)) ∧ in_block x i j)
  ∧ i < length a ∧ j < length b.
Proof.
  unfold Align.lyrics_to_trans, get_matching_blocks. intros H.
  apply add_blocks_lookup in H as [H|(x & Hx & Hin & Hi & Hj)].
  { by rewrite lookup_empty in H. }
  split; [|done]. exists x. split; [|done].
  apply elem_of_app in Hx as [Hx|Hx]; [done|].
  apply list_elem_of_singleton in Hx as ->.
  destruct Hin as (d & Hd & _). simpl in Hd. lia.
Qed.

Lemma lyrics_to_trans_increasing (a b : list string) i1 j1 i2 j2 :
  Align.lyrics_to_trans a b !! i1 = Some j1 →
  Align.lyrics_to_trans a b !! i2 = Some j2 →
  i1 < i2 → j1 < j2.
Proof.
  intros H1 H2.
  apply lyrics_to_trans_lookup in H1 as [(x & Hx & X) _].
  apply lyrics_to_trans_lookup in H2 as [(y & Hy & Y) _].
  exact (chain_entries _ x y i1 j1 i2 j2 (matching_blocks_chain a b) Hx Hy X Y).
Qed.

End DifflibFacts.

(** ** The alignment loop and the reactive format *)

Module AlignFacts.

Import B64 Align B64Facts DifflibFacts.

Section Spec.
Variable transcribed : list transcribed_word.
Variable l2t : gmap nat nat.
Variable n : nat.
Hypothesis l2t_in_range : ∀ i t, l2t !! i = Some t → t < length transcribed.

Lemma range_down_S i : range_down (S i) = i :: range_down i.
Proof. unfold range_down. rewrite seq_S, rev_app_distr. done. Qed.

Lemma first_matched_down i :
  match first_matched l2t (range_down i) with
  | Some (p, t) => p < i ∧ l2t !! p = Some t ∧ ∀ q, p < q < i → l2t !! q = None
  | None => ∀ q, q < i → l2t !! q = None
  end.
Proof.
  induction i as [|i IH].
  - simpl. lia.
  - rewrite range_down_S. simpl. destruct (l2t !! i) as [t|] eqn:E.
    + repeat split; [lia|done|lia].
    + destruct (first_matched l2t (range_down i)) as [[p t]|].
      * destruct IH as (? & ? & IH). repeat split; [lia|done|].
        intros q Hq. destruct (decide (q = i)) as [->|]; [done|apply IH; lia].
      * intros q Hq. destruct (decide (q = i)) as [->|]; [done|apply IH; lia].
Qed.

Lemma first_matched_seq len : ∀ s,
  match first_matched l2t (seq s len) with
  | Some (q, t) => s ≤ q < s + len ∧ l2t !! q = Some t ∧ ∀ r, s ≤ r < q → l2t !! r = None
  | None => ∀ r, s ≤ r < s + len → l2t !! r = None
  end.
Proof.
  induction len as [|len IH]; intros s; simpl.
  - lia.
  - destruct (l2t !! s) as [t|] eqn:E.
    + repeat split; [lia|lia|done|lia].
    + specialize (IH (S s)). destruct (first_matched l2t (seq (S s) len)) as [[q t]|].
      * destruct IH as (? & ? & IH). repeat split; [lia|lia|done|].
        intros r Hr. destruct (decide (r = s)) as [->|]; [done|apply IH; lia].
      * intros r Hr. destruct (decide (r = s)) as [->|]; [done|apply IH; lia].
Qed.

Lemma py_index_ok i t : l2t !! i = Some t →
  ∃ tw, transcribed !! t = Some tw ∧ py_index transcribed t = Ok tw.
Proof.
  intros H. apply l2t_in_range in H. apply lookup_lt_is_Some in H as [tw E].
  exists tw. unfold py_index. by rewrite E.
Qed.

Lemma prev_time_ok i : ∃ pt, prev_time transcribed l2t i = Ok pt ∧ is_prev_time transcribed l2t i pt.
Proof.
  unfold prev_time. pose proof (first_matched_down i) as F.
  destruct (first_matched l2t (range_down i)) as [[p t]|].
  - destruct F as (F1 & F2 & F3). destruct (py_index_ok p t F2) as (tw & E1 & E2).
    rewrite E2. simpl. eexists. split; [done|]. left. exists p, t, tw. done.
  - eexists. split; [done|]. by right.
Qed.

Lemma next_time_ok i : ∃ nt, next_time transcribed l2t n i = Ok nt ∧ is_next_time transcribed l2t n i nt.
Proof.
  unfold next_time, range_up. pose proof (first_matched_seq (n - (i + 1)) (i + 1)) as F.
  destruct (first_matched l2t (seq (i + 1) (n - (i + 1)))) as [[q t]|].
  - destruct F as (F1 & F2 & F3). destruct (py_index_ok q t F2) as (tw & E1 & E2).
    rewrite E2. simpl. eexists. split; [done|]. left. exists q, t, tw.
    repeat split; try done; try lia. intros r Hr. apply F3. lia.
  - eexists. split; [done|]. right. split; [|done]. intros q Hq. apply F. lia.
Qed.

(** the entry of a matched word *)
Lemma timing_of_matched i lw t : l2t !! i = Some t →
  ∃ tw, transcribed !! t = Some tw ∧
    timing_of transcribed l2t n i lw =
      Ok {| t_word := lw_original lw; t_start := round2 (tw_start tw);
            t_end := round2 (tw_end tw); t_estimated := None; t_line := lw_line lw |}.
Proof.
  intros H. destruct (py_index_ok i t H) as (tw & E1 & E2).
  exists tw. split; [done|]. unfold timing_of. rewrite H, E2. done.
Qed.

(** the entry of a word that is not matched *)
Lemma timing_of_unmatched i lw : l2t !! i = None →
  ∃ pt nt, is_prev_time transcribed l2t i pt ∧ is_next_time transcribed l2t n i nt ∧
    timing_of transcribed l2t n i lw =
      Ok {| t_word := lw_original lw; t_start := round2 (est_time pt nt);
            t_end := round2 (fadd (est_time pt nt) (lit (2 # 10)));
            t_estimated := Some true; t_line := lw_line lw |}.
Proof.
  intros H. destruct (prev_time_ok i) as (pt & P1 & P2).
  destruct (next_time_ok i) as (nt & N1 & N2).
  exists pt, nt. repeat split; [done|done|]. unfold timing_of. rewrite H, P1, N1. done.
Qed.

Lemma timing_of_ok i lw : ∃ t, timing_of transcribed l2t n i lw = Ok t.
Proof.
  destruct (l2t !! i) as [t|] eqn:E.
  - destruct (timing_of_matched i lw t E) as (tw & _ & ->). eauto.
  - destruct (timing_of_unmatched i lw E) as (pt & nt & _ & _ & ->). eauto.
Qed.

(** the loop over the lyrics words returns one entry per word, in order *)
Lemma timings_from_ok lws : ∀ i0,
  ∃ ts, timings_from transcribed l2t n i0 lws = Ok ts ∧ length ts = length lws ∧
    ∀ k lw, lws !! k = Some lw →
      ∃ t, ts !! k = Some t ∧ timing_of transcribed l2t n (i0 + k) lw = Ok t.
Proof.
  induction lws as [|lw lws IH]; intros i0; simpl.
  - exists []. repeat split; try done.
  - destruct (timing_of_ok i0 lw) as [t Et]. rewrite Et. simpl.
    destruct (IH (S i0)) as (ts & E & L & K). rewrite E. simpl.
    exists (t :: ts). split; [done|]. split; [simpl; lia|].
    intros [|k] w Hw; simpl in *.
    + injection Hw as <-. exists t. by rewrite Nat.add_0_r.
    + destruct (K k w Hw) as (t' & ? & ?). exists t'.
      by replace (i0 + S k) with (S i0 + k) by lia.
Qed.

End Spec.

(** result_timings: the loop raises nothing *)
Lemma result_timings_ok lws tr :
  let l2t := lyrics_to_trans (map lw_clean lws) (map tw_clean tr) in
  ∃ ts, result_timings lws tr = Ok ts ∧ length ts = length lws ∧
    ∀ i lw, lws !! i = Some lw →
      ∃ t, ts !! i = Some t ∧ timing_of tr l2t (length lws) i lw = Ok t.
Proof.
  intros l2t. unfold result_timings. fold l2t.
  apply (timings_from_ok tr l2t (length lws)).
  intros i t H. apply lyrics_to_trans_lookup in H as (_ & _ & H).
  by rewrite length_map in H.
Qed.

Lemma l2t_range lws tr i t :
  lyrics_to_trans (map lw_clean lws) (map tw_clean tr) !! i = Some t →
  i < length lws ∧ t < length tr.
Proof.
  intros H. apply lyrics_to_trans_lookup in H as (_ & H1 & H2).
  by rewrite !length_map in *.
Qed.

Lemma align_lyrics_ok lines segments :
  get_lyrics_words lines ≠ [] →
  align_lyrics lines segments =
    result_timings (get_lyrics_words lines) (transcribed_words segments).
Proof.
  intros H. unfold align_lyrics.
  destruct (result_timings_ok (get_lyrics_words lines) (transcribed_words segments))
    as (ts & -> & _). simpl.
  unfold match_rate. destruct (get_lyrics_words lines); [done|]. done.
Qed.

Lemma align_lyrics_empty lines segments :
  get_lyrics_words lines = [] → align_lyrics lines segments = Raise ZeroDivisionError.
Proof. intros H. unfold align_lyrics. rewrite H. done. Qed.

Lemma group_lines_snoc wt w :
  group_lines (wt ++ [w]) =
  <[t_line w := default [] (group_lines wt !! t_line w) ++ [w]]> (group_lines wt).
Proof. unfold group_lines. by rewrite foldl_app. Qed.

(** the dictionary lines holds, for every line number that occurs, the words
   of that line in their order *)
Lemma group_lines_lookup wt line_num :
  group_lines wt !! line_num =
  match on_line line_num wt with
  | [] => None
  | ws => Some ws
  end.
Proof.
  induction wt as [|w wt IH] using rev_ind.
  - done.
  - rewrite group_lines_snoc. unfold on_line in *.
    rewrite filter_app, filter_cons, filter_nil.
    destruct (decide (t_line w = line_num)) as [E|N].
    + rewrite E, lookup_insert_eq, IH.
      destruct (filter _ wt); done.
    + rewrite lookup_insert_ne by done. rewrite IH. by rewrite app_nil_r.
Qed.

Lemma group_lines_default wt line_num :
  default [] (group_lines wt !! line_num) = on_line line_num wt.
Proof. rewrite group_lines_lookup. by destruct (on_line line_num wt). Qed.

Lemma StronglySorted_le_lt (l : list nat) :
  StronglySorted Nat.le l → NoDup l → StronglySorted lt l.
Proof.
  induction 1 as [|x l H IH F]; intros N; constructor.
  - apply IH. by apply NoDup_cons in N as [_ N].
  - apply NoDup_cons in N as [N _]. rewrite Forall_forall in *. intros y Hy.
    specialize (F y Hy). assert (x ≠ y) by (intros ->; done). lia.
Qed.

(** sorted(lines.keys()): the line numbers that occur, ascending *)
Lemma sorted_keys_ok wt :
  StronglySorted lt (sorted_keys (group_lines wt)) ∧
  ∀ line_num, line_num ∈ sorted_keys (group_lines wt) ↔ on_line line_num wt ≠ [].
Proof.
  unfold sorted_keys.
  pose proof (merge_sort_Permutation Nat.le (map fst (map_to_list (group_lines wt)))) as P.
  split.
  - apply StronglySorted_le_lt.
    + apply StronglySorted_merge_sort; apply _.
    + rewrite P. apply NoDup_fst_map_to_list.
  - intros line_num. rewrite P.
    change (map fst (map_to_list (group_lines wt))) with ((map_to_list (group_lines wt)).*1).
    rewrite list_elem_of_fmap. split.
    + intros ([k v] & -> & H). apply elem_of_map_to_list in H. simpl.
      rewrite group_lines_lookup in H. by destruct (on_line k wt).
    + intros H. exists (line_num, on_line line_num wt). split; [done|].
      apply elem_of_map_to_list. rewrite group_lines_lookup.
      by destruct (on_line line_num wt).
Qed.

Lemma words_array_times font color ws : ∀ prev_start,
  map rw_time (words_array font color prev_start ws) =
  zip_with (λ prev cur, round2 (fsub cur prev)) (prev_start :: map t_start ws) (map t_start ws).
Proof.
  induction ws as [|w ws IH]; intros prev_start; simpl; [done|].
  by rewrite IH.
Qed.

Lemma words_array_texts font color ws : ∀ prev_start,
  map rw_text (words_array font color prev_start ws) = map (λ w, Str.upper (t_word w)) ws.
Proof.
  induction ws as [|w ws IH]; intros prev_start; simpl; [done|]. by rewrite IH.
Qed.

Lemma fsub_self x : is_finite x = true → fsub x x = S754_zero false.
Proof.
  destruct x as [s|s| |s m e]; try discriminate; intros _.
  - by destruct s.
  - unfold fsub, fneg, fadd.
    assert (E : (val (S754_finite s m e) + val (S754_finite (negb s) m e) == 0)%Q).
    { cbn [val]. destruct s; cbn [negb]; ring. }
    apply Qeq_bool_iff in E. rewrite E. by destruct s.
Qed.

Lemma first_delta_zero x : is_finite x = true → round2 (fsub x x) = S754_zero false.
Proof. intros H. by rewrite fsub_self. Qed.

Lemma format_reactive_lines wt font color subtitles :
  format_reactive wt font color subtitles =
  concat (map (λ line_num, line_obj font color subtitles line_num (on_line line_num wt))
              (sorted_keys (group_lines wt))).
Proof.
  unfold format_reactive. f_equal. apply map_ext. intros line_num.
  by rewrite group_lines_default.
Qed.

End AlignFacts.

(** ** Entries, formats and estimates *)

Import B64 Align B64Facts DifflibFacts AlignFacts.

Local Open Scope string_scope.

(** fields every entry of [result_timings] takes from its lyrics word *)
Lemma timing_of_word tr l2t n i lw t :
  timing_of tr l2t n i lw = Ok t →
  t_word t = lw_original lw ∧ t_line t = lw_line lw ∧
  t_estimated t = match l2t !! i with Some _ => None | None => Some true end.
Proof.
  unfold timing_of. destruct (l2t !! i) as [trans_idx|].
  - destruct (py_index tr trans_idx); simpl; [|done]. by intros [= <-].
  - destruct (prev_time tr l2t i); simpl; [|done].
    destruct (next_time tr l2t n i); simpl; [|done]. by intros [= <-].
Qed.

Lemma trunc_truncates q : truncates (trunc q) q.
Proof.
  destruct q as [n d]. unfold truncates, trunc. cbn [Qnum Qden].
  pose proof (Z.quot_rem' n (Zpos d)) as E.
  assert (A : (0 <= n)%Z → (0 <= Z.rem n (Zpos d) < Zpos d)%Z)
    by (intros; apply Z.rem_bound_pos; lia).
  assert (B : (n <= 0)%Z → (- Zpos d < Z.rem n (Zpos d) <= 0)%Z)
    by (intros; apply Z.rem_bound_pos_neg; lia).
  unfold Qle, Qlt. cbn. split; intros H.
  - assert (0 <= n)%Z by lia. specialize (A ltac:(lia)). nia.
  - assert (n <= 0)%Z by lia. specialize (B ltac:(lia)). nia.
Qed.

(** [int(x * 1000)] returns the product truncated toward zero, and raises
    only when the product is not finite *)
Lemma to_ms_truncates x k :
  to_ms x = Ok k →
  is_finite (fmul x (lit 1000)) = true ∧ truncates k (val (fmul x (lit 1000))).
Proof.
  unfold to_ms, py_int. destruct (fmul x (lit 1000)) as [s|s| |s m e]; try done.
  - intros [= <-]. split; [done|]. apply (trunc_truncates (val (S754_zero s))).
  - intros [= <-]. split; [done|]. apply trunc_truncates.
Qed.

Lemma to_ms_finite x :
  is_finite (fmul x (lit 1000)) = true → ∃ k, to_ms x = Ok k.
Proof.
  unfold to_ms, py_int. destruct (fmul x (lit 1000)); try done; eauto.
Qed.

Lemma ms_entries_Ok wt : ∀ es, ms_entries wt = Ok es → Forall2 ms_of wt es.
Proof.
  induction wt as [|it wt IH]; simpl; intros es.
  - intros [= <-]. constructor.
  - unfold ms_entry. destruct (to_ms (t_start it)) as [s|] eqn:Es; simpl; [|done].
    destruct (to_ms (t_end it)) as [e'|] eqn:Ee; simpl; [|done].
    destruct (ms_entries wt) as [es'|]; simpl; [|done].
    intros [= <-]. constructor; [|by apply IH]. by exists s, e'.
Qed.

Lemma ms_entries_total wt :
  Forall (λ it, is_finite (fmul (t_start it) (lit 1000)) = true ∧
                is_finite (fmul (t_end it) (lit 1000)) = true) wt →
  ∃ es, ms_entries wt = Ok es.
Proof.
  induction 1 as [|it wt [Hs He] _ [es IH]]; simpl; [eauto|].
  destruct (to_ms_finite _ Hs) as [s Es]. destruct (to_ms_finite _ He) as [e' Ee].
  unfold ms_entry. rewrite Es, Ee, IH. simpl. eauto.
Qed.

Lemma simple_loop_ms wt : ∀ seen st st',
  ms_values seen st.1 →
  simple_loop true st wt = Ok st' → ms_values (seen ++ wt)%list st'.1.
Proof.
  induction wt as [|it wt IH]; simpl; intros seen st st' Hst.
  - intros [= <-]. by rewrite app_nil_r.
  - destruct (simple_step true st it) as [st1|] eqn:E1; simpl; [|done].
    intros H. replace (seen ++ it :: wt)%list with ((seen ++ [it]) ++ wt)%list
      by (by rewrite <- app_assoc).
    apply (IH _ st1); [|done].
    assert (W : ms_values (seen ++ [it])%list st.1).
    { intros key v Hk. destruct (Hst key v Hk) as (it' & k & ? & ? & ?).
      exists it', k. rewrite elem_of_app. auto. }
    unfold simple_step in E1. destruct st as [res word_count].
    destruct (bool_decide _); [by injection E1 as <-|].
    destruct (match word_count !! clean_word (t_word it) with
              | Some c => _ | None => _ end) as [wc' key'].
    unfold time_val in E1. destruct (to_ms (t_start it)) as [k|] eqn:Ek; simpl in E1; [|done].
    injection E1 as <-. simpl. intros key v. rewrite lookup_insert.
    case_decide; [|apply W].
    intros [= <-]. exists it, k. rewrite elem_of_app, list_elem_of_singleton. auto.
Qed.

Lemma simple_loop_total wt : ∀ st,
  Forall (λ it, is_finite (fmul (t_start it) (lit 1000)) = true) wt →
  ∃ st', simple_loop true st wt = Ok st'.
Proof.
  induction wt as [|it wt IH]; simpl; intros st H; [eauto|].
  apply Forall_cons in H as [Hs H].
  assert (E : ∃ st1, simple_step true st it = Ok st1).
  { unfold simple_step. destruct st as [res word_count].
    destruct (bool_decide _); [eauto|].
    destruct (match word_count !! clean_word (t_word it) with
              | Some c => _ | None => _ end) as [wc' key'].
    unfold time_val. destruct (to_ms_finite _ Hs) as [k ->]. simpl. eauto. }
  destruct E as [st1 ->]. simpl. by apply IH.
Qed.

Lemma line_obj_ok font color subtitles wt line_num :
  on_line line_num wt ≠ [] →
  ∃ rl, line_obj font color subtitles line_num (on_line line_num wt) = [rl] ∧
        reactive_line_of wt subtitles line_num rl.
Proof.
  intros H. destruct (on_line line_num wt) as [|first rest] eqn:E; [done|].
  eexists. split; [reflexivity|]. exists first, rest. simpl.
  split; [done|]. split; [done|]. split.
  { f_equal. by rewrite words_array_times. }
  split. { f_equal. by rewrite words_array_texts. }
  split. { intros F. by rewrite first_delta_zero. }
  split.
  - intros subs -> L. simpl. destruct (Nat.ltb_spec line_num (length subs)); [lia|done].
  - intros subs s -> L. simpl. rewrite L.
    assert (line_num < length subs)%nat by (by apply lookup_lt_Some in L).
    destruct (Nat.ltb_spec line_num (length subs)); [done|lia].
Qed.

Lemma lines_ok font color subtitles wt (keys : list nat) :
  (∀ k, k ∈ keys → on_line k wt ≠ []) →
  Forall2 (reactive_line_of wt subtitles) keys
    (concat (map (λ k, line_obj font color subtitles k (on_line k wt)) keys)).
Proof.
  induction keys as [|k keys IH]; intros H; simpl; [constructor|].
  destruct (line_obj_ok font color subtitles wt k) as (rl & -> & R).
  { apply H. by left. }
  simpl. constructor; [done|]. apply IH. intros k' Hk'. apply H. by right.
Qed.

Section Estimates.

Local Open Scope Q_scope.

Lemma is_time_nnf x : is_time x → nnf x.
Proof.
  intros [B F]. split; [done|]. apply fle_elim in F as (_ & _ & F).
  destruct x; try done.
Qed.

Lemma nnf_fle x y : nnf x → nnf y → fle x y = true → val x <= val y.
Proof.
  intros Hx Hy F. apply fle_elim in F as (_ & _ & F).
  destruct (nnf_key x Hx) as [Kx _]. destruct (nnf_key y Hy) as [Ky _].
  by rewrite Kx, Ky in F.
Qed.

Lemma nnf_lit_2_10 : nnf (lit (2 # 10)).
Proof. split; [vm_compute; reflexivity|vm_compute; discriminate]. Qed.

Lemma nnf_lit_3_10 : nnf (lit (3 # 10)).
Proof. split; [vm_compute; reflexivity|vm_compute; discriminate]. Qed.

Lemma nnx_fle x y : nnx x → nnx y → key x <= key y → fle x y = true.
Proof. intros Hx Hy H. apply fle_intro; [by apply nnx_not_nan..|done]. Qed.

(** an estimated interval does not end before it starts *)
Lemma estimated_interval est :
  nnx est → fle (round2 est) (round2 (fadd est (lit (2 # 10)))) = true.
Proof.
  intros H. destruct (fadd_ge est (lit (2 # 10)) H nnf_lit_2_10) as [N K].
  by apply round2_mono.
Qed.

(** the estimate is a float that is not negative and not below prev_time *)
Lemma est_time_ok pt nt :
  nnf pt → (∀ nx, nt = Some nx → nnf nx ∧ val pt <= val nx) →
  nnx (est_time pt nt) ∧ fle pt (est_time pt nt) = true.
Proof.
  intros Hp Hn. destruct nt as [nx|]; simpl.
  - destruct (Hn nx eq_refl) as [Hx L].
    destruct (midpoint_ge pt nx Hp Hx L) as [N K].
    split; [done|]. apply nnx_fle; [by left|done|done].
  - destruct (fadd_ge pt (lit (3 # 10)) (or_introl Hp) nnf_lit_3_10) as [N K].
    split; [done|]. apply nnx_fle; [by left|done|done].
Qed.

(** the error of rounding to binary64 is at most half a unit in the last
    place *)
Lemma rndQ_error a : 0 < a →
  a - pow2 (expo a) / 2 <= rndQ a ∧ rndQ a <= a + pow2 (expo a) / 2.
Proof.
  intros H. unfold rndQ, mant.
  destruct (rhe_bounds (a / pow2 (expo a))) as [L U].
  set (m := inject_Z (rhe (a / pow2 (expo a)))) in *.
  rewrite div_pow2 in L, U.
  pose proof (pow2_pos (expo a)) as P. pose proof (pow2_cancel (expo a)) as C.
  assert (E : a == a * pow2 (- expo a) * pow2 (expo a)).
  { rewrite <- Qmult_assoc, C. ring. }
  set (s := a * pow2 (- expo a)) in *.
  set (p := pow2 (expo a)) in *.
  clearbody s m p. unfold Qdiv. change (/ 2) with (1 # 2).
  assert (X1 : 0 <= (m + (1 # 2) - s) * p) by (apply Qmult_le_0_compat; lra).
  assert (X2 : 0 <= (s - (m - (1 # 2))) * p) by (apply Qmult_le_0_compat; lra).
  split; lra.
Qed.

Lemma expo_below a k : 0 < a → a < pow2 k → (-1074 <= k - 53)%Z → (expo a <= k - 53)%Z.
Proof.
  intros H L B. destruct (ilog2_spec a H) as [S _].
  assert (X : pow2 (ilog2 a) < pow2 k) by lra.
  apply pow2_lt_inv in X. unfold expo. lia.
Qed.

Lemma G_pow2 k : (-1074 <= k < 1024)%Z → G (pow2 k) == pow2 k.
Proof.
  intros H. pose proof (pow2_pos k) as P.
  assert (R : rndQ (pow2 k) == pow2 k).
  { rewrite (rndQ_proper _ (inject_Z 1 * pow2 k)); [|lra|change (inject_Z 1) with 1; ring].
    rewrite rndQ_fix by lia. change (inject_Z 1) with 1. ring. }
  unfold G. destruct (RNabs_cases (pow2 k) ltac:(lra)) as [(L1 & N1 & V1)|(L1 & E1)].
  - destruct (nnf_key _ N1) as [K1 _]. rewrite K1, V1. exact R.
  - exfalso. rewrite R in L1. pose proof (pow2_lt k 1024 ltac:(lia)). lra.
Qed.

Lemma G_below a k : (-1074 <= k < 1024)%Z → 0 <= a → a <= pow2 k → G a <= pow2 k.
Proof. intros Hk H L. rewrite <- (G_pow2 k Hk). by apply G_mono. Qed.

(** a float of [nnx] whose position is below 2^1024 is finite *)
Lemma nnx_finite x b : nnx x → key x <= b → b < pow2 1024 → nnf x.
Proof.
  intros [N| ->] K B; [done|]. exfalso. cbn [key] in K. lra.
Qed.

(** round(est + 0.2, 2) and round(est, 2) are 19, 20 or 21 hundredths
    apart when est is below 2^20 *)
Lemma cents_apart est :
  nnf est → val est <= pow2 20 →
  (19 <= cents (fadd est (lit (2 # 10))) - cents est <= 21)%Z.
Proof.
  intros He B. destruct (fadd_key est (lit (2 # 10)) He nnf_lit_2_10) as [N K].
  set (v := val est) in *. set (w := val (lit (2 # 10))) in *.
  assert (W : w == 3602879701896397 # 18014398509481984) by reflexivity.
  assert (V0 : 0 <= v) by apply He.
  assert (P20 : pow2 20 == 1048576) by reflexivity.
  assert (Q0 : 0 < v + w) by (rewrite W; lra).
  assert (Q1 : v + w < pow2 21).
  { assert (pow2 21 == 2097152) by reflexivity. lra. }
  pose proof (expo_below (v + w) 21 Q0 Q1 ltac:(lia)) as Ex.
  destruct (rndQ_error (v + w) Q0) as [R1 R2].
  assert (P : pow2 (expo (v + w)) <= 1 # 4294967296).
  { apply pow2_le in Ex. assert (pow2 (21 - 53) == 1 # 4294967296) by reflexivity. lra. }
  pose proof (pow2_pos (expo (v + w))) as Pp.
  assert (R1' : v + w - (1 # 8589934592) <= rndQ (v + w)).
  { assert (pow2 (expo (v + w)) / 2 <= 1 # 8589934592).
    { apply Qle_shift_div_r; [reflexivity|]. lra. }
    lra. }
  assert (R2' : rndQ (v + w) <= v + w + (1 # 8589934592)).
  { assert (pow2 (expo (v + w)) / 2 <= 1 # 8589934592).
    { apply Qle_shift_div_r; [reflexivity|]. lra. }
    lra. }
  (* the sum is finite, so its value is the rounded rational *)
  assert (F : val (fadd est (lit (2 # 10))) == rndQ (v + w)).
  { unfold G in K. destruct (RNabs_cases (v + w) ltac:(lra)) as [(L1 & N1 & V1)|(L1 & E1)].
    - destruct (nnf_key _ N1) as [K1 _]. rewrite K1, V1 in K.
      destruct N as [N|N].
      + destruct (nnf_key _ N) as [K2 _]. by rewrite K2 in K.
      + exfalso. rewrite N in K. cbn [key] in K.
        assert (pow2 1024 <= pow2 21 + 1).
        { assert (pow2 21 == 2097152) by reflexivity. lra. }
        pose proof (pow2_lt 22 1024 ltac:(lia)).
        assert (pow2 22 == 4194304) by reflexivity.
        assert (pow2 21 == 2097152) by reflexivity. lra.
    - exfalso. pose proof (pow2_lt 22 1024 ltac:(lia)).
      assert (pow2 22 == 4194304) by reflexivity.
      assert (pow2 21 == 2097152) by reflexivity. lra. }
  unfold cents. fold v.
  destruct (rhe_bounds (v * 100)) as [A1 A2].
  destruct (rhe_bounds (val (fadd est (lit (2 # 10))) * 100)) as [B1 B2].
  set (c1 := rhe (v * 100)) in *.
  set (c2 := rhe (val (fadd est (lit (2 # 10))) * 100)) in *.
  rewrite F in B1, B2.
  assert (L : inject_Z 18 < inject_Z (c2 - c1)).
  { unfold Z.sub. rewrite inject_Z_plus, inject_Z_opp. change (inject_Z 18) with 18. lra. }
  assert (U : inject_Z (c2 - c1) < inject_Z 22).
  { unfold Z.sub. rewrite inject_Z_plus, inject_Z_opp. change (inject_Z 22) with 22. lra. }
  rewrite <- Zlt_Qlt in L, U. lia.
Qed.

End Estimates.

Section Anchors.

Variable transcribed : list transcribed_word.
Variable l2t : gmap nat nat.
Variable n : nat.
Hypothesis timed_ok : well_timed transcribed.
Hypothesis chrono : chronological transcribed.
Hypothesis incr : increasing l2t.

(** prev_time and next_time are finite and not negative, and prev_time is
    not after next_time *)
Lemma anchors_ok i pt nt :
  is_prev_time transcribed l2t i pt → is_next_time transcribed l2t n i nt →
  nnf pt ∧ ∀ nx, nt = Some nx → nnf nx ∧ (val pt <= val nx)%Q.
Proof.
  intros P N.
  assert (Hp : nnf pt).
  { destruct P as [(p & tp & tw & _ & _ & _ & Htw & ->)|[_ ->]]; [|apply nnf_zero].
    apply is_time_nnf. by destruct (timed_ok _ _ Htw) as (_ & ? & _). }
  split; [done|]. intros nx ->.
  destruct N as [(q & tq & twq & Hq & Hlq & _ & Htwq & [= ->])|[_ ?]]; [|done].
  assert (Hx : nnf (tw_start twq)).
  { apply is_time_nnf. by destruct (timed_ok _ _ Htwq) as (? & _). }
  split; [done|].
  destruct P as [(p & tp & tw & Hpi & Hlp & _ & Htw & ->)|[_ ->]].
  - apply nnf_fle; [done|done|].
    apply (chrono tp tq tw twq); [|done|done].
    apply (incr p tp q tq Hlp Hlq). lia.
  - apply Hx.
Qed.

Lemma anchors_below bound i pt nt :
  nnf bound → below bound transcribed →
  is_prev_time transcribed l2t i pt → is_next_time transcribed l2t n i nt →
  (val pt <= val bound)%Q ∧ ∀ nx, nt = Some nx → (val nx <= val bound)%Q.
Proof.
  intros Hb B P N. split.
  - destruct P as [(p & tp & tw & _ & _ & _ & Htw & ->)|[_ ->]]; [|apply Hb].
    apply nnf_fle; [|done|by apply (B _ _ Htw)].
    apply is_time_nnf. by destruct (timed_ok _ _ Htw) as (_ & ? & _).
  - intros nx ->.
    destruct N as [(q & tq & twq & _ & _ & _ & Htwq & [= ->])|[_ ?]]; [|done].
    destruct (timed_ok _ _ Htwq) as (Hs & He & Hle).
    apply is_time_nnf in Hs, He.
    pose proof (nnf_fle _ _ Hs He Hle). pose proof (nnf_fle _ _ He Hb (B _ _ Htwq)). lra.
Qed.

End Anchors.

Lemma nnf_lit_1e6 : nnf (lit 1000000) ∧ (val (lit 1000000) == 1000000)%Q.
Proof. split; [split|]; vm_compute; (reflexivity || discriminate). Qed.

(** an estimate from times up to 10^6 seconds is finite and below 2^20 *)
Lemma est_time_below pt nt :
  nnf pt → (∀ nx, nt = Some nx → nnf nx ∧ (val pt <= val nx)%Q) →
  (val pt <= 1000000)%Q → (∀ nx, nt = Some nx → (val nx <= 1000000)%Q) →
  nnf (est_time pt nt) ∧ (val (est_time pt nt) <= pow2 20)%Q.
Proof.
  intros Hp Hn Bp Bn.
  destruct (est_time_ok pt nt Hp Hn) as [N _].
  assert (P20 : (pow2 20 == 1048576)%Q) by reflexivity.
  assert (P21 : (pow2 21 == 2097152)%Q) by reflexivity.
  pose proof (pow2_lt 21 1024 ltac:(lia)) as PM.
  assert (K : (key (est_time pt nt) <= pow2 20)%Q).
  { destruct nt as [nx|]; cbn [est_time].
    - destruct (Hn nx eq_refl) as [Hx L]. specialize (Bn nx eq_refl).
      destruct (fadd_key pt nx Hp Hx) as [Ns Ks].
      assert (Ss : (key (fadd pt nx) <= pow2 21)%Q).
      { rewrite Ks. apply G_below; [lia| |]; destruct Hp, Hx; lra. }
      apply (nnx_finite _ _ Ns Ss) in PM as Fs.
      destruct (fdiv2_key _ Fs) as [_ Kh]. rewrite Kh.
      destruct (nnf_key _ Fs) as [Kk _]. rewrite Kk in Ss.
      apply G_below; [lia| |].
      + apply Qle_shift_div_l; [reflexivity|]. destruct Fs. lra.
      + apply Qle_shift_div_r; [reflexivity|]. lra.
    - destruct (fadd_key pt (lit (3 # 10)) Hp nnf_lit_3_10) as [_ Ks]. rewrite Ks.
      assert (W : (val (lit (3 # 10)) <= 1)%Q) by (vm_compute; discriminate).
      destruct nnf_lit_3_10 as [_ W0].
      apply G_below; [lia| |]; destruct Hp; lra. }
  assert (F : nnf (est_time pt nt)).
  { apply (nnx_finite _ (pow2 20) N K). pose proof (pow2_lt 20 1024 ltac:(lia)). lra. }
  split; [done|]. destruct (nnf_key _ F) as [Kk _]. by rewrite Kk in K.
Qed.

(** the transcription a 0.1-0.3, b 1.01-1.5 of the lyrics "a x b" *)
Lemma gap_transcribed :
  transcribed_words [[heard " a" (1 # 10) (3 # 10); heard " b" (101 # 100) (3 # 2)]] =
  [ {| tw_word := "a"; tw_clean := "a"; tw_start := lit (1 # 10); tw_end := lit (3 # 10) |};
    {| tw_word := "b"; tw_clean := "b"; tw_start := lit (101 # 100); tw_end := lit (3 # 2) |} ].
Proof. vm_compute. reflexivity. Qed.

(** ** The output formats *)

Module FormatFacts.

Local Close Scope string_scope.

Lemma occurrences_snoc w seen it :
  occurrences w (seen ++ [it]) =
  occurrences w seen + (if decide (form it = w) then 1 else 0).
Proof.
  unfold occurrences. rewrite filter_app, length_app, filter_cons, filter_nil.
  by destruct (decide (form it = w)).
Qed.

Lemma key_of_snoc b seen key v it it' :
  key_of b seen key v it → key_of b (seen ++ [it']) key v it.
Proof.
  intros (N & V & [K|(c & C & K)]); repeat split; try done; [by left|].
  right. exists c. split; [|done]. rewrite occurrences_snoc. lia.
Qed.

Lemma simple_step_inv b seen st it st' :
  simple_inv b seen st → simple_step b st it = Ok st' → simple_inv b (seen ++ [it]) st'.
Proof.
  intros (I1 & I2 & I3 & I4 & I5). unfold simple_step.
  destruct st as [res wc]. cbn [fst snd] in *.
  change (clean_word (t_word it)) with (form it). cbv zeta.
  case_bool_decide as E.
  { intros [= <-]. unfold simple_inv. cbn [fst snd]. split; [intros w c H|repeat split].
    - destruct (I1 w c H) as (Nw & -> & ?). rewrite occurrences_snoc.
      destruct (decide (form it = w)) as [<-|]; [done|]. repeat split; [done|lia|done].
    - intros it' Hin N. apply elem_of_app in Hin as [Hin|Hin]; [by apply I2|].
      apply list_elem_of_singleton in Hin as ->. done.
    - intros it' Hin N. apply elem_of_app in Hin as [Hin|Hin]; [by apply I3|].
      apply list_elem_of_singleton in Hin as ->. done.
    - intros key v Hk. destruct (I4 key v Hk) as (it' & Hin & K).
      exists it'. split; [apply elem_of_app; by left|by apply key_of_snoc].
    - rewrite length_app. simpl. lia. }
  destruct (wc !! form it) as [c|] eqn:W.
  - unfold time_val. destruct (time_val b (t_start it)) as [v|] eqn:V; [|
      by unfold time_val in V; destruct b; [destruct (to_ms (t_start it))|]].
    unfold time_val in V. rewrite V. simpl. intros [= <-]. unfold simple_inv. cbn [fst snd].
    change (String.append (form it) (String.append "_"%string (Str.str_of_nat (S c))))
      with (numbered (form it) (S c)).
    destruct (I1 _ _ W) as (_ & C1 & C2).
    split; [intros w c' H|repeat split].
    + revert H. destruct (decide (w = form it)) as [->|N].
      * rewrite lookup_insert_eq. intros [= <-]. rewrite occurrences_snoc.
        destruct (decide (form it = form it)); [|done]. repeat split; [done|lia|lia].
      * rewrite lookup_insert_ne by done. intros H. rewrite occurrences_snoc.
        destruct (I1 _ _ H) as (? & -> & ?).
        destruct (decide (form it = w)); [done|]. repeat split; [done|lia|done].
    + intros it' Hin N. destruct (decide (form it' = form it)) as [->|D].
      * rewrite lookup_insert_eq. eauto.
      * rewrite lookup_insert_ne by done.
        apply elem_of_app in Hin as [Hin|Hin]; [by apply I2|].
        by apply list_elem_of_singleton in Hin as ->.
    + intros it' Hin N.
      destruct (decide (numbered (form it) (S c) = form it')) as [<-|D].
      * rewrite lookup_insert_eq. eauto.
      * rewrite lookup_insert_ne by done.
        apply elem_of_app in Hin as [Hin|Hin]; [by apply I3|].
        apply list_elem_of_singleton in Hin as ->.
        assert (is_Some (wc !! form it)) as S by eauto.
        destruct (decide (occurrences (form it) seen = 0)) as [Z|Z]; [lia|].
        unfold occurrences in Z.
        destruct (filter _ seen) as [|it0 l0] eqn:F; [done|].
        assert (Hit0 : it0 ∈ filter (λ item, form item = form it) seen)
          by (rewrite F; by left).
        apply list_elem_of_filter in Hit0 as [F1 F2]. rewrite <- F1. apply I3; [done|].
        by rewrite F1.
    + intros key v'. destruct (decide (key = numbered (form it) (S c))) as [->|D].
      * rewrite lookup_insert_eq. intros [= <-]. exists it. split.
        { apply elem_of_app. right. by left. }
        repeat split; [done|by unfold time_val|]. right. exists (S c).
        split; [|done]. rewrite occurrences_snoc.
        destruct (decide (form it = form it)); [lia|done].
      * rewrite lookup_insert_ne by done. intros Hk.
        destruct (I4 key v' Hk) as (it' & Hin & K).
        exists it'. split; [apply elem_of_app; by left|by apply key_of_snoc].
    + rewrite length_app. simpl.
      pose proof (map_size_insert (numbered (form it) (S c)) v res) as Sz.
      destruct (res !! numbered (form it) (S c)); simpl in Sz; lia.
  - unfold time_val. destruct (time_val b (t_start it)) as [v|] eqn:V; [|
      by unfold time_val in V; destruct b; [destruct (to_ms (t_start it))|]].
    unfold time_val in V. rewrite V. simpl. intros [= <-]. unfold simple_inv. cbn [fst snd].
    assert (Z : occurrences (form it) seen = 0).
    { unfold occurrences. destruct (filter _ seen) as [|it0 l0] eqn:F; [done|].
      assert (Hit0 : it0 ∈ filter (λ item, form item = form it) seen)
        by (rewrite F; by left).
      apply list_elem_of_filter in Hit0 as [F1 F2].
      destruct (I2 it0 F2) as [c0 C0]; [by rewrite F1|]. rewrite F1 in C0. congruence. }
    split; [intros w c' H|repeat split].
    + revert H. destruct (decide (w = form it)) as [->|N].
      * rewrite lookup_insert_eq. intros [= <-]. rewrite occurrences_snoc.
        destruct (decide (form it = form it)); [|done]. repeat split; [done|lia|lia].
      * rewrite lookup_insert_ne by done. intros H. rewrite occurrences_snoc.
        destruct (I1 _ _ H) as (? & -> & ?).
        destruct (decide (form it = w)); [done|]. repeat split; [done|lia|done].
    + intros it' Hin N. destruct (decide (form it' = form it)) as [->|D].
      * rewrite lookup_insert_eq. eauto.
      * rewrite lookup_insert_ne by done.
        apply elem_of_app in Hin as [Hin|Hin]; [by apply I2|].
        by apply list_elem_of_singleton in Hin as ->.
    + intros it' Hin N. destruct (decide (form it = form it')) as [<-|D].
      * rewrite lookup_insert_eq. eauto.
      * rewrite lookup_insert_ne by done.
        apply elem_of_app in Hin as [Hin|Hin]; [by apply I3|].
        by apply list_elem_of_singleton in Hin as ->.
    + intros key v'. destruct (decide (key = form it)) as [->|D].
      * rewrite lookup_insert_eq. intros [= <-]. exists it. split.
        { apply elem_of_app. right. by left. }
        repeat split; [done|by unfold time_val|]. by left.
      * rewrite lookup_insert_ne by done. intros Hk.
        destruct (I4 key v' Hk) as (it' & Hin & K).
        exists it'. split; [apply elem_of_app; by left|by apply key_of_snoc].
    + rewrite length_app. simpl.
      pose proof (map_size_insert (form it) v res) as Sz.
      destruct (res !! form it); simpl in Sz; lia.
Qed.

Lemma simple_loop_inv b wt : ∀ seen st st',
  simple_inv b seen st → simple_loop b st wt = Ok st' → simple_inv b (seen ++ wt) st'.
Proof.
  induction wt as [|it wt IH]; simpl; intros seen st st' I.
  - intros [= <-]. by rewrite app_nil_r.
  - destruct (simple_step b st it) as [st1|] eqn:E1; simpl; [|done].
    intros H. replace (seen ++ it :: wt) with ((seen ++ [it]) ++ wt)
      by (by rewrite <- app_assoc).
    apply (IH _ st1); [|done]. by apply (simple_step_inv b seen st).
Qed.

Lemma simple_inv_init b : simple_inv b [] (∅, ∅).
Proof.
  unfold simple_inv. cbn [fst snd]. split; [|split; [|split; [|split]]].
  - intros w c H. by rewrite lookup_empty in H.
  - intros it H. by apply elem_of_nil in H.
  - intros it H. by apply elem_of_nil in H.
  - intros key v H. by rewrite lookup_empty in H.
  - by rewrite map_size_empty.
Qed.

(** in seconds the loop of the simple format always finishes *)
Lemma simple_loop_seconds wt : ∀ st, ∃ st', simple_loop false st wt = Ok st'.
Proof.
  induction wt as [|it wt IH]; simpl; intros st; [eauto|].
  assert (E : ∃ st1, simple_step false st it = Ok st1).
  { unfold simple_step. destruct st as [res word_count].
    destruct (bool_decide _); [eauto|].
    destruct (match word_count !! clean_word (t_word it) with
              | Some c => _ | None => _ end) as [wc' key']. simpl. eauto. }
  destruct E as [st1 ->]. simpl. apply IH.
Qed.

Lemma simple_loop_distinct wt : ∀ seen st st',
  NoDup (map form (seen ++ wt)) →
  distinct_inv seen st → simple_loop false st wt = Ok st' →
  distinct_inv (seen ++ wt) st'.
Proof.
  induction wt as [|it wt IH]; simpl; intros seen st st' ND I.
  - intros [= <-]. by rewrite app_nil_r.
  - destruct (simple_step false st it) as [st1|] eqn:E1; simpl; [|done].
    intros H. replace (seen ++ it :: wt) with ((seen ++ [it]) ++ wt) in *
      by (by rewrite <- app_assoc).
    apply (IH _ st1); [done| |done]. clear IH H.
    assert (F : ∀ it', it' ∈ seen → form it' ≠ form it).
    { intros it' Hin E. rewrite !map_app in ND.
      apply NoDup_app in ND as [ND _]. apply NoDup_app in ND as (_ & ND & _).
      apply (ND (form it')).
      - change (map form seen) with (form <$> seen). apply list_elem_of_fmap. eauto.
      - rewrite E. simpl. by left. }
    destruct I as [I1 I2]. unfold simple_step in E1. destruct st as [res wc]. simpl in *.
    fold (form it) in E1. case_bool_decide as E.
    { injection E1 as <-. unfold distinct_inv. cbn [fst snd]. split.
      - intros w Hw. destruct (I1 w Hw) as (it' & ? & ?). exists it'.
        split; [apply elem_of_app; by left|done].
      - intros key v. rewrite I2. split; intros (N & it' & Hin & Hf & Hv).
        + split; [done|]. exists it'. split; [apply elem_of_app; by left|done].
        + split; [done|]. exists it'. split; [|done].
          apply elem_of_app in Hin as [Hin|Hin]; [done|].
          apply list_elem_of_singleton in Hin as ->. congruence. }
    destruct (wc !! form it) as [c|] eqn:W.
    { destruct (I1 (form it) ltac:(eauto)) as (it' & Hin & Hf). by apply F in Hin. }
    simpl in E1. injection E1 as <-. unfold distinct_inv. cbn [fst snd]. split.
    + intros w. destruct (decide (w = form it)) as [->|N].
      * intros _. exists it. split; [|done]. apply elem_of_app. right. by left.
      * rewrite lookup_insert_ne by done. intros Hw.
        destruct (I1 w Hw) as (it' & ? & ?). exists it'.
        split; [apply elem_of_app; by left|done].
    + intros key v. destruct (decide (key = form it)) as [->|N].
      * rewrite lookup_insert_eq. split.
        -- intros [= <-]. split; [done|]. exists it.
           split; [apply elem_of_app; right; by left|done].
        -- intros (_ & it' & Hin & Hf & ->).
           apply elem_of_app in Hin as [Hin|Hin]; [by apply F in Hin|].
           by apply list_elem_of_singleton in Hin as ->.
      * rewrite lookup_insert_ne by done. rewrite I2.
        split; intros (N' & it' & Hin & Hf & Hv).
        -- split; [done|]. exists it'. split; [apply elem_of_app; by left|done].
        -- split; [done|]. exists it'. split; [|done].
           apply elem_of_app in Hin as [Hin|Hin]; [done|].
           apply list_elem_of_singleton in Hin as ->. congruence.
Qed.

(** *** Milliseconds *)

Lemma to_ms_Raise x e :
  to_ms x = Raise e →
  is_finite (fmul x (lit 1000)) = false ∧
  e = if is_nan (fmul x (lit 1000)) then ValueError else OverflowError.
Proof.
  unfold to_ms, py_int. destruct (fmul x (lit 1000)); try done; by intros [= <-].
Qed.

Lemma ms_entries_finite wt es :
  ms_entries wt = Ok es →
  Forall (λ it, is_finite (fmul (t_start it) (lit 1000)) = true ∧
                is_finite (fmul (t_end it) (lit 1000)) = true) wt.
Proof.
  intros H. apply ms_entries_Ok in H.
  induction H as [|it e wt es (s & e' & Es & Ee & _) _ IH]; constructor; [|done].
  apply to_ms_truncates in Es as [Es _]. apply to_ms_truncates in Ee as [Ee _]. done.
Qed.

Lemma ms_entries_Raise wt : ∀ e,
  ms_entries wt = Raise e →
  ∃ it x, it ∈ wt ∧ (x = t_start it ∨ x = t_end it) ∧ to_ms x = Raise e.
Proof.
  induction wt as [|it wt IH]; simpl; intros e; [done|].
  unfold ms_entry. destruct (to_ms (t_start it)) as [s|e1] eqn:Es; simpl.
  - destruct (to_ms (t_end it)) as [e'|e2] eqn:Ee; simpl.
    + destruct (ms_entries wt) as [es'|e3]; simpl; [done|].
      intros [= <-]. destruct (IH e3 eq_refl) as (it' & x & Hin & Hx & E).
      exists it', x. split; [by right|done].
    + intros [= <-]. exists it, (t_end it). split; [by left|]. split; [by right|done].
  - intros [= <-]. exists it, (t_start it). split; [by left|]. split; [by left|done].
Qed.

End FormatFacts.

(** * The claims *)

(** C1, code defect: with a lyrics file that holds no token the alignment
    itself completes (the map [lyrics_to_trans] is empty and the loop leaves
    [result_timings] empty), but [align_lyrics] then raises
    ZeroDivisionError when it formats the match rate
    [100*matched//len(lyrics_words)], and returns nothing.  The claim asks
    for a guarded 0/0 report instead. *)
Theorem C1_no_token_raises_ZeroDivisionError
    (lines : list string) (segments : list (list word_info)) :
  get_lyrics_words lines = [] →
  lyrics_to_trans [] (map tw_clean (transcribed_words segments)) = ∅ ∧
  result_timings [] (transcribed_words segments) = Ok [] ∧
  align_lyrics lines segments = Raise ZeroDivisionError.
Proof.
  intros H. split; [reflexivity|]. split; [reflexivity|]. by apply align_lyrics_empty.
Qed.

Lemma C1_witness :
  get_lyrics_words [""; "... !"] = [] ∧
  align_lyrics [""; "... !"] [[heard " la" 0 (1 # 2)]] = Raise ZeroDivisionError.
Proof.
  split; [reflexivity|].
  apply (C1_no_token_raises_ZeroDivisionError [""; "... !"]). reflexivity.
Defined.

(** C2, code defect: in the simple format the lyrics words go, go, go_2
    (none of which normalizes to the empty string) give two keys only: the
    second go is stored under the generated key go_2, and the word go_2
    then overwrites it.  The claim excludes two entries under one key. *)
Theorem C2_generated_key_collides :
  let word_timings := [timed "go" 1 (3 # 2) 0; timed "go" 2 (5 # 2) 0;
                       timed "go_2" 3 (7 # 2) 0] in
  Forall (λ it, clean_word (t_word it) ≠ "") word_timings ∧
  ∃ m, format_output word_timings false true = Ok (OutSimple m) ∧
       size m = 2 ∧
       m !! "go" = Some (NFloat (lit 1)) ∧
       m !! "go_2" = Some (NFloat (lit 3)).
Proof.
  simpl. split.
  - repeat constructor; vm_compute; discriminate.
  - eexists. split; [reflexivity|]. vm_compute. done.
Qed.

(** C3: with the milliseconds flag [format_output] replaces each time x it
    emits (start and end in the flat format, start in the simple format) by
    [int(x * 1000)], the float product truncated toward zero: the flat
    output is the list of the entries with their start and end converted,
    the simple output has a key for every word whose normal form is not
    empty and every value is the converted start of a word of its key; both
    are returned whenever the products are finite.  An entry from 1.239 s to
    1.2395 s gives start 1239 and end 1239. *)
Theorem C3_milliseconds_truncated :
  (∀ x k, to_ms x = Ok k → truncates k (val (fmul x (lit 1000)))) ∧
  (∀ word_timings out,
     format_output word_timings true false = Ok out →
     ∃ es, out = OutFlat es ∧ Forall2 ms_of word_timings es) ∧
  (∀ word_timings out,
     format_output word_timings true true = Ok out →
     ∃ m, out = OutSimple m ∧ ms_values word_timings m ∧
       (∀ it, it ∈ word_timings → form it ≠ "" → is_Some (m !! form it)) ∧
       (∀ key v, m !! key = Some v →
          ∃ it, it ∈ word_timings ∧ key_of true word_timings key v it)) ∧
  (∀ word_timings,
     Forall (λ it, is_finite (fmul (t_start it) (lit 1000)) = true ∧
                   is_finite (fmul (t_end it) (lit 1000)) = true) word_timings →
     (∃ es, format_output word_timings true false = Ok (OutFlat es)) ∧
     (∃ m, format_output word_timings true true = Ok (OutSimple m))) ∧
  format_output [timed "la" (1239 # 1000) (12395 # 10000) 0] true false =
    Ok (OutFlat [{| e_word := "la"; e_start := NInt 1239; e_end := NInt 1239;
                    e_estimated := None; e_line := None |}]) ∧
  format_output [timed "la" (1239 # 1000) (12395 # 10000) 0] true true =
    Ok (OutSimple {[ "la" := NInt 1239 ]}) ∧
  to_ms (lit (1239 # 1000)) = Ok 1239%Z ∧
  to_ms (lit (12395 # 10000)) = Ok 1239%Z.
Proof.
  split; [|split; [|split; [|split; [|split; [|split; [|split]]]]]].
  - intros x k H. by apply to_ms_truncates.
  - intros wt out. unfold format_output.
    destruct (ms_entries wt) as [es'|] eqn:E; simpl; [|done].
    intros [= <-]. exists es'. split; [done|]. by apply ms_entries_Ok.
  - intros wt out. unfold format_output.
    destruct (simple_loop true (∅, ∅) wt) as [st|] eqn:E; simpl; [|done].
    intros [= <-]. exists st.1. split; [done|].
    destruct (FormatFacts.simple_loop_inv true wt [] (∅, ∅) st
                (FormatFacts.simple_inv_init true) E) as (_ & _ & I3 & I4 & _).
    rewrite app_nil_l in I3, I4.
    split; [|split; [exact I3|exact I4]].
    apply (simple_loop_ms wt [] (∅, ∅) st); [|done].
    intros key v. simpl. by rewrite lookup_empty.
  - intros wt H. unfold format_output. split.
    + destruct (ms_entries_total wt H) as [es ->]. simpl. eauto.
    + destruct (simple_loop_total wt (∅, ∅)) as [st ->]; [|simpl; eauto].
      eapply Forall_impl; [exact H|]. by intros it [? _].
  - vm_compute. reflexivity.
  - vm_compute. reflexivity.
  - vm_compute. reflexivity.
  - vm_compute. reflexivity.
Qed.

Lemma C3_witness :
  ∃ es, format_output [timed "la" (1239 # 1000) (12395 # 10000) 0] true false
          = Ok (OutFlat es) ∧
        Forall2 ms_of [timed "la" (1239 # 1000) (12395 # 10000) 0] es.
Proof.
  destruct (format_output [timed "la" (1239 # 1000) (12395 # 10000) 0] true false)
    as [out|e] eqn:E; [|vm_compute in E; discriminate E].
  destruct (proj1 (proj2 C3_milliseconds_truncated) _ out E) as (es & -> & F).
  exists es. split; [reflexivity|exact F].
Defined.

(** C4, as the code has it: in seconds the flat format returns the entries
    as they are, with their ['estimated'] (where present) and ['line'];
    in milliseconds it builds new entries that hold the word and the
    converted start and end only. *)
Theorem C4_flat_entries :
  (∀ word_timings,
     ∃ es, format_output word_timings false false = Ok (OutFlat es) ∧
       Forall2 (λ it e, e_word e = t_word it ∧ e_start e = NFloat (t_start it) ∧
                        e_end e = NFloat (t_end it) ∧
                        e_estimated e = t_estimated it ∧
                        e_line e = Some (t_line it)) word_timings es) ∧
  (∀ word_timings es,
     format_output word_timings true false = Ok (OutFlat es) →
     Forall2 (λ it e, e_word e = t_word it ∧ e_estimated e = None ∧ e_line e = None ∧
                      ∃ s e', to_ms (t_start it) = Ok s ∧ to_ms (t_end it) = Ok e' ∧
                              e_start e = NInt s ∧ e_end e = NInt e') word_timings es).
Proof.
  split.
  - intros wt. eexists. split; [reflexivity|].
    induction wt as [|it wt IH]; simpl; constructor; [done|exact IH].
  - intros wt es. unfold format_output.
    destruct (ms_entries wt) as [es'|] eqn:E; simpl; [|done].
    intros [= <-]. apply ms_entries_Ok in E.
    eapply Forall2_impl; [exact E|]. intros it e (s & e' & Hs & He & ->). simpl.
    do 3 (split; [done|]). by exists s, e'.
Qed.

Lemma C4_witness :
  ∃ e, format_output [timed "la" (1239 # 1000) (3 # 2) 7] true false = Ok (OutFlat [e]) ∧
       e_word e = "la" ∧ e_estimated e = None ∧ e_line e = None.
Proof.
  assert (E : format_output [timed "la" (1239 # 1000) (3 # 2) 7] true false =
              Ok (OutFlat [{| e_word := "la"; e_start := NInt 1239; e_end := NInt 1500;
                              e_estimated := None; e_line := None |}]))
    by (vm_compute; reflexivity).
  pose proof (proj2 C4_flat_entries _ _ E) as H.
  eexists. split; [exact E|].
  inversion H as [|it e its es (Hw & Hest & Hline & _) _]; subst.
  split; [exact Hw|]. split; [exact Hest|exact Hline].
Defined.

(** C4 as stated fails: an estimated entry of line 3 loses both fields when
    the times are converted to milliseconds. *)
Lemma C4_counterexample :
  let it := {| t_word := "b"; t_start := lit (65 # 100); t_end := lit (85 # 100);
               t_estimated := Some true; t_line := 3 |} in
  ∃ e, format_output [it] true false = Ok (OutFlat [e]) ∧
       e_estimated e ≠ t_estimated it ∧ e_line e ≠ Some (t_line it).
Proof.
  intros it. eexists. split; [vm_compute; reflexivity|]. split; discriminate.
Qed.

(** C5, as the code has it: on a transcription whose times are finite, not
    negative and in chronological order, every entry has start <= end; the
    entry of a lyrics word that is not matched has start = round(est, 2) and
    end = round(est + 0.2, 2), where the estimate est is not before
    prev_time, and in particular the midpoint of a preceding and a following
    matched word is not before the end of the preceding one; the two bounds
    are rounded separately, so they are 19, 20 or 21 hundredths of a second
    apart (for times up to 10^6 s), not always 20. *)
Theorem C5_estimated_intervals (lines : list string) (segments : list (list word_info)) :
  let lyrics_words := get_lyrics_words lines in
  let transcribed := transcribed_words segments in
  let l2t := lyrics_to_trans (map lw_clean lyrics_words) (map tw_clean transcribed) in
  lyrics_words ≠ [] → well_timed transcribed → chronological transcribed →
  ∃ ts, align_lyrics lines segments = Ok ts ∧
    (∀ i t, ts !! i = Some t → fle (t_start t) (t_end t) = true) ∧
    (∀ i t, ts !! i = Some t → l2t !! i = None →
       ∃ prev_time next_time,
         is_prev_time transcribed l2t i prev_time ∧
         is_next_time transcribed l2t (length lyrics_words) i next_time ∧
         let est := match next_time with
                    | Some next_time => fdiv (fadd prev_time next_time) (lit 2)
                    | None => fadd prev_time (lit (3 # 10))
                    end in
         t_start t = round2 est ∧
         t_end t = round2 (fadd est (lit (2 # 10))) ∧
         fle prev_time est = true ∧
         (below (lit 1000000) transcribed →
          (19 <= cents (fadd est (lit (2 # 10))) - cents est <= 21)%Z)).
Proof.
  intros lyrics_words transcribed l2t Hne Hw Hc.
  destruct (result_timings_ok lyrics_words transcribed) as (ts & E & L & K).
  fold l2t in K.
  assert (R : ∀ j t', l2t !! j = Some t' → (t' < length transcribed)%nat).
  { intros j t' Hj. exact (proj2 (l2t_range _ _ _ _ Hj)). }
  assert (I : increasing l2t) by (intros ? ? ? ?; apply lyrics_to_trans_increasing).
  assert (U : ∀ i t, ts !! i = Some t → l2t !! i = None →
            ∃ pt nt, is_prev_time transcribed l2t i pt ∧
                     is_next_time transcribed l2t (length lyrics_words) i nt ∧
                     t_start t = round2 (est_time pt nt) ∧
                     t_end t = round2 (fadd (est_time pt nt) (lit (2 # 10)))).
  { intros i t Ht Hl.
    assert (Hi : (i < length lyrics_words)%nat) by (rewrite <- L; by apply lookup_lt_Some in Ht).
    apply lookup_lt_is_Some in Hi as [lw Hi].
    destruct (K i lw Hi) as (t' & Ht' & Et). rewrite Ht in Ht'. injection Ht' as <-.
    destruct (timing_of_unmatched transcribed l2t (length lyrics_words) R i lw Hl)
      as (pt & nt & P & N & Eu).
    rewrite Eu in Et. injection Et as <-. exists pt, nt. done. }
  exists ts. split; [unfold lyrics_words in *; rewrite align_lyrics_ok; done|]. split.
  - intros i t Ht.
    destruct (l2t !! i) as [trans_idx|] eqn:Hl.
    + assert (Hi : (i < length lyrics_words)%nat) by (rewrite <- L; by apply lookup_lt_Some in Ht).
      apply lookup_lt_is_Some in Hi as [lw Hi].
      destruct (K i lw Hi) as (t' & Ht' & Et). rewrite Ht in Ht'. injection Ht' as <-.
      destruct (timing_of_matched transcribed l2t (length lyrics_words) R i lw trans_idx Hl)
        as (tw & Htw & Em).
      rewrite Em in Et. injection Et as <-. simpl.
      destruct (Hw _ _ Htw) as (Hs & He & Hle).
      apply is_time_nnf in Hs, He.
      apply round2_mono; [by left|by left|].
      destruct (nnf_key _ Hs) as [-> _]. destruct (nnf_key _ He) as [-> _].
      by apply nnf_fle.
    + destruct (U i t Ht Hl) as (pt & nt & P & N & -> & ->).
      destruct (anchors_ok transcribed l2t (length lyrics_words) Hw Hc I i pt nt P N) as [Hp Hn].
      apply estimated_interval. by apply est_time_ok.
  - intros i t Ht Hl.
    destruct (U i t Ht Hl) as (pt & nt & P & N & Es & Ee).
    destruct (anchors_ok transcribed l2t (length lyrics_words) Hw Hc I i pt nt P N) as [Hp Hn].
    exists pt, nt. split; [done|]. split; [done|].
    change (match nt with
            | Some next_time => fdiv (fadd pt next_time) (lit 2)
            | None => fadd pt (lit (3 # 10))
            end) with (est_time pt nt).
    cbv zeta. split; [done|]. split; [done|]. split; [by apply est_time_ok|].
    intros B. destruct nnf_lit_1e6 as [N6 V6].
    destruct (anchors_below transcribed l2t (length lyrics_words) Hw (lit 1000000) i pt nt
                N6 B P N) as [Bp Bn].
    destruct (est_time_below pt nt Hp Hn) as [F V].
    { by rewrite <- V6. }
    { intros nx Hx. rewrite <- V6. by apply Bn. }
    by apply cents_apart.
Qed.

Lemma C5_witness :
  ∃ ts, align_lyrics ["a x b"] [[heard " a" (1 # 10) (3 # 10); heard " b" (101 # 100) (3 # 2)]]
          = Ok ts ∧
        ∀ i t, ts !! i = Some t → fle (t_start t) (t_end t) = true.
Proof.
  destruct (C5_estimated_intervals ["a x b"]
              [[heard " a" (1 # 10) (3 # 10); heard " b" (101 # 100) (3 # 2)]])
    as (ts & E & H & _).
  - vm_compute. discriminate.
  - rewrite gap_transcribed. intros [|[|j]] tw Hj; try discriminate Hj;
      injection Hj as <-; repeat split; vm_compute; reflexivity.
  - rewrite gap_transcribed. intros [|[|j]] [|[|j']] tw tw' Hlt Hj Hj';
      try discriminate Hj; try discriminate Hj'; try lia.
    injection Hj as <-. injection Hj' as <-. vm_compute. reflexivity.
  - exists ts. split; [exact E|exact H].
Defined.

(** C5 as stated fails: for the lyrics "a x b" and the transcription
    a 0.1-0.3, b 1.01-1.5 the estimate for x is 0.655; its entry runs from
    round(0.655, 2) = 0.66 to round(0.855, 2) = 0.85, which is 0.19 s and
    not 0.2 s after rounding to two decimals. *)
Lemma C5_counterexample :
  ∃ ta tx tb,
    align_lyrics ["a x b"] [[heard " a" (1 # 10) (3 # 10); heard " b" (101 # 100) (3 # 2)]]
      = Ok [ta; tx; tb] ∧
    t_estimated tx = Some true ∧
    t_start tx = lit (66 # 100) ∧ t_end tx = lit (85 # 100) ∧
    round2 (fsub (t_end tx) (t_start tx)) = lit (19 # 100) ∧
    feq (round2 (fsub (t_end tx) (t_start tx))) (lit (2 # 10)) = false.
Proof.
  eexists _, _, _. split; [vm_compute; reflexivity|]. vm_compute. repeat split.
Qed.

(** C6: the loop of [get_matching_blocks] empties its queue, and the map
    [lyrics_to_trans] built from the matching blocks is strictly increasing:
    of two mapped lyrics indices the larger one has the larger image; so no
    transcription index is the image of two lyrics indices. *)
Theorem C6_lyrics_to_trans_strictly_increasing (lyrics_clean trans_clean : list string) :
  (∃ mb, Difflib.queue_loop lyrics_clean trans_clean (2 * length lyrics_clean + 1)
           [(0, length lyrics_clean, 0, length trans_clean)] [] = Some mb) ∧
  (∀ i1 j1 i2 j2,
     lyrics_to_trans lyrics_clean trans_clean !! i1 = Some j1 →
     lyrics_to_trans lyrics_clean trans_clean !! i2 = Some j2 →
     i1 < i2 → j1 < j2) ∧
  (∀ i1 i2 j,
     lyrics_to_trans lyrics_clean trans_clean !! i1 = Some j →
     lyrics_to_trans lyrics_clean trans_clean !! i2 = Some j →
     i1 = i2).
Proof.
  split; [|split].
  - destruct (found_blocks_ok lyrics_clean trans_clean) as (mb & E & _). eauto.
  - apply lyrics_to_trans_increasing.
  - intros i1 i2 j H1 H2.
    destruct (Nat.lt_trichotomy i1 i2) as [L|[E|L]]; [|done|].
    + pose proof (lyrics_to_trans_increasing _ _ _ _ _ _ H1 H2 L). lia.
    + pose proof (lyrics_to_trans_increasing _ _ _ _ _ _ H2 H1 L). lia.
Qed.

Lemma C6_witness :
  lyrics_to_trans ["oh"; "la"; "oh"; "yeah"] ["oh"; "oh"; "yeah"] !! 0 = Some 0 ∧
  lyrics_to_trans ["oh"; "la"; "oh"; "yeah"] ["oh"; "oh"; "yeah"] !! 3 = Some 2 ∧
  0 < 3 ∧ 0 < 2.
Proof.
  assert (H0 : lyrics_to_trans ["oh"; "la"; "oh"; "yeah"] ["oh"; "oh"; "yeah"] !! 0 = Some 0)
    by (vm_compute; reflexivity).
  assert (H3 : lyrics_to_trans ["oh"; "la"; "oh"; "yeah"] ["oh"; "oh"; "yeah"] !! 3 = Some 2)
    by (vm_compute; reflexivity).
  assert (L : 0 < 3) by lia.
  repeat split; try assumption.
  exact (proj1 (proj2 (C6_lyrics_to_trans_strictly_increasing
                         ["oh"; "la"; "oh"; "yeah"] ["oh"; "oh"; "yeah"])) 0 0 3 2 H0 H3 L).
Defined.

(** C7: for a lyrics index with no correspondence, prev_time is the end of
    the nearest matched word before it (0 if there is none) and next_time
    the start of the nearest matched word after it (None if there is none);
    the estimate is their mean when next_time exists and prev_time + 0.3
    otherwise; the entry has start = round(est, 2), end = round(est + 0.2, 2)
    and estimated = True.  For the lyrics "a b c" and the transcription
    a 0.0-0.3, c 1.0-1.3 the entry of b is estimated, from 0.65 to 0.85. *)
Theorem C7_interpolated_entry :
  (∀ (lines : list string) (segments : list (list word_info)),
     let lyrics_words := get_lyrics_words lines in
     let transcribed := transcribed_words segments in
     let l2t := lyrics_to_trans (map lw_clean lyrics_words) (map tw_clean transcribed) in
     lyrics_words ≠ [] →
     ∃ ts, align_lyrics lines segments = Ok ts ∧
       ∀ i lw, lyrics_words !! i = Some lw → l2t !! i = None →
         ∃ prev_time next_time,
           is_prev_time transcribed l2t i prev_time ∧
           is_next_time transcribed l2t (length lyrics_words) i next_time ∧
           let est := match next_time with
                      | Some next_time => fdiv (fadd prev_time next_time) (lit 2)
                      | None => fadd prev_time (lit (3 # 10))
                      end in
           ts !! i = Some {| t_word := lw_original lw;
                             t_start := round2 est;
                             t_end := round2 (fadd est (lit (2 # 10)));
                             t_estimated := Some true;
                             t_line := lw_line lw |}) ∧
  (∃ ta tc,
     align_lyrics ["a b c"] [[heard "a" 0 (3 # 10); heard "c" 1 (13 # 10)]] =
       Ok [ta; {| t_word := "b"; t_start := lit (65 # 100); t_end := lit (85 # 100);
                  t_estimated := Some true; t_line := 0 |}; tc]).
Proof.
  split.
  - intros lines segments lyrics_words transcribed l2t Hne.
    destruct (result_timings_ok lyrics_words transcribed) as (ts & E & L & K).
    exists ts. split; [unfold lyrics_words in *; rewrite align_lyrics_ok; done|].
    intros i lw Hi Hl. destruct (K i lw Hi) as (t & Ht & Et).
    fold l2t in Et.
    destruct (timing_of_unmatched transcribed l2t (length lyrics_words)
                ltac:(intros j t' Hj; exact (proj2 (l2t_range _ _ _ _ Hj))) i lw Hl)
      as (pt & nt & P & N & Eu).
    exists pt, nt. split; [done|]. split; [done|]. simpl.
    rewrite Ht. f_equal. rewrite Eu in Et. by injection Et as <-.
  - eexists _, _. vm_compute. reflexivity.
Qed.

Lemma C7_witness :
  ∃ ts t, align_lyrics ["la la"; "x"] [[heard " la" 1 2; heard " la" 2 3]] = Ok ts ∧
    ts !! 2 = Some t ∧ t_word t = "x" ∧ t_estimated t = Some true ∧ t_line t = 1.
Proof.
  destruct (proj1 C7_interpolated_entry ["la la"; "x"] [[heard " la" 1 2; heard " la" 2 3]])
    as (ts & E & H); [vm_compute; discriminate|].
  destruct (H 2 {| lw_original := "x"; lw_clean := "x"; lw_line := 1 |})
    as (prev_time & next_time & _ & _ & Hts).
  - vm_compute. reflexivity.
  - vm_compute. reflexivity.
  - eexists ts, _. split; [exact E|]. split; [exact Hts|]. repeat split.
Defined.

(** C8: the loop over the lyrics words raises nothing and appends one entry
    per lyrics word, in lyrics order (entry i carries the original form and
    the line of lyrics word i), whatever the transcription; [align_lyrics]
    returns this sequence whenever the lyrics hold a token. *)
Theorem C8_one_timing_per_lyrics_word
    (lines : list string) (segments : list (list word_info)) :
  let lyrics_words := get_lyrics_words lines in
  ∃ ts, result_timings lyrics_words (transcribed_words segments) = Ok ts ∧
        length ts = length lyrics_words ∧
        map t_word ts = map lw_original lyrics_words ∧
        map t_line ts = map lw_line lyrics_words ∧
        (lyrics_words ≠ [] → align_lyrics lines segments = Ok ts).
Proof.
  intros lyrics_words.
  destruct (result_timings_ok lyrics_words (transcribed_words segments)) as (ts & E & L & K).
  exists ts. split; [done|]. split; [done|].
  assert (F : ∀ i lw, lyrics_words !! i = Some lw →
            ∃ t, ts !! i = Some t ∧ t_word t = lw_original lw ∧ t_line t = lw_line lw).
  { intros i lw Hi. destruct (K i lw Hi) as (t & Ht & Et). exists t. split; [done|].
    apply timing_of_word in Et. tauto. }
  split; [|split].
  - apply list_eq. intros i. rewrite !list_lookup_fmap.
    destruct (lyrics_words !! i) as [lw|] eqn:Hi.
    + destruct (F i lw Hi) as (t & Ht & Hw & _). rewrite Ht. simpl. by rewrite Hw.
    + apply lookup_ge_None in Hi. rewrite <- L in Hi. apply lookup_ge_None in Hi. by rewrite Hi.
  - apply list_eq. intros i. rewrite !list_lookup_fmap.
    destruct (lyrics_words !! i) as [lw|] eqn:Hi.
    + destruct (F i lw Hi) as (t & Ht & _ & Hl). rewrite Ht. simpl. by rewrite Hl.
    + apply lookup_ge_None in Hi. rewrite <- L in Hi. apply lookup_ge_None in Hi. by rewrite Hi.
  - intros Hne. unfold lyrics_words in *. by rewrite align_lyrics_ok.
Qed.

Lemma C8_witness :
  ∃ ts, align_lyrics ["hello world"; "goodbye world"]
          [[heard " hello" 0 (1 # 2); heard " world" (1 # 2) 1];
           [heard " goodbye" 2 (5 # 2); heard " world" (5 # 2) 3]] = Ok ts ∧
        length ts = 4.
Proof.
  destruct (C8_one_timing_per_lyrics_word ["hello world"; "goodbye world"]
          [[heard " hello" 0 (1 # 2); heard " world" (1 # 2) 1];
           [heard " goodbye" 2 (5 # 2); heard " world" (5 # 2) 3]])
    as (ts & _ & L & _ & _ & A).
  exists ts. split; [apply A; vm_compute; discriminate|exact L].
Defined.

(** C9, as the code has it: [format_reactive] returns one record per line
    number that occurs, in ascending order of line number; the record of a
    line has seconds = the start of the first word of the line; the time of
    the first word is its start minus itself rounded to two decimals, which
    is 0 for a finite start and NaN for a start that is infinite or NaN; the
    time of each later word is its start minus the start of the word before
    it, rounded to two decimals; the record has no subtitle when the line
    number is at or beyond the number of subtitles.  Starts 10.0, 10.5, 11.2
    give the times 0.0, 0.5, 0.7 and seconds = 10.0. *)
Theorem C9_reactive_lines :
  (∀ (word_timings : list timing) (font color : string) (subtitles : option (list string)),
     ∃ line_nums,
       StronglySorted lt line_nums ∧
       (∀ k, k ∈ line_nums ↔ ∃ w, w ∈ word_timings ∧ t_line w = k) ∧
       Forall2 (reactive_line_of word_timings subtitles) line_nums
               (format_reactive word_timings font color subtitles)) ∧
  (∀ (start : float) (starts : list float),
     is_finite start = false → head (deltas (start :: starts)) = Some S754_nan) ∧
  (∃ rl,
     format_reactive [timed "a" 10 (21 # 2) 4; timed "b" (105 # 10) 11 4;
                      timed "c" (112 # 10) 12 4]
                     "bold 80px Baloo2" "white" (Some ["uno"; "dos"]) = [rl] ∧
     rl_seconds rl = lit 10 ∧
     map rw_time (rl_text rl) = [lit 0; lit (5 # 10); lit (7 # 10)] ∧
     rl_subtitle rl = None).
Proof.
  split; [|split].
  - intros wt font color subtitles.
    destruct (sorted_keys_ok wt) as [S K].
    exists (sorted_keys (group_lines wt)). split; [done|]. split.
    + intros k. rewrite K. unfold on_line. split.
      * intros H. destruct (filter _ wt) as [|w ws] eqn:E; [done|].
        assert (Hw : w ∈ filter (λ w, t_line w = k) wt) by (rewrite E; by left).
        apply list_elem_of_filter in Hw as [? ?]. eauto.
      * intros (w & Hw & Hk) E.
        assert (Hf : w ∈ filter (λ w, t_line w = k) wt) by (by apply list_elem_of_filter).
        rewrite E in Hf. by apply elem_of_nil in Hf.
    + rewrite format_reactive_lines. apply lines_ok. intros k Hk. by apply K.
  - intros start starts H. destruct start as [s|[|]| |s m e]; try discriminate H; reflexivity.
  - eexists. split; [vm_compute; reflexivity|]. vm_compute. repeat split.
Qed.

Lemma C9_witness :
  ∃ rl rl', format_reactive [timed "y" 3 4 2; timed "x" 1 2 0; timed "z" (7 # 2) 5 2]
              "f" "c" (Some ["s"]) = [rl; rl'] ∧
            is_finite (rl_seconds rl) = true ∧
            head (map rw_time (rl_text rl)) = Some zero.
Proof.
  destruct (proj1 C9_reactive_lines [timed "y" 3 4 2; timed "x" 1 2 0; timed "z" (7 # 2) 5 2]
              "f" "c" (Some ["s"])) as (line_nums & S & K & F).
  destruct (format_reactive _ _ _ _) as [|rl [|rl' [|? ?]]] eqn:E;
    try (vm_compute in E; discriminate).
  exists rl, rl'. split; [reflexivity|].
  assert (Fin : is_finite (rl_seconds rl) = true).
  { vm_compute in E. injection E as <- _. reflexivity. }
  split; [exact Fin|].
  inversion F as [|k rl0 ks rls (first & rest & _ & Hs & _ & _ & H0 & _) _]; subst.
  apply H0. rewrite <- Hs. exact Fin.
Defined.

(** C9 as stated fails: the first word of a line does not always get the
    time 0.  For the lyrics "a" / "x b" and the transcription a 0-2^1023,
    b 2^1023-2^1023 (finite times), the estimate for x is the mean of two
    anchors whose sum overflows: x starts at infinity, and as the first word
    of its line it gets the time round(inf - inf, 2), which is NaN. *)
Lemma C9_counterexample :
  ∃ ta tx tb rl0 rl1,
    align_lyrics ["a"; "x b"]
      [[heard " a" 0 (inject_Z (2 ^ 1023)%Z);
        heard " b" (inject_Z (2 ^ 1023)%Z) (inject_Z (2 ^ 1023)%Z)]] = Ok [ta; tx; tb] ∧
    t_line tx = 1%nat ∧ t_start tx = S754_infinity false ∧
    format_reactive [ta; tx; tb] "bold 80px Baloo2" "white" None = [rl0; rl1] ∧
    rl_seconds rl1 = S754_infinity false ∧
    head (map rw_time (rl_text rl1)) = Some S754_nan ∧
    head (map rw_time (rl_text rl1)) ≠ Some zero.
Proof.
  do 5 eexists. split; [vm_compute; reflexivity|].
  split; [reflexivity|]. split; [reflexivity|].
  split; [vm_compute; reflexivity|].
  split; [reflexivity|]. split; [reflexivity|]. discriminate.
Qed.

(** C10: an entry of a matched lyrics word has no key ['estimated']; an
    entry of a word that is not matched has estimated = True; no entry has
    estimated = False. *)
Theorem C10_estimated_only_when_interpolated
    (lines : list string) (segments : list (list word_info)) :
  let lyrics_words := get_lyrics_words lines in
  let transcribed := transcribed_words segments in
  let l2t := lyrics_to_trans (map lw_clean lyrics_words) (map tw_clean transcribed) in
  lyrics_words ≠ [] →
  ∃ ts, align_lyrics lines segments = Ok ts ∧
    ∀ i t, ts !! i = Some t →
      (is_Some (l2t !! i) → t_estimated t = None) ∧
      (l2t !! i = None → t_estimated t = Some true) ∧
      t_estimated t ≠ Some false.
Proof.
  intros lyrics_words transcribed l2t Hne.
  destruct (result_timings_ok lyrics_words transcribed) as (ts & E & L & K).
  exists ts. split; [unfold lyrics_words in *; rewrite align_lyrics_ok; done|].
  intros i t Ht.
  assert (Hi : i < length lyrics_words) by (rewrite <- L; by apply lookup_lt_Some in Ht).
  apply lookup_lt_is_Some in Hi as [lw Hi].
  destruct (K i lw Hi) as (t' & Ht' & Et). rewrite Ht in Ht'. injection Ht' as <-.
  apply timing_of_word in Et as (_ & _ & Et). fold l2t in Et. rewrite Et.
  destruct (l2t !! i); repeat split; try done; by intros [? ?].
Qed.

Lemma C10_witness :
  ∃ ts t, align_lyrics ["a b c"] [[heard "a" 0 (3 # 10); heard "c" 1 (13 # 10)]] = Ok ts ∧
    ts !! 1 = Some t ∧ t_word t = "b" ∧ t_estimated t = Some true.
Proof.
  destruct (C10_estimated_only_when_interpolated ["a b c"]
              [[heard "a" 0 (3 # 10); heard "c" 1 (13 # 10)]]) as (ts & E & H).
  { vm_compute. discriminate. }
  destruct (ts !! 1) as [t|] eqn:Ht.
  - exists ts, t. split; [exact E|]. split; [exact Ht|].
    destruct (H 1 t Ht) as (_ & Hest & _).
    split; [|apply Hest; vm_compute; reflexivity].
    vm_compute in E. injection E as <-. injection Ht as <-. reflexivity.
  - exfalso. vm_compute in E. injection E as <-. discriminate Ht.
Defined.

(** * Further properties of the code *)

(** ** Characters, words and tokens *)

Module StrFacts.

Import Str.

Ltac each_ascii c :=
  destruct c as [[] [] [] [] [] [] [] []]; vm_compute; try reflexivity; try discriminate.

Lemma lower_char_idem c : lower_char (lower_char c) = lower_char c.
Proof. each_ascii c. Qed.

Lemma lower_upper_char c : lower_char (upper_char c) = lower_char c.
Proof. each_ascii c. Qed.

Lemma token_lower_char c : is_token_char (lower_char c) = is_token_char c.
Proof. each_ascii c. Qed.

Lemma upper_lower_char c : is_upper (lower_char c) = false.
Proof. each_ascii c. Qed.

Lemma chars_on_chars f s : list_ascii_of_string (on_chars f s) = f (list_ascii_of_string s).
Proof. unfold on_chars. apply list_ascii_of_string_of_list_ascii. Qed.

Lemma chars_inj s s' : list_ascii_of_string s = list_ascii_of_string s' → s = s'.
Proof.
  intros H. rewrite <- (string_of_list_ascii_of_string s), H.
  apply string_of_list_ascii_of_string.
Qed.

Lemma chars_append s s' :
  list_ascii_of_string (String.append s s') =
  (list_ascii_of_string s ++ list_ascii_of_string s')%list.
Proof. induction s as [|c s IH]; simpl; [done|]. by rewrite IH. Qed.

(** the characters of a normalised word *)
Lemma chars_clean_word w :
  list_ascii_of_string (clean_word w) =
  filter is_token_char (map lower_char (list_ascii_of_string w)).
Proof. unfold clean_word, sub_non_token, lower. by rewrite !chars_on_chars. Qed.

Lemma clean_chars_idem (l : list ascii) :
  filter is_token_char (map lower_char (filter is_token_char (map lower_char l))) =
  filter is_token_char (map lower_char l).
Proof.
  induction l as [|c l IH]; [done|].
  rewrite map_cons, filter_cons.
  destruct (decide (is_token_char (lower_char c))) as [T|T]; [|done].
  rewrite map_cons, lower_char_idem, filter_cons.
  destruct (decide (is_token_char (lower_char c))); [|done]. by rewrite IH.
Qed.

(** a token keeps all its characters when it is normalised *)
Lemma clean_chars_token (l : list ascii) :
  Forall (λ c, is_token_char c = true) l →
  filter is_token_char (map lower_char l) = map lower_char l.
Proof.
  induction 1 as [|c l T _ IH]; [done|].
  rewrite map_cons, filter_cons, IH.
  destruct (decide (is_token_char (lower_char c))) as [|N]; [done|].
  by rewrite token_lower_char, T in N.
Qed.

(** *** The tokens of a line *)

Lemma finditer_tokens_run (run : list ascii) : ∀ cur,
  Forall (λ c, is_token_char c = true) run →
  finditer_tokens run cur = flush (rev run ++ cur).
Proof.
  induction run as [|c run IH]; intros cur H; [done|].
  apply Forall_cons in H as [T H]. simpl. rewrite T, IH by done.
  by rewrite <- app_assoc.
Qed.

Lemma finditer_tokens_split (cs1 : list ascii) c cs2 : ∀ cur,
  is_token_char c = false →
  finditer_tokens (cs1 ++ c :: cs2) cur =
  (finditer_tokens cs1 cur ++ finditer_tokens cs2 [])%list.
Proof.
  induction cs1 as [|c1 cs1 IH]; intros cur T; simpl.
  - by rewrite T.
  - destruct (is_token_char c1); [by apply IH|].
    rewrite <- app_assoc. f_equal. by apply IH.
Qed.

Lemma flush_token cur :
  Forall (λ c, is_token_char c = true) cur → Forall token (flush cur).
Proof.
  intros H. destruct cur as [|c cur]; [constructor|].
  unfold flush. constructor; [|constructor]. split.
  - intros E. apply (f_equal list_ascii_of_string) in E.
    rewrite list_ascii_of_string_of_list_ascii in E. simpl in E.
    by destruct (rev cur).
  - rewrite list_ascii_of_string_of_list_ascii. by apply Forall_rev.
Qed.

Lemma finditer_tokens_token (cs : list ascii) : ∀ cur,
  Forall (λ c, is_token_char c = true) cur → Forall token (finditer_tokens cs cur).
Proof.
  induction cs as [|c cs IH]; intros cur H; simpl.
  - by apply flush_token.
  - destruct (is_token_char c) eqn:T.
    + apply IH. by constructor.
    + apply Forall_app. split; [by apply flush_token|]. by apply IH.
Qed.

Lemma clean_word_token s : token s →
  clean_word s ≠ EmptyString ∧
  String.length (clean_word s) = String.length s.
Proof.
  intros [N T].
  assert (E : list_ascii_of_string (clean_word s) = map lower_char (list_ascii_of_string s)).
  { rewrite chars_clean_word. by apply clean_chars_token. }
  split.
  - intros C. rewrite C in E. destruct s; [done|]. discriminate E.
  - rewrite <- (string_of_list_ascii_of_string (clean_word s)), E.
    rewrite <- (string_of_list_ascii_of_string s) at 2.
    clear. induction (list_ascii_of_string s) as [|c l IH]; simpl; [done|]. by rewrite IH.
Qed.

(** *** Stripping *)

Lemma lstrip_suffix (cs : list ascii) :
  ∃ sp, cs = (sp ++ lstrip cs)%list ∧ Forall (λ c, is_space c = true) sp.
Proof.
  induction cs as [|c cs (sp & E & F)]; simpl.
  - by exists [].
  - destruct (is_space c) eqn:S.
    + exists (c :: sp). split; [simpl; by f_equal|by constructor].
    + by exists [].
Qed.

Lemma lstrip_head (cs : list ascii) c :
  head (lstrip cs) = Some c → is_space c = false.
Proof.
  induction cs as [|c' cs IH]; simpl; [done|].
  destruct (is_space c') eqn:S; [done|]. simpl. by intros [= <-].
Qed.

Lemma lstrip_fixed (cs : list ascii) :
  (∀ c, head cs = Some c → is_space c = false) → lstrip cs = cs.
Proof.
  destruct cs as [|c cs]; simpl; [done|]. intros H. by rewrite (H c).
Qed.

(** the characters left by strip: none, or a first and a last character
    that are not white space *)
Lemma strip_ends (cs : list ascii) :
  let r := rev (lstrip (rev (lstrip cs))) in
  (∀ c, head r = Some c → is_space c = false) ∧
  (∀ c, last r = Some c → is_space c = false).
Proof.
  intros r. split; intros c H.
  - subst r. destruct (lstrip_suffix (rev (lstrip cs))) as (sp & E & F).
    apply (f_equal (@rev ascii)) in E. rewrite rev_involutive, rev_app_distr in E.
    destruct (rev (lstrip (rev (lstrip cs)))) as [|c0 r0]; [done|].
    simpl in H. injection H as ->. simpl in E.
    apply (lstrip_head cs). by rewrite E.
  - subst r. rewrite rev_alt in H.
    change (last (reverse (lstrip (rev (lstrip cs)))) = Some c) in H.
    rewrite last_reverse in H. by apply lstrip_head in H.
Qed.

(** *** The words of the lyrics *)

Lemma line_words_token line_num line lw :
  lw ∈ line_words line_num line →
  token (lw_original lw) ∧ lw_clean lw = clean_word (lw_original lw) ∧
  lw_line lw = line_num.
Proof.
  unfold line_words. intros H.
  change (map ?f ?l) with (f <$> l) in H.
  apply list_elem_of_fmap in H as (m & -> & Hm). simpl.
  split; [|done].
  pose proof (finditer_tokens_token (list_ascii_of_string line) [] ltac:(constructor)) as F.
  rewrite Forall_forall in F. by apply F.
Qed.

Lemma get_lyrics_words_snoc lines line :
  get_lyrics_words (lines ++ [line]) =
  (get_lyrics_words lines ++ line_words (length lines) line)%list.
Proof.
  unfold get_lyrics_words. rewrite imap_app, concat_app. simpl.
  by rewrite Nat.add_0_r, app_nil_r.
Qed.

Lemma get_lyrics_words_line lines :
  Forall (λ lw, lw_line lw < length lines) (get_lyrics_words lines).
Proof.
  induction lines as [|line lines IH] using rev_ind; [constructor|].
  rewrite get_lyrics_words_snoc, length_app. simpl. apply Forall_app. split.
  - eapply Forall_impl; [exact IH|]. simpl. lia.
  - apply Forall_forall. intros lw H. apply line_words_token in H as (_ & _ & ->). lia.
Qed.

Lemma get_lyrics_words_sorted lines :
  StronglySorted Nat.le (map lw_line (get_lyrics_words lines)).
Proof.
  induction lines as [|line lines IH] using rev_ind; [constructor|].
  rewrite get_lyrics_words_snoc, map_app. apply StronglySorted_app_2; [|done|].
  - intros k1 k2 H1 H2.
    change (map ?f ?l) with (f <$> l) in H1, H2.
    apply list_elem_of_fmap in H1 as (lw1 & -> & H1).
    apply list_elem_of_fmap in H2 as (lw2 & -> & H2).
    pose proof (get_lyrics_words_line lines) as F. rewrite Forall_forall in F.
    specialize (F lw1 H1). apply line_words_token in H2 as (_ & _ & ->). lia.
  - generalize (line_words_token (length lines) line).
    induction (line_words (length lines) line) as [|lw l IHl]; intros H; simpl; constructor.
    + apply IHl. intros lw' H'. apply H. by right.
    + apply Forall_forall. intros k Hk.
      change (map ?f ?l) with (f <$> l) in Hk.
      apply list_elem_of_fmap in Hk as (lw' & -> & H').
      destruct (H lw ltac:(by left)) as (_ & _ & ->).
      destruct (H lw' ltac:(by right)) as (_ & _ & ->). done.
Qed.

(** every word of the lyrics is a token, with a normal form that is not
    empty *)
Lemma get_lyrics_words_tokens lines :
  Forall (λ lw, token (lw_original lw) ∧
                lw_clean lw = clean_word (lw_original lw) ∧
                lw_clean lw ≠ EmptyString ∧
                String.length (lw_clean lw) = String.length (lw_original lw))
         (get_lyrics_words lines).
Proof.
  induction lines as [|line lines IH] using rev_ind; [constructor|].
  rewrite get_lyrics_words_snoc. apply Forall_app. split; [done|].
  apply Forall_forall. intros lw H.
  apply line_words_token in H as (T & E & _). rewrite E.
  destruct (clean_word_token _ T). done.
Qed.

Lemma filter_all {A} (P : A → Prop) `{∀ x, Decision (P x)} (l : list A) :
  Forall P l → filter P l = l.
Proof.
  induction 1 as [|x l Hx _ IH]; [done|].
  rewrite filter_cons, IH. by destruct (decide (P x)).
Qed.

Lemma filter_none {A} (P : A → Prop) `{∀ x, Decision (P x)} (l : list A) :
  Forall (λ x, ¬ P x) l → filter P l = [].
Proof.
  induction 1 as [|x l Hx _ IH]; [done|].
  rewrite filter_cons, IH. by destruct (decide (P x)).
Qed.

Lemma get_lyrics_words_on_line lines k line :
  lines !! k = Some line →
  filter (λ lw, lw_line lw = k) (get_lyrics_words lines) = line_words k line.
Proof.
  revert k line. induction lines as [|l lines IH] using rev_ind; intros k line H; [done|].
  rewrite get_lyrics_words_snoc, filter_app.
  destruct (decide (k < length lines)) as [L|L].
  - rewrite lookup_app_l in H by done. rewrite (IH k line H).
    rewrite filter_none; [by rewrite app_nil_r|].
    apply Forall_forall. intros lw Hlw. apply line_words_token in Hlw as (_ & _ & ->). lia.
  - assert (k = length lines) as ->.
    { apply lookup_lt_Some in H. rewrite length_app in H. simpl in H. lia. }
    rewrite list_lookup_middle in H by done. injection H as ->.
    rewrite filter_none.
    + simpl. apply filter_all. apply Forall_forall. intros lw Hlw.
      by apply line_words_token in Hlw as (_ & _ & ->).
    + eapply Forall_impl; [apply get_lyrics_words_line|]. simpl. lia.
Qed.

(** *** The words of the transcription *)

Lemma strip_stripped s : stripped (strip s).
Proof.
  unfold stripped, strip. rewrite chars_on_chars. apply strip_ends.
Qed.

Lemma transcribed_of_ok wi :
  Forall (λ tw, tw_word tw ≠ EmptyString ∧ stripped (tw_word tw) ∧
                tw_clean tw = clean_word (tw_word tw)) (transcribed_of wi).
Proof.
  unfold transcribed_of. case_bool_decide as E; constructor; [|constructor].
  simpl. split; [done|]. split; [apply strip_stripped|done].
Qed.

Lemma Forall_concat {A} (P : A → Prop) (ls : list (list A)) :
  Forall (Forall P) ls → Forall P (concat ls).
Proof.
  induction 1 as [|l ls H _ IH]; simpl; [constructor|]. by apply Forall_app.
Qed.

Lemma transcribed_words_ok segments :
  Forall (λ tw, tw_word tw ≠ EmptyString ∧ stripped (tw_word tw) ∧
                tw_clean tw = clean_word (tw_word tw)) (transcribed_words segments).
Proof.
  unfold transcribed_words. apply Forall_concat, Forall_forall. intros l H.
  change (map ?f ?l) with (f <$> l) in H.
  apply list_elem_of_fmap in H as (seg & -> & _).
  apply Forall_concat, Forall_forall. intros l' H'.
  change (map ?f ?l) with (f <$> l) in H'.
  apply list_elem_of_fmap in H' as (wi & -> & _). apply transcribed_of_ok.
Qed.

End StrFacts.

(** ** The matching blocks hold equal elements *)

Module MatchFacts.

Import Difflib.
Local Close Scope string_scope.

Section Match.

Variables a b : list string.

Lemma b2j_fold_ok (l : list (nat * string)) : ∀ m : gmap string (list nat),
  Forall (λ ie, b !! ie.1 = Some ie.2) l →
  (∀ x js j, m !! x = Some js → j ∈ js → b !! j = Some x) →
  ∀ x js j,
    foldl (λ m ie, <[ie.2 := default [] (m !! ie.2) ++ [ie.1]]> m) m l !! x = Some js →
    j ∈ js → b !! j = Some x.
Proof.
  induction l as [|[i e] l IH]; intros m Hl Hm; simpl; [done|].
  apply Forall_cons in Hl as [Hie Hl]. simpl in Hie.
  apply IH; [done|]. intros x js j. destruct (decide (x = e)) as [->|N].
  - rewrite lookup_insert_eq. intros [= <-] Hj.
    apply elem_of_app in Hj as [Hj|Hj].
    + destruct (m !! e) as [js0|] eqn:E; simpl in Hj; [by apply (Hm e js0)|].
      by apply elem_of_nil in Hj.
    + by apply list_elem_of_singleton in Hj as ->.
  - rewrite lookup_insert_ne by done. apply Hm.
Qed.

Lemma b2j_all_ok x js j : b2j_all b !! x = Some js → j ∈ js → b !! j = Some x.
Proof.
  unfold b2j_all. apply b2j_fold_ok.
  - apply Forall_forall. intros [i e] H.
    apply elem_of_lookup_imap in H as (i' & e' & [= -> ->] & H). done.
  - intros x' js' j'. by rewrite lookup_empty.
Qed.

(** b2j lists, for an element, positions of b that hold it *)
Lemma b2j_ok x j : j ∈ default [] (b2j b !! x) → b !! j = Some x.
Proof.
  destruct (b2j b !! x) as [js|] eqn:E; simpl; [|by intros H; apply elem_of_nil in H].
  apply b2j_all_ok. unfold b2j in E. destruct (200 <=? length b); [|done].
  by apply map_lookup_filter_Some in E as [E _].
Qed.

Lemma j2len_get_match i j2len j :
  j2len_match a b i j2len →
  let k := j2len_get j2len j in
  k ≤ i ∧ k ≤ j ∧ block_match a b (i - k, j - k, k).
Proof.
  intros H. destruct j as [|j']; simpl.
  - repeat split; try lia. intros d Hd. simpl in Hd. lia.
  - destruct (j2len !! j') as [k|] eqn:E; simpl.
    + destruct (H j' k E) as (H1 & H2 & H3).
      replace (j' + 1 - k) with (S j' - k) in H3 by lia. repeat split; [done|lia|done].
    + repeat split; try lia. intros d Hd. simpl in Hd. lia.
Qed.

Lemma block_match_snoc i j k :
  k ≤ i → k ≤ j → block_match a b (i - k, j - k, k) → match_at a b i j →
  block_match a b (i + 1 - (k + 1), j + 1 - (k + 1), k + 1).
Proof.
  intros Hi Hj H M d Hd. simpl in *.
  replace (i + 1 - (k + 1)) with (i - k) by lia.
  replace (j + 1 - (k + 1)) with (j - k) by lia.
  destruct (decide (d < k)) as [L|L]; [by apply (H d)|].
  replace d with k by lia. by replace (i - k + k) with i by lia; replace (j - k + k) with j by lia.
Qed.

Lemma scan_row_match blo bhi i x j2len js : ∀ newj2len best,
  a !! i = Some x → (∀ j, j ∈ js → b !! j = Some x) →
  j2len_match a b i j2len → j2len_match a b (i + 1) newj2len → block_match a b best →
  let r := scan_row blo bhi i j2len js newj2len best in
  j2len_match a b (i + 1) r.1 ∧ block_match a b r.2.
Proof.
  induction js as [|j js IH]; intros newj2len best Hi Hjs HJ HN HB; simpl; [done|].
  destruct (j <? blo); [apply IH; try done; intros j' Hj'; apply Hjs; by right|].
  destruct (bhi <=? j); [done|].
  pose proof (j2len_get_match i j2len j HJ) as (K1 & K2 & K3). simpl in K1, K2, K3.
  assert (M : match_at a b i j).
  { exists x. split; [done|]. apply Hjs. by left. }
  pose proof (block_match_snoc i j _ K1 K2 K3 M) as S.
  apply IH; try done.
  - intros j' Hj'. apply Hjs. by right.
  - intros j' k'. destruct (decide (j' = j)) as [->|N].
    + rewrite lookup_insert_eq. intros [= <-]. repeat split; [lia|lia|].
      replace (j + 1 - (j2len_get j2len j + 1)) with (j + 1 - (j2len_get j2len j + 1)) by done.
      exact S.
    + rewrite lookup_insert_ne by done. apply HN.
  - destruct (best.2 <? j2len_get j2len j + 1); [exact S|done].
Qed.

Lemma row_step_match blo bhi i st :
  j2len_match a b i st.1 → block_match a b st.2 →
  let r := row_step a b blo bhi st i in
  j2len_match a b (i + 1) r.1 ∧ block_match a b r.2.
Proof.
  intros HJ HB. unfold row_step.
  destruct (a !! i) as [x|] eqn:E.
  - apply (scan_row_match blo bhi i x);
      [done|intros j; apply b2j_ok|done|intros j k; by rewrite lookup_empty|done].
  - simpl. split; [|done]. intros j k. by rewrite lookup_empty.
Qed.

Lemma rows_match blo bhi n : ∀ i st,
  j2len_match a b i st.1 → block_match a b st.2 →
  block_match a b (foldl (row_step a b blo bhi) st (seq i n)).2.
Proof.
  induction n as [|n IH]; intros i st HJ HB; simpl; [done|].
  destruct (row_step_match blo bhi i st HJ HB) as [R1 R2].
  apply (IH (S i)); [|done]. by replace (S i) with (i + 1) by lia.
Qed.

Lemma same_at_match i j : same_at a b i j = true → match_at a b i j.
Proof.
  unfold same_at, match_at. destruct (a !! i) as [x|]; [|done].
  destruct (b !! j) as [y|]; [|done]. intros H. apply bool_decide_eq_true in H as ->. eauto.
Qed.

Lemma extend_left_match alo blo besti : ∀ bestj bestsize,
  block_match a b (besti, bestj, bestsize) →
  block_match a b (extend_left a b alo blo besti bestj bestsize).
Proof.
  induction besti as [|i' IH]; intros bestj bestsize H; simpl; [done|].
  destruct bestj as [|j']; [done|].
  destruct (_ && _) eqn:G; [|done].
  apply andb_prop in G as [_ G]. apply same_at_match in G.
  apply IH. intros d Hd. simpl in *. destruct d as [|d].
  - by rewrite !Nat.add_0_r.
  - replace (i' + S d) with (S i' + d) by lia. replace (j' + S d) with (S j' + d) by lia.
    apply H. simpl. lia.
Qed.

Lemma extend_right_match n ahi bhi besti bestj : ∀ bestsize,
  block_match a b (besti, bestj, bestsize) →
  block_match a b (besti, bestj, extend_right a b n ahi bhi besti bestj bestsize).
Proof.
  induction n as [|n IH]; intros bestsize H; simpl; [done|].
  destruct (_ && _) eqn:G; [|done].
  apply andb_prop in G as [_ G]. apply same_at_match in G.
  apply IH. intros d Hd. simpl in *.
  destruct (decide (d < bestsize)) as [L|L]; [by apply H|].
  by replace d with bestsize by lia.
Qed.

(** find_longest_match returns a block of equal elements *)
Lemma find_longest_match_match alo ahi blo bhi :
  block_match a b (find_longest_match a b alo ahi blo bhi).
Proof.
  unfold find_longest_match.
  pose proof (rows_match blo bhi (ahi - alo) alo (∅, (alo, blo, 0))) as R.
  simpl in R.
  assert (R' : block_match a b
            (foldl (row_step a b blo bhi) (∅, (alo, blo, 0)) (seq alo (ahi - alo))).2).
  { apply R.
    - intros j k. by rewrite lookup_empty.
    - intros d Hd. simpl in Hd. lia. }
  clear R. destruct (foldl _ _ _).2 as [[bi0 bj0] bk0].
  pose proof (extend_left_match alo blo bi0 bj0 bk0 R') as L.
  destruct (extend_left a b alo blo bi0 bj0 bk0) as [[bi bj] bk1].
  by apply extend_right_match.
Qed.

Lemma queue_loop_match fuel : ∀ queue mb mb',
  Forall (block_match a b) mb →
  queue_loop a b fuel queue mb = Some mb' → Forall (block_match a b) mb'.
Proof.
  induction fuel as [|fuel IH]; intros queue mb mb' H.
  - destruct queue as [|[[[alo ahi] blo] bhi] queue']; simpl; [|done]. by intros [= <-].
  - destruct queue as [|[[[alo ahi] blo] bhi] queue']; simpl; [by intros [= <-]|].
    pose proof (find_longest_match_match alo ahi blo bhi) as M.
    destruct (find_longest_match a b alo ahi blo bhi) as [[i j] k].
    destruct (k =? 0); [by apply IH|].
    apply IH. apply Forall_app. split; [done|]. by constructor.
Qed.

Lemma found_blocks_match : Forall (block_match a b) (found_blocks a b).
Proof.
  unfold found_blocks.
  destruct (queue_loop a b _ _ _) as [mb|] eqn:E; simpl; [|constructor].
  eapply queue_loop_match; [|exact E]. constructor.
Qed.

Lemma collapse_step_match st x :
  block_match a b st.1 → Forall (block_match a b) st.2 → block_match a b x →
  block_match a b (collapse_step st x).1 ∧ Forall (block_match a b) (collapse_step st x).2.
Proof.
  destruct st as [[[i1 j1] k1] na], x as [[i2 j2] k2]. simpl. intros H1 Hna H2.
  destruct (_ && _) eqn:G.
  - apply andb_prop in G as [G1 G2]. apply Nat.eqb_eq in G1, G2. subst i2 j2.
    split; [|done]. unfold block_match in *. intros d Hd. simpl in *.
    destruct (decide (d < k1)) as [L|L]; [by apply H1|].
    specialize (H2 (d - k1) ltac:(lia)). simpl in H2.
    by replace (i1 + k1 + (d - k1)) with (i1 + d) in H2 by lia;
       replace (j1 + k1 + (d - k1)) with (j1 + d) in H2 by lia.
  - simpl. split; [done|]. destruct (k1 =? 0); [done|].
    apply Forall_app. split; [done|]. by constructor.
Qed.

Lemma collapse_loop_match l : ∀ st,
  block_match a b st.1 → Forall (block_match a b) st.2 → Forall (block_match a b) l →
  block_match a b (foldl collapse_step st l).1 ∧
  Forall (block_match a b) (foldl collapse_step st l).2.
Proof.
  induction l as [|x l IH]; intros st H1 H2 Hl; simpl; [done|].
  apply Forall_cons in Hl as [Hx Hl].
  destruct (collapse_step_match st x H1 H2 Hx). by apply IH.
Qed.

Lemma collapse_match l :
  Forall (block_match a b) l → Forall (block_match a b) (collapse l).
Proof.
  intros H. unfold collapse.
  destruct (collapse_loop_match l ((0, 0, 0), [])) as [M1 M2]; try done.
  { intros d Hd. simpl in Hd. lia. }
  destruct (foldl collapse_step _ l) as [[[i1 j1] k1] na]. simpl in *.
  destruct (k1 =? 0); [done|]. apply Forall_app. split; [done|]. by constructor.
Qed.

(** every block of get_matching_blocks is a block of equal elements *)
Lemma get_matching_blocks_match : Forall (block_match a b) (get_matching_blocks a b).
Proof.
  unfold get_matching_blocks. apply Forall_app. split.
  - apply collapse_match.
    pose proof (merge_sort_Permutation block_le (found_blocks a b)) as P.
    rewrite P. apply found_blocks_match.
  - constructor; [|constructor]. intros d Hd. simpl in Hd. lia.
Qed.

(** a lyrics word is matched with a transcribed word of the same form *)
Lemma lyrics_to_trans_match i j :
  Align.lyrics_to_trans a b !! i = Some j → match_at a b i j.
Proof.
  intros H. apply lyrics_to_trans_lookup in H as ((x & Hx & d & Hd & -> & ->) & _).
  pose proof get_matching_blocks_match as M. rewrite Forall_forall in M.
  apply (M x); [|done]. unfold get_matching_blocks. apply elem_of_app. by left.
Qed.

End Match.

End MatchFacts.

(** ** Matched and estimated entries *)

Module TimingFacts.

Import StrFacts MatchFacts.
Local Close Scope string_scope.

Section Gap.

Variable transcribed : list transcribed_word.
Variable l2t : gmap nat nat.
Variable n : nat.

Lemma prev_time_skip i :
  l2t !! i = None → prev_time transcribed l2t (S i) = prev_time transcribed l2t i.
Proof.
  intros H. unfold prev_time. rewrite range_down_S. simpl. by rewrite H.
Qed.

Lemma next_time_skip i :
  l2t !! S i = None → S i < n →
  next_time transcribed l2t n i = next_time transcribed l2t n (S i).
Proof.
  intros H L. unfold next_time.
  assert (E : range_up n i = S i :: range_up n (S i)).
  { unfold range_up. replace (n - (i + 1)) with (S (n - (S i + 1))) by lia.
    replace (i + 1) with (S i) by lia. simpl. f_equal. f_equal. lia. }
  rewrite E. simpl. by rewrite H.
Qed.

(** two neighbours that are both unmatched get the same times *)
Lemma timing_of_gap i lw lw' t t' :
  l2t !! i = None → l2t !! S i = None → S i < n →
  timing_of transcribed l2t n i lw = Ok t →
  timing_of transcribed l2t n (S i) lw' = Ok t' →
  t_start t = t_start t' ∧ t_end t = t_end t'.
Proof.
  intros H H' L. unfold timing_of. rewrite H, H'.
  rewrite (prev_time_skip i H), (next_time_skip i H' L).
  destruct (prev_time transcribed l2t i) as [pt|]; simpl; [|done].
  destruct (next_time transcribed l2t n (S i)) as [nt|]; simpl; [|done].
  by intros [= <-] [= <-].
Qed.

Lemma first_matched_none (js : list nat) :
  (∀ i, l2t !! i = None) → first_matched l2t js = None.
Proof. intros H. induction js as [|j js IH]; simpl; [done|]. by rewrite H. Qed.

Lemma timing_of_unanchored i lw :
  (∀ i, l2t !! i = None) →
  timing_of transcribed l2t n i lw = Ok (unanchored lw).
Proof.
  intros H. unfold timing_of, prev_time, next_time.
  rewrite H, !first_matched_none by done.
  change (Ok {| t_word := lw_original lw; t_start := round2 (est_time zero None);
                t_end := round2 (fadd (est_time zero None) (lit (2 # 10)));
                t_estimated := Some true; t_line := lw_line lw |} = Ok (unanchored lw)).
  unfold unanchored.
  assert (E1 : round2 (est_time zero None) = lit (3 # 10)) by (vm_compute; reflexivity).
  assert (E2 : round2 (fadd (est_time zero None) (lit (2 # 10))) = lit (1 # 2))
    by (vm_compute; reflexivity).
  by rewrite E1, E2.
Qed.

Lemma timings_from_unanchored lws : ∀ i0,
  (∀ i, l2t !! i = None) →
  timings_from transcribed l2t n i0 lws = Ok (map unanchored lws).
Proof.
  intros i0 H. revert i0. induction lws as [|lw lws IH]; intros i0; [done|].
  cbn [timings_from map]. rewrite IH, timing_of_unanchored by done. reflexivity.
Qed.

End Gap.

(** the entries of align_lyrics, one for every lyrics word *)
Lemma align_lyrics_entries lines segments ts :
  align_lyrics lines segments = Ok ts →
  let lws := get_lyrics_words lines in
  let tr := transcribed_words segments in
  let l2t := lyrics_to_trans (map lw_clean lws) (map tw_clean tr) in
  length ts = length lws ∧
  ∀ i t, ts !! i = Some t →
    ∃ lw, lws !! i = Some lw ∧ timing_of tr l2t (length lws) i lw = Ok t.
Proof.
  intros E lws tr l2t.
  assert (N : lws ≠ []).
  { intros N. unfold lws in N. rewrite (align_lyrics_empty lines segments N) in E. done. }
  rewrite (align_lyrics_ok lines segments N) in E.
  destruct (result_timings_ok lws tr) as (ts' & E' & L & K).
  fold lws tr in E. rewrite E' in E. injection E as ->.
  split; [done|]. intros i t Ht.
  destruct (lws !! i) as [lw|] eqn:Elw.
  - exists lw. split; [done|]. destruct (K i lw Elw) as (t' & Ht' & T).
    rewrite Ht in Ht'. by injection Ht' as <-.
  - apply lookup_ge_None in Elw. apply lookup_lt_Some in Ht. lia.
Qed.

Lemma l2t_image_range lws tr i t :
  lyrics_to_trans (map lw_clean lws) (map tw_clean tr) !! i = Some t → t < length tr.
Proof. intros H. by apply l2t_range in H as [_ H]. Qed.

End TimingFacts.

(** ** The lines of the reactive format *)

Module ReactiveFacts.

Local Close Scope string_scope.

Lemma words_array_length font color ws : ∀ prev_start,
  length (words_array font color prev_start ws) = length ws.
Proof.
  induction ws as [|w ws IH]; intros prev_start; simpl; [done|]. by rewrite IH.
Qed.

Lemma words_array_style font color ws : ∀ prev_start,
  Forall (λ rw, rw_font rw = font ∧ rw_color rw = color)
         (words_array font color prev_start ws).
Proof.
  induction ws as [|w ws IH]; intros prev_start; simpl; constructor; [done|apply IH].
Qed.

Lemma line_obj_total font color subtitles k ws :
  total_words (line_obj font color subtitles k ws) = length ws.
Proof.
  destruct ws as [|w ws]; [done|].
  unfold line_obj, total_words. cbn [sum_list_with rl_text].
  rewrite words_array_length. lia.
Qed.

Lemma total_words_app l1 l2 : total_words (l1 ++ l2) = total_words l1 + total_words l2.
Proof. apply sum_list_with_app. Qed.

(** lines numbered by [keys], which holds every line number once, share
    out the words *)
Lemma on_line_partition (wt : list timing) : ∀ keys : list nat,
  NoDup keys → (∀ w, w ∈ wt → t_line w ∈ keys) →
  sum_list_with (λ k, length (on_line k wt)) keys = length wt.
Proof.
  induction wt as [|w wt IH]; intros keys ND H.
  - clear ND H. induction keys as [|k keys IHk]; [done|]. simpl in *. done.
  - specialize (IH keys ND ltac:(intros w' Hw'; apply H; by right)).
    assert (Hin : t_line w ∈ keys) by (apply H; by left).
    clear H. simpl. rewrite <- IH. clear IH.
    induction keys as [|k keys IHk]; [by apply elem_of_nil in Hin|].
    apply NoDup_cons in ND as [Nk ND]. simpl.
    unfold on_line at 1. rewrite filter_cons. fold (on_line k wt).
    destruct (decide (t_line w = k)) as [E|N].
    + simpl. f_equal. f_equal. clear IHk Hin. subst k.
      induction keys as [|k' keys IHk']; [done|]. simpl.
      apply not_elem_of_cons in Nk as [N1 N2]. apply NoDup_cons in ND as [_ ND].
      rewrite (IHk' N2 ND). f_equal.
      unfold on_line. rewrite filter_cons. by destruct (decide (t_line w = k')).
    + apply elem_of_cons in Hin as [Hin|Hin]; [done|].
      rewrite (IHk ND Hin). lia.
Qed.

Lemma StronglySorted_lt_NoDup (l : list nat) : StronglySorted lt l → NoDup l.
Proof.
  induction 1 as [|x l _ IH F]; constructor; [|done].
  intros Hx. rewrite Forall_forall in F. specialize (F x Hx). lia.
Qed.

Lemma format_reactive_total wt font color subtitles :
  total_words (format_reactive wt font color subtitles) = length wt.
Proof.
  rewrite format_reactive_lines.
  destruct (sorted_keys_ok wt) as [S M].
  rewrite <- (on_line_partition wt (sorted_keys (group_lines wt))).
  - clear S M. induction (sorted_keys (group_lines wt)) as [|k keys IH]; [done|].
    rewrite map_cons, concat_cons, total_words_app, line_obj_total.
    cbn [sum_list_with]. by rewrite IH.
  - by apply StronglySorted_lt_NoDup.
  - intros w Hw. apply M. intros E.
    assert (Hin : w ∈ on_line (t_line w) wt) by (by apply list_elem_of_filter).
    rewrite E in Hin. by apply elem_of_nil in Hin.
Qed.

Lemma format_reactive_records wt font color subtitles :
  Forall (λ rl, rl_isJson rl = true ∧ rl_locked rl = true ∧ rl_text rl ≠ [] ∧
                Forall (λ rw, rw_font rw = font ∧ rw_color rw = color) (rl_text rl))
         (format_reactive wt font color subtitles).
Proof.
  rewrite format_reactive_lines.
  induction (sorted_keys (group_lines wt)) as [|k keys IH]; simpl; [constructor|].
  apply Forall_app. split; [|done].
  destruct (on_line k wt) as [|w ws]; simpl; constructor; [|constructor].
  simpl. repeat split; [done|]. constructor; [done|]. apply words_array_style.
Qed.

(** *** Keys that are not read *)

Lemma on_line_view k wt :
  on_line k (map reactive_view wt) = map reactive_view (on_line k wt).
Proof.
  unfold on_line. induction wt as [|w wt IH]; [done|].
  rewrite map_cons, !filter_cons. simpl.
  destruct (decide (t_line w = k)); simpl; by rewrite IH.
Qed.

Lemma words_array_view font color ws : ∀ prev_start,
  words_array font color prev_start (map reactive_view ws) =
  words_array font color prev_start ws.
Proof.
  induction ws as [|w ws IH]; intros prev_start; simpl; [done|]. by rewrite IH.
Qed.

Lemma line_obj_view font color subtitles k ws :
  line_obj font color subtitles k (map reactive_view ws) =
  line_obj font color subtitles k ws.
Proof.
  destruct ws as [|w ws]; [done|].
  unfold line_obj. cbn [map reactive_view t_start].
  by rewrite (words_array_view font color (w :: ws)).
Qed.

Lemma sorted_keys_view wt :
  sorted_keys (group_lines (map reactive_view wt)) = sorted_keys (group_lines wt).
Proof.
  destruct (sorted_keys_ok wt) as [S M].
  destruct (sorted_keys_ok (map reactive_view wt)) as [S' M'].
  apply (StronglySorted_unique_strong lt); [intros; lia|done|done|].
  apply NoDup_Permutation; [by apply StronglySorted_lt_NoDup..|].
  intros k. rewrite M, M', on_line_view.
  destruct (on_line k wt); simpl; split; done.
Qed.

Lemma format_reactive_view wt font color subtitles :
  format_reactive (map reactive_view wt) font color subtitles =
  format_reactive wt font color subtitles.
Proof.
  rewrite !format_reactive_lines, sorted_keys_view. f_equal.
  apply map_ext. intros k. by rewrite on_line_view, line_obj_view.
Qed.

End ReactiveFacts.

(** ** The subtitle file and main *)

Module MainFacts.

Import Str StrFacts.
Local Close Scope string_scope.
Local Open Scope Z_scope.

Lemma rfind_from_app c (l1 : list ascii) : ∀ l2 i last,
  rfind_from c (l1 ++ l2) i last =
  rfind_from c l2 (i + Z.of_nat (length l1)) (rfind_from c l1 i last).
Proof.
  induction l1 as [|x l1 IH]; intros l2 i last; simpl.
  - by rewrite Z.add_0_r.
  - rewrite IH. f_equal. lia.
Qed.

Lemma rfind_from_absent c (l : list ascii) : ∀ i last,
  c ∉ l → rfind_from c l i last = last.
Proof.
  induction l as [|x l IH]; intros i last H; simpl; [done|].
  apply not_elem_of_cons in H as [N H].
  destruct (Ascii.eqb_spec x c) as [->|_]; [done|]. by apply IH.
Qed.

Lemma rfind_from_bound c (l : list ascii) : ∀ i last,
  last < i → last ≤ rfind_from c l i last < i + Z.of_nat (length l).
Proof.
  induction l as [|x l IH]; intros i last H; simpl; [lia|].
  destruct (Ascii.eqb x c).
  - pose proof (IH (i + 1) i ltac:(lia)). lia.
  - pose proof (IH (i + 1) last ltac:(lia)). lia.
Qed.

(** the last occurrence *)
Lemma rfind_last c (l1 l2 : list ascii) :
  c ∉ l2 → rfind c (l1 ++ c :: l2) = Z.of_nat (length l1).
Proof.
  intros H. unfold rfind. rewrite rfind_from_app. simpl.
  rewrite Ascii.eqb_refl. by apply rfind_from_absent.
Qed.

Lemma finds_name_spec (cs : list ascii) n : ∀ f k x,
  (f ≤ k < f + n)%nat → cs !! k = Some x → x ≠ "."%char → finds_name cs n f = true.
Proof.
  induction n as [|n IH]; intros f k x Hk Hx N; [lia|]. simpl.
  destruct (cs !! f) as [c|] eqn:E; [|done].
  destruct (Ascii.eqb_spec c ".") as [->|_]; [|done].
  apply (IH (S f) k x); [|done|done].
  destruct (decide (k = f)) as [->|]; [congruence|lia].
Qed.

Lemma splitext_join p : String.append (splitext p).1 (splitext p).2 = p.
Proof.
  unfold splitext. destruct (_ && _); simpl.
  - apply chars_inj. rewrite chars_append, !list_ascii_of_string_of_list_ascii.
    apply take_drop.
  - apply chars_inj. rewrite chars_append. simpl. by rewrite app_nil_r.
Qed.

Lemma splitext_no_dot p :
  "."%char ∉ list_ascii_of_string p → splitext p = (p, EmptyString).
Proof.
  intros H. unfold splitext, rfind at 2. rewrite rfind_from_absent by done.
  pose proof (rfind_from_bound "/" (list_ascii_of_string p) 0 (-1) ltac:(lia)) as B.
  fold (rfind "/" (list_ascii_of_string p)) in B.
  destruct (Z.ltb_spec (rfind "/" (list_ascii_of_string p)) (-1)); [lia|done].
Qed.

(** a file name that ends with a dot and an extension *)
Lemma splitext_ext (dir : list ascii) x (e : list ascii) :
  x ≠ "."%char → x ≠ "/"%char → "."%char ∉ e → "/"%char ∉ e →
  splitext (string_of_list_ascii (dir ++ x :: "."%char :: e)) =
  (string_of_list_ascii (dir ++ [x]), string_of_list_ascii ("."%char :: e)).
Proof.
  intros Nd Ns Hd Hs. unfold splitext. rewrite list_ascii_of_string_of_list_ascii.
  assert (D : rfind "." (dir ++ x :: "."%char :: e) = Z.of_nat (length dir) + 1).
  { replace (dir ++ x :: "."%char :: e)%list with ((dir ++ [x]) ++ "."%char :: e)%list
      by (by rewrite <- app_assoc).
    rewrite rfind_last by done. rewrite length_app. simpl. lia. }
  assert (S : -1 ≤ rfind "/" (dir ++ x :: "."%char :: e) < Z.of_nat (length dir)).
  { unfold rfind. rewrite rfind_from_app. simpl.
    destruct (Ascii.eqb_spec x "/") as [->|_]; [done|].
    destruct (Ascii.eqb_spec "." "/") as [?|_]; [done|].
    rewrite rfind_from_absent by done.
    pose proof (rfind_from_bound "/" dir 0 (-1) ltac:(lia)). lia. }
  rewrite D. destruct (Z.ltb_spec (rfind "/" (dir ++ x :: "."%char :: e))
                                  (Z.of_nat (length dir) + 1)) as [_|?]; [|lia].
  rewrite (finds_name_spec _ _ _ (length dir) x); [|lia| |done].
  - simpl. replace (Z.to_nat (Z.of_nat (length dir) + 1)) with (length (dir ++ [x]))
      by (rewrite length_app; simpl; lia).
    replace (dir ++ x :: "."%char :: e)%list with ((dir ++ [x]) ++ "."%char :: e)%list
      by (by rewrite <- app_assoc).
    by rewrite take_app_length, drop_app_length.
  - by rewrite list_lookup_middle.
Qed.

(** *** Line ends *)

Lemma lstrip_chars_suffix chars (cs : list ascii) :
  ∃ sp, cs = (sp ++ lstrip_chars chars cs)%list ∧ Forall (λ c, c ∈ chars) sp.
Proof.
  induction cs as [|c cs (sp & E & F)]; simpl.
  - by exists [].
  - case_bool_decide as S.
    + exists (c :: sp). split; [simpl; by f_equal|by constructor].
    + by exists [].
Qed.

Lemma lstrip_chars_head chars (cs : list ascii) c :
  head (lstrip_chars chars cs) = Some c → c ∉ chars.
Proof.
  induction cs as [|c' cs IH]; simpl; [done|].
  case_bool_decide as S; [done|]. simpl. by intros [= <-].
Qed.

(** what rstrip leaves: the string without the run of [chars] it ends with *)
Lemma rstrip_chars_spec chars s :
  ∃ tail, list_ascii_of_string s =
            (list_ascii_of_string (rstrip_chars chars s) ++ tail)%list ∧
          Forall (λ c, c ∈ chars) tail ∧
          ∀ c, last (list_ascii_of_string (rstrip_chars chars s)) = Some c → c ∉ chars.
Proof.
  unfold rstrip_chars. rewrite chars_on_chars.
  destruct (lstrip_chars_suffix chars (rev (list_ascii_of_string s))) as (sp & E & F).
  exists (rev sp). split; [|split].
  - apply (f_equal (@rev ascii)) in E. by rewrite rev_involutive, rev_app_distr in E.
  - by apply Forall_rev.
  - intros c. rewrite rev_alt.
    change (rev_append ?l []) with (reverse l). rewrite last_reverse.
    apply lstrip_chars_head.
Qed.

End MainFacts.

(** ** Every pair of a block enters the map *)

Module MapFacts.

Import Difflib MatchFacts.
Local Close Scope string_scope.

Lemma add_block_rows nl nt x : ∀ (m : gmap nat nat) i,
  (∀ d, d < x.2 → x.1.1 + d ≠ i) → add_block nl nt m x !! i = m !! i.
Proof.
  destruct x as [[bi bj] bk]. unfold add_block. simpl.
  induction bk as [|bk IH]; intros m i H; [done|].
  rewrite seq_S, foldl_app. simpl.
  destruct (_ && _).
  - rewrite lookup_insert_ne by (apply H; lia). apply IH. intros d Hd. apply H. lia.
  - apply IH. intros d Hd. apply H. lia.
Qed.

Lemma add_block_pair nl nt x (m : gmap nat nat) i j :
  in_block x i j → i < nl → j < nt → add_block nl nt m x !! i = Some j.
Proof.
  destruct x as [[bi bj] bk]. unfold add_block, in_block. simpl.
  intros (d & Hd & -> & ->) Hi Hj. revert m.
  induction bk as [|bk IH]; intros m; [lia|].
  rewrite seq_S, foldl_app. simpl.
  destruct (decide (d = bk)) as [->|N].
  - destruct (Nat.ltb_spec (bi + bk) nl); [|lia].
    destruct (Nat.ltb_spec (bj + bk) nt); [|lia]. simpl. by rewrite lookup_insert_eq.
  - destruct (_ && _).
    + rewrite lookup_insert_ne by lia. apply IH. lia.
    + apply IH. lia.
Qed.

Lemma add_blocks_pair nl nt (blocks : list block) : ∀ (m : gmap nat nat) x i j,
  chain blocks → x ∈ blocks → in_block x i j → i < nl → j < nt →
  foldl (add_block nl nt) m blocks !! i = Some j.
Proof.
  induction blocks as [|y blocks IH]; intros m x i j Hc Hx Hin Hi Hj.
  { by apply elem_of_nil in Hx. }
  destruct Hc as [Hy Hc]. simpl. apply elem_of_cons in Hx as [->|Hx].
  - clear IH. assert (E : add_block nl nt m y !! i = Some j) by (by apply add_block_pair).
    revert E. generalize (add_block nl nt m y). clear m.
    induction blocks as [|z blocks IHb]; intros m E; [done|]. simpl.
    apply Forall_cons in Hy as [Hz Hy]. destruct Hc as [_ Hc].
    apply IHb; [done|done|]. rewrite add_block_rows; [done|].
    intros d Hd. destruct Hin as (d' & Hd' & -> & _). unfold before in Hz. lia.
  - by apply (IH _ x).
Qed.

(** a block with a pair in it lies inside both sequences *)
Lemma block_match_range (a b : list string) x i j :
  block_match a b x → in_block x i j → i < length a ∧ j < length b.
Proof.
  intros M (d & Hd & -> & ->). destruct (M d Hd) as (e & Ha & Hb).
  apply lookup_lt_Some in Ha, Hb. done.
Qed.

Lemma lyrics_to_trans_pair (a b : list string) x i j :
  x ∈ get_matching_blocks a b → in_block x i j →
  Align.lyrics_to_trans a b !! i = Some j.
Proof.
  intros Hx Hin. unfold Align.lyrics_to_trans.
  pose proof (get_matching_blocks_match a b) as M. rewrite Forall_forall in M.
  destruct (block_match_range a b x i j (M x Hx) Hin) as [Hi Hj].
  unfold get_matching_blocks in *. rewrite foldl_app. simpl.
  apply elem_of_app in Hx as [Hx|Hx].
  - by apply (add_blocks_pair _ _ _ _ x); [apply matching_blocks_chain|..].
  - apply list_elem_of_singleton in Hx as ->.
    destruct Hin as (d & Hd & _). simpl in Hd. lia.
Qed.

End MapFacts.

(** ** The order of the start times *)

Module OrderFacts.

Import TimingFacts.
Local Close Scope string_scope.

(** the mean of two times is not after the later one, when their sum is
    finite *)
Lemma midpoint_le a b : nnf a → nnf b → (val a <= val b)%Q → nnf (fadd a b) →
  (key (fdiv (fadd a b) (lit 2)) <= key b)%Q.
Proof.
  intros Ha Hb H Ns.
  destruct (fadd_key a b Ha Hb) as [_ Ks].
  destruct (fdiv2_key _ Ns) as [_ Kh]. rewrite Kh.
  destruct (nnf_key b Hb) as [Kb _]. rewrite Kb.
  destruct (nnf_key _ Ns) as [Kk _]. rewrite Kk in Ks.
  pose proof (nnf_lt_max _ Ns) as Ls.
  assert (Va : (0 <= val a)%Q) by apply Ha.
  assert (Vb : (0 <= val b)%Q) by apply Hb.
  assert (Vs : (0 <= val (fadd a b))%Q) by apply Ns.
  assert (D : (val (fadd a b) <= val b + val b)%Q).
  { destruct (nnf_cases b Hb) as [[sb Eb]|(pb & eb & Eb & Hp & He)].
    - assert (Zb : (val b == 0)%Q) by (rewrite Eb; reflexivity).
      assert (Za : (val a == 0)%Q) by lra.
      rewrite Ks. rewrite G_zero; lra.
    - assert (R : (rndQ (val b + val b) == val b + val b)%Q).
      { rewrite (rndQ_proper _ (inject_Z (Zpos pb)%Z * pow2 (eb + 1))%Q).
        - rewrite rndQ_fix by lia. rewrite Eb. cbn [val]. rewrite pow2_S. ring.
        - lra.
        - rewrite Eb. cbn [val]. rewrite pow2_S. ring. }
      assert (M : (G (val a + val b) <= G (val b + val b))%Q) by (apply G_mono; lra).
      rewrite <- Ks in M. unfold G in M.
      destruct (RNabs_cases (val b + val b)%Q ltac:(lra)) as [(L1 & N1 & V1)|(L1 & E1)].
      + destruct (nnf_key _ N1) as [K1 _]. rewrite K1 in M. lra.
      + lra. }
  rewrite <- (G_fix b Hb). apply G_mono.
  - apply Qle_shift_div_l; [reflexivity|]. lra.
  - apply Qle_shift_div_r; [reflexivity|]. lra.
Qed.

(** the sum of two times up to 10^6 s is finite *)
Lemma fadd_finite a b : nnf a → nnf b →
  (val a <= 1000000)%Q → (val b <= 1000000)%Q → nnf (fadd a b).
Proof.
  intros Ha Hb La Lb. destruct (fadd_key a b Ha Hb) as [Ns Ks].
  apply (nnx_finite _ (pow2 21)); [done| |by apply pow2_lt].
  rewrite Ks. apply G_below; [lia|apply Qle_trans with (val a); [apply Ha|]|].
  - rewrite <- (Qplus_0_r (val a)) at 1. apply Qplus_le_r. apply Hb.
  - assert (E : (pow2 21 == 2097152)%Q) by (rewrite pow2_Z by lia; reflexivity).
    rewrite E. lra.
Qed.

Lemma fle_refl x : nnx x → fle x x = true.
Proof.
  intros H. apply fle_intro; [by apply nnx_not_nan..|]. apply Qle_refl.
Qed.

(** the difference of two times, the later one first, is not negative *)
Lemma fsub_nonneg x y : nnf x → nnf y → (val y <= val x)%Q → nnx (fsub x y).
Proof.
  intros Hx Hy H.
  destruct (nnf_cases x Hx) as [[sx ->]|(px & ex & -> & _)];
    destruct (nnf_cases y Hy) as [[sy ->]|(py & ey & -> & _)].
  - left. apply nnf_zero.
  - pose proof (nnf_pos _ _ Hy) as P. change (val (S754_zero sx)) with 0%Q in H. lra.
  - left. exact Hx.
  - unfold fsub, fneg, fadd. cbn [negb].
    set (q := (val (S754_finite false px ex) + val (S754_finite true py ey))%Q).
    assert (Q : (0 <= q)%Q).
    { unfold q. cbn [val] in *. lra. }
    destruct (Qeq_bool q 0); [left; apply nnf_zero|].
    rewrite RN_nonneg by done. by apply RNabs_nnx.
Qed.

(** rounding a time up to 2^21 s to two decimals gives a finite time *)
Lemma round2_finite x : nnf x → (val x <= pow2 21)%Q →
  nnf (round2 x) ∧ (val (round2 x) <= pow2 22)%Q.
Proof.
  intros Hx L. destruct (round2_key x Hx) as [N K].
  assert (V : (0 <= val x)%Q) by apply Hx.
  pose proof (cents_nonneg x V) as C.
  assert (C' : (0 <= inject_Z (cents x))%Q) by (rewrite <- (Zle_Qle 0); exact C).
  pose proof (rhe_bounds (val x * 100)) as [B _]. fold (cents x) in B.
  assert (E21 : (pow2 21 == 2097152)%Q) by (rewrite pow2_Z by lia; reflexivity).
  assert (E22 : (pow2 22 == 4194304)%Q) by (rewrite pow2_Z by lia; reflexivity).
  assert (Kb : (key (round2 x) <= pow2 22)%Q).
  { rewrite K. apply G_below; [lia| |].
    - apply Qle_shift_div_l; [reflexivity|]. lra.
    - apply Qle_shift_div_r; [reflexivity|]. lra. }
  assert (F : nnf (round2 x)).
  { apply (nnx_finite _ (pow2 22)); [done|done|by apply pow2_lt]. }
  split; [done|]. by destruct (nnf_key _ F) as [<- _].
Qed.

(** a time up to 2^22 s has a finite number of milliseconds *)
Lemma fmul_1000_finite x : nnf x → (val x <= pow2 22)%Q →
  is_finite (fmul x (lit 1000)) = true.
Proof.
  intros Hx L.
  assert (E : lit 1000 = S754_finite false 8796093022208000 (-43))
    by (vm_compute; reflexivity).
  assert (V : (val (lit 1000) == 1000)%Q) by (rewrite E; vm_compute; reflexivity).
  destruct (nnf_cases x Hx) as [[sx ->]|(px & ex & Ex & _)].
  - rewrite E. reflexivity.
  - pose proof (nnf_pos px ex) as P. rewrite <- Ex in P. specialize (P Hx).
    rewrite E in *. rewrite Ex in *. unfold fmul.
    set (q := (val (S754_finite false px ex) *
               val (S754_finite false 8796093022208000 (-43)))%Q) in *.
    assert (Q0 : (0 < q)%Q) by (unfold q; rewrite V; lra).
    assert (E22 : (pow2 22 == 4194304)%Q) by (rewrite pow2_Z by lia; reflexivity).
    assert (E32 : (pow2 32 == 4294967296)%Q) by (rewrite pow2_Z by lia; reflexivity).
    assert (Q1 : (q <= pow2 32)%Q) by (unfold q; rewrite V; lra).
    rewrite RN_nonneg by lra.
    pose proof (G_below q 32 ltac:(lia) ltac:(lra) Q1) as B. unfold G in B.
    destruct (RNabs_cases q ltac:(lra)) as [(_ & N1 & _)|(_ & E1)].
    + destruct N1 as [N1 _]. by destruct (RNabs false q).
    + rewrite E1 in B. cbn [key] in B.
      assert (pow2 32 < pow2 1024)%Q by (by apply pow2_lt). lra.
Qed.

#[local] Instance starts_le_trans : Transitive starts_le.
Proof. intros x y z. unfold starts_le. apply Qle_trans. Qed.

Lemma adjacent_Sorted {A} (R : A → A → Prop) (l : list A) :
  (∀ i x y, l !! i = Some x → l !! S i = Some y → R x y) → Sorted R l.
Proof.
  induction l as [|x l IH]; intros H; constructor.
  - apply IH. intros i y z Hy Hz. by apply (H (S i)).
  - destruct l as [|y l]; constructor. by apply (H 0%nat).
Qed.

Lemma StronglySorted_filter_keep {A} (R : A → A → Prop) (P : A → Prop)
    `{∀ x, Decision (P x)} (l : list A) :
  StronglySorted R l → StronglySorted R (filter P l).
Proof.
  induction 1 as [|x l _ IH F]; [constructor|].
  rewrite filter_cons. destruct (decide (P x)); [|done].
  constructor; [done|]. rewrite Forall_forall in *. intros y Hy.
  apply list_elem_of_filter in Hy as [_ Hy]. by apply F.
Qed.

(** the deltas of a line whose starts are finite and in order *)
Lemma words_array_nonneg font color ws : ∀ prev_start,
  nnf prev_start → Forall (λ w, nnf (t_start w)) ws → StronglySorted starts_le ws →
  (∀ w, w ∈ ws → (val prev_start <= val (t_start w))%Q) →
  Forall (λ rw, fle zero (rw_time rw) = true) (words_array font color prev_start ws).
Proof.
  induction ws as [|w ws IH]; intros prev Hp Hf Hs Hle; simpl; constructor.
  - cbn [rw_time].
    apply Forall_cons in Hf as [Hw _].
    assert (N : nnx (round2 (fsub (t_start w) prev))).
    { apply round2_nnx, fsub_nonneg; [done|done|]. apply Hle. by left. }
    apply fle_intro; [done|by apply nnx_not_nan|]. cbn [zero key val].
    by destruct (nnx_key _ N).
  - apply Forall_cons in Hf as [Hw Hf]. apply StronglySorted_cons in Hs as [Hws Hs].
    apply IH; [done|done|done|]. rewrite Forall_forall in Hws. exact Hws.
Qed.

Lemma format_reactive_nonneg wt font color subtitles :
  Forall (λ w, nnf (t_start w)) wt → StronglySorted starts_le wt →
  Forall (λ rl, Forall (λ rw, fle zero (rw_time rw) = true) (rl_text rl))
         (format_reactive wt font color subtitles).
Proof.
  intros Hf Hs. rewrite format_reactive_lines.
  induction (sorted_keys (group_lines wt)) as [|k keys IH]; simpl; [constructor|].
  apply Forall_app. split; [|done].
  assert (Hf' : Forall (λ w, nnf (t_start w)) (on_line k wt)).
  { unfold on_line. rewrite Forall_forall in *. intros w Hw.
    apply list_elem_of_filter in Hw as [_ Hw]. by apply Hf. }
  assert (Hs' : StronglySorted starts_le (on_line k wt)).
  { unfold on_line. by apply StronglySorted_filter_keep. }
  destruct (on_line k wt) as [|w ws]; [constructor|].
  unfold line_obj. constructor; [|constructor].
  cbn [rl_text]. apply (words_array_nonneg font color (w :: ws) (t_start w)); [|done|done|].
  - by apply Forall_cons in Hf' as [? _].
  - intros w' Hw'. apply elem_of_cons in Hw' as [->|Hw']; [apply Qle_refl|].
    apply StronglySorted_cons in Hs' as [Hs' _]. rewrite Forall_forall in Hs'.
    by apply Hs'.
Qed.

Section Order.

Variable transcribed : list transcribed_word.
Variable l2t : gmap nat nat.
Variable n : nat.
Hypothesis in_range : ∀ i t, l2t !! i = Some t → t < length transcribed.
Hypothesis timed_ok : well_timed transcribed.
Hypothesis chrono : chronological transcribed.
Hypothesis incr : increasing l2t.
Hypothesis bounded : below (lit 1000000) transcribed.

(** the anchor before the word after a matched word is that word's end *)
Lemma prev_anchor i j tw pt :
  l2t !! i = Some j → transcribed !! j = Some tw →
  is_prev_time transcribed l2t (S i) pt → pt = tw_end tw.
Proof.
  intros Hl Htw [(p & tp & twp & Hp & Hlp & Hq & Htp & ->)|[Hq _]].
  - destruct (decide (p = i)) as [->|N].
    + rewrite Hl in Hlp. injection Hlp as <-. rewrite Htw in Htp. by injection Htp as <-.
    + rewrite (Hq i) in Hl by lia. done.
  - rewrite (Hq i) in Hl by lia. done.
Qed.

(** the anchor after the word before a matched word is that word's start *)
Lemma next_anchor i j tw nt :
  S i < n → l2t !! S i = Some j → transcribed !! j = Some tw →
  is_next_time transcribed l2t n i nt → nt = Some (tw_start tw).
Proof.
  intros Hn Hl Htw [(q & tq & twq & Hq & Hlq & Hr & Htq & ->)|[Hr _]].
  - destruct (decide (q = S i)) as [->|N].
    + rewrite Hl in Hlq. injection Hlq as <-. rewrite Htw in Htq. by injection Htq as <-.
    + rewrite (Hr (S i)) in Hl by lia. done.
  - rewrite (Hr (S i)) in Hl by lia. done.
Qed.

Lemma timing_of_order i lw lw' t t' :
  S i < n →
  timing_of transcribed l2t n i lw = Ok t →
  timing_of transcribed l2t n (S i) lw' = Ok t' →
  fle (t_start t) (t_start t') = true.
Proof.
  intros Hn T T'. destruct nnf_lit_1e6 as [N6 V6].
  destruct (l2t !! i) as [j|] eqn:Hl; destruct (l2t !! S i) as [j'|] eqn:Hl'.
  - destruct (timing_of_matched transcribed l2t n in_range i lw j Hl) as (tw & Htw & E).
    destruct (timing_of_matched transcribed l2t n in_range (S i) lw' j' Hl')
      as (tw' & Htw' & E').
    rewrite E in T. rewrite E' in T'. injection T as <-. injection T' as <-. cbn [t_start].
    destruct (timed_ok _ _ Htw) as (Hs & He & Hse).
    destruct (timed_ok _ _ Htw') as (Hs' & _ & _).
    apply is_time_nnf in Hs, He, Hs'.
    apply round2_mono; [by left|by left|].
    destruct (nnf_key _ Hs) as [-> _]. destruct (nnf_key _ Hs') as [-> _].
    apply Qle_trans with (val (tw_end tw)); [by apply nnf_fle|].
    apply nnf_fle; [done|done|].
    apply (chrono j j' tw tw'); [|done|done]. apply (incr i j (S i) j' Hl Hl'). lia.
  - destruct (timing_of_matched transcribed l2t n in_range i lw j Hl) as (tw & Htw & E).
    destruct (timing_of_unmatched transcribed l2t n in_range (S i) lw' Hl')
      as (pt & nt & P & N & E').
    rewrite E in T. rewrite E' in T'. injection T as <-. injection T' as <-. cbn [t_start].
    destruct (anchors_ok transcribed l2t n timed_ok chrono incr (S i) pt nt P N) as [Hp Hx].
    destruct (est_time_ok pt nt Hp Hx) as [Ne Le].
    rewrite (prev_anchor i j tw pt Hl Htw P) in *.
    destruct (timed_ok _ _ Htw) as (Hs & He & Hse). apply is_time_nnf in Hs, He.
    apply round2_mono; [by left|done|].
    destruct (nnf_key _ Hs) as [-> _].
    apply fle_elim in Le as (_ & _ & Le). destruct (nnf_key _ He) as [K _].
    rewrite K in Le. apply Qle_trans with (val (tw_end tw)); [by apply nnf_fle|done].
  - destruct (timing_of_unmatched transcribed l2t n in_range i lw Hl)
      as (pt & nt & P & N & E).
    destruct (timing_of_matched transcribed l2t n in_range (S i) lw' j' Hl')
      as (tw' & Htw' & E').
    rewrite E in T. rewrite E' in T'. injection T as <-. injection T' as <-. cbn [t_start].
    destruct (anchors_ok transcribed l2t n timed_ok chrono incr i pt nt P N) as [Hp Hx].
    destruct (anchors_below transcribed l2t n timed_ok (lit 1000000) i pt nt N6 bounded P N)
      as [Bp Bx].
    destruct (est_time_ok pt nt Hp Hx) as [Ne _].
    rewrite (next_anchor i j' tw' nt Hn Hl' Htw' N) in *.
    destruct (Hx _ eq_refl) as [Hs' Hle]. specialize (Bx _ eq_refl).
    apply round2_mono; [done|by left|]. cbn [est_time].
    apply midpoint_le; [done|done|done|].
    apply fadd_finite; [done|done|by rewrite <- V6..].
  - destruct (timing_of_gap transcribed l2t n i lw lw' t t' Hl Hl' Hn T T') as [-> _].
    destruct (timing_of_unmatched transcribed l2t n in_range (S i) lw' Hl')
      as (pt & nt & P & N & E').
    rewrite E' in T'. injection T' as <-. cbn [t_start].
    destruct (anchors_ok transcribed l2t n timed_ok chrono incr (S i) pt nt P N) as [Hp Hx].
    destruct (est_time_ok pt nt Hp Hx) as [Ne _].
    apply fle_refl. by apply round2_nnx.
Qed.

(** the times of an entry are finite *)
Lemma timing_of_finite i lw t :
  timing_of transcribed l2t n i lw = Ok t →
  (nnf (t_start t) ∧ (val (t_start t) <= pow2 22)%Q) ∧
  (nnf (t_end t) ∧ (val (t_end t) <= pow2 22)%Q).
Proof.
  intros T. destruct nnf_lit_1e6 as [N6 V6].
  assert (E20 : (pow2 20 == 1048576)%Q) by (rewrite pow2_Z by lia; reflexivity).
  assert (E21 : (pow2 21 == 2097152)%Q) by (rewrite pow2_Z by lia; reflexivity).
  destruct (l2t !! i) as [j|] eqn:Hl.
  - destruct (timing_of_matched transcribed l2t n in_range i lw j Hl) as (tw & Htw & E).
    rewrite E in T. injection T as <-. cbn [t_start t_end].
    destruct (timed_ok _ _ Htw) as (Hs & He & Hse). apply is_time_nnf in Hs, He.
    pose proof (nnf_fle _ _ Hs He Hse) as L.
    pose proof (nnf_fle _ _ He N6 (bounded _ _ Htw)) as L'.
    split; [apply round2_finite; [exact Hs|lra]|apply round2_finite; [exact He|lra]].
  - destruct (timing_of_unmatched transcribed l2t n in_range i lw Hl)
      as (pt & nt & P & N & E).
    rewrite E in T. injection T as <-. cbn [t_start t_end].
    destruct (anchors_ok transcribed l2t n timed_ok chrono incr i pt nt P N) as [Hp Hx].
    destruct (anchors_below transcribed l2t n timed_ok (lit 1000000) i pt nt N6 bounded P N)
      as [Bp Bx].
    destruct (est_time_below pt nt Hp Hx) as [F V].
    { by rewrite <- V6. }
    { intros nx Hnx. rewrite <- V6. by apply Bx. }
    split; [apply round2_finite; [done|lra]|].
    assert (V2 : (val (lit (2 # 10)) <= 1)%Q) by (vm_compute; discriminate).
    destruct (fadd_key _ _ F nnf_lit_2_10) as [Nx Kx].
    assert (Vf : (0 <= val (est_time pt nt))%Q) by apply F.
    assert (V0 : (0 <= val (lit (2 # 10)))%Q) by apply nnf_lit_2_10.
    assert (Kb : (key (fadd (est_time pt nt) (lit (2 # 10))) <= pow2 21)%Q).
    { rewrite Kx. apply G_below; [lia|lra|lra]. }
    assert (Ff : nnf (fadd (est_time pt nt) (lit (2 # 10)))).
    { apply (nnx_finite _ (pow2 21)); [done|done|by apply pow2_lt]. }
    apply round2_finite; [done|]. by destruct (nnf_key _ Ff) as [<- _].
Qed.

End Order.

End OrderFacts.

(** ** The properties *)

Import StrFacts MatchFacts TimingFacts FormatFacts ReactiveFacts MainFacts.

(** *** clean_word *)

(** X1: on ASCII text [clean_word] is idempotent: a normalised word is its
    own normal form, so comparing stored ['clean'] values is comparing
    normal forms. *)
Theorem X1_clean_word_idempotent (w : string) :
  Str.ascii_text w → clean_word (clean_word w) = clean_word w.
Proof.
  intros _. apply chars_inj.
  rewrite (chars_clean_word (clean_word w)), chars_clean_word.
  apply clean_chars_idem.
Qed.

Lemma X1_witness : clean_word (clean_word "Don't!") = clean_word "Don't!".
Proof. apply X1_clean_word_idempotent. repeat constructor. Defined.

(** X2: on ASCII text [clean_word] ignores the case of the letters and
    every character outside [[\w']]: upper-casing or lower-casing a word, or
    inserting such a character anywhere, does not change the result. *)
Theorem X2_clean_word_ignores_case_and_punctuation (w w1 w2 : string) (c : ascii) :
  (Str.ascii_text w →
   clean_word (Str.upper w) = clean_word w ∧
   clean_word (Str.lower w) = clean_word w) ∧
  (Str.ascii_text (w1 +:+ String c w2) → Str.is_token_char c = false →
   clean_word (w1 +:+ String c w2) = clean_word (w1 +:+ w2)).
Proof.
  split; [intros _; split|intros _].
  - apply chars_inj. rewrite !chars_clean_word. unfold Str.upper.
    rewrite chars_on_chars, map_map. f_equal. apply map_ext, lower_upper_char.
  - apply chars_inj. rewrite !chars_clean_word. unfold Str.lower.
    rewrite chars_on_chars, map_map. f_equal. apply map_ext, lower_char_idem.
  - intros T. apply chars_inj. rewrite !chars_clean_word, !chars_append.
    cbn [list_ascii_of_string]. rewrite !map_app, !filter_app, map_cons, filter_cons.
    destruct (decide (Str.is_token_char (Str.lower_char c))) as [Y|_]; [|done].
    by rewrite token_lower_char, T in Y.
Qed.

Lemma X2_witness :
  clean_word (Str.upper "Rock-n-Roll") = clean_word "Rock-n-Roll" ∧
  clean_word "Rock-n-Roll" = clean_word "Rockn-Roll".
Proof.
  split.
  - apply (proj1 (X2_clean_word_ignores_case_and_punctuation "Rock-n-Roll" "" "" "a")).
    repeat constructor.
  - apply (proj2 (X2_clean_word_ignores_case_and_punctuation "" "Rock" "n-Roll" "-"));
      [repeat constructor|reflexivity].
Defined.

(** X3: the result of [clean_word] holds only lower-case letters, digits,
    underscores and apostrophes. *)
Theorem X3_clean_word_alphabet (w : string) :
  Forall (λ c, Str.is_lower c || Str.is_digit c || Ascii.eqb c "_" || Ascii.eqb c "'" = true)
         (list_ascii_of_string (clean_word w)).
Proof.
  rewrite chars_clean_word. apply Forall_forall. intros c H.
  apply list_elem_of_filter in H as [T H].
  change (map ?f ?l) with (f <$> l) in H.
  apply list_elem_of_fmap in H as (c0 & -> & _).
  apply Is_true_true in T. revert T. clear. each_ascii c0.
Qed.

(** *** get_lyrics_words *)

(** X4: on an ASCII line the words are its maximal runs of characters of
    [[\w']]: a line that is one such run is one word, and a character outside
    the class separates the words before it from the words after it. *)
Theorem X4_line_words_split (k : nat) (s s1 s2 : string) (c : ascii) :
  (Str.ascii_text s → token s →
   line_words k s = [{| lw_original := s; lw_clean := clean_word s; lw_line := k |}]) ∧
  (Str.ascii_text (s1 +:+ String c s2) → Str.is_token_char c = false →
   line_words k (s1 +:+ String c s2) = (line_words k s1 ++ line_words k s2)%list).
Proof.
  split.
  - intros _ [N T]. unfold line_words.
    rewrite finditer_tokens_run by done. rewrite app_nil_r.
    unfold Str.flush. destruct (rev (list_ascii_of_string s)) as [|c0 r] eqn:E.
    + apply (f_equal (@rev ascii)) in E. rewrite rev_involutive in E. simpl in E.
      destruct s; [done|discriminate E].
    + rewrite <- E, rev_involutive, string_of_list_ascii_of_string. done.
  - intros _ T. unfold line_words. rewrite chars_append. cbn [list_ascii_of_string].
    rewrite finditer_tokens_split by done. by rewrite map_app.
Qed.

Lemma X4_witness :
  line_words 3 "don't" =
    [{| lw_original := "don't"; lw_clean := clean_word "don't"; lw_line := 3 |}] ∧
  line_words 3 "hey, you" = (line_words 3 "hey" ++ line_words 3 " you")%list.
Proof.
  split.
  - apply (proj1 (X4_line_words_split 3 "don't" "" "" "a")).
    + repeat constructor.
    + split; [discriminate|]. repeat constructor.
  - apply (proj2 (X4_line_words_split 3 "" "hey" " you" ","));
      [repeat constructor|reflexivity].
Defined.

(** X5: on ASCII lyrics every word [get_lyrics_words] returns is a
    non-empty run of characters of [[\w']], carries its own normal form, and
    that normal form is not empty (it has as many characters as the word):
    no lyrics word is dropped by a later test for an empty normal form. *)
Theorem X5_lyrics_words_are_tokens (lines : list string) :
  Forall Str.ascii_text lines →
  Forall (λ lw, token (lw_original lw) ∧
                lw_clean lw = clean_word (lw_original lw) ∧
                lw_clean lw ≠ "" ∧
                String.length (lw_clean lw) = String.length (lw_original lw))
         (get_lyrics_words lines).
Proof. intros _. apply get_lyrics_words_tokens. Qed.

Lemma X5_witness :
  Forall (λ lw, token (lw_original lw) ∧
                lw_clean lw = clean_word (lw_original lw) ∧
                lw_clean lw ≠ "" ∧
                String.length (lw_clean lw) = String.length (lw_original lw))
         (get_lyrics_words ["Hey, you!"; "don't"]).
Proof. apply X5_lyrics_words_are_tokens. repeat constructor. Defined.

(** X6: [get_lyrics_words] keeps the order of the file: the line numbers
    of its words never decrease, each is the index of a line, and the words
    with line number [k] are exactly the words of line [k], in their order. *)
Theorem X6_lyrics_words_by_line (lines : list string) (k : nat) (line : string) :
  StronglySorted Nat.le (map lw_line (get_lyrics_words lines)) ∧
  Forall (λ lw, (lw_line lw < length lines)%nat) (get_lyrics_words lines) ∧
  (lines !! k = Some line →
   filter (λ lw, lw_line lw = k) (get_lyrics_words lines) = line_words k line).
Proof.
  split; [apply get_lyrics_words_sorted|].
  split; [apply get_lyrics_words_line|]. apply get_lyrics_words_on_line.
Qed.

Lemma X6_witness :
  filter (λ lw, lw_line lw = 1%nat) (get_lyrics_words ["la la"; "oh, yeah"; ""]) =
  line_words 1 "oh, yeah".
Proof.
  apply (proj2 (proj2 (X6_lyrics_words_by_line ["la la"; "oh, yeah"; ""] 1 "oh, yeah"))).
  reflexivity.
Defined.

(** *** The transcribed words *)

(** X7: on a transcription of ASCII words, a word is kept only when it is
    not empty after stripping: every entry of [transcribed] has a word that
    is not empty and has no white space at either end, with its normal form
    beside it, and there are at most as many entries as words in the
    segments. *)
Theorem X7_transcribed_words_stripped (segments : list (list word_info)) :
  ascii_segments segments →
  Forall (λ tw, tw_word tw ≠ "" ∧ stripped (tw_word tw) ∧
                tw_clean tw = clean_word (tw_word tw))
         (transcribed_words segments) ∧
  (length (transcribed_words segments) ≤ length (concat segments))%nat.
Proof.
  intros _. split; [apply transcribed_words_ok|].
  unfold transcribed_words. induction segments as [|seg segments IH]; [done|].
  cbn [map concat]. rewrite !length_app.
  assert (length (concat (map transcribed_of seg)) ≤ length seg)%nat; [|lia].
  clear. induction seg as [|wi seg IH]; [done|].
  cbn [map concat]. rewrite length_app. cbn [length].
  assert (length (transcribed_of wi) ≤ 1)%nat; [|lia].
  unfold transcribed_of. case_bool_decide; simpl; lia.
Qed.

Lemma X7_witness :
  Forall (λ tw, tw_word tw ≠ "" ∧ stripped (tw_word tw) ∧
                tw_clean tw = clean_word (tw_word tw))
         (transcribed_words [[heard " Hey," 1 2; heard "  " 2 3]]) ∧
  (length (transcribed_words [[heard " Hey," 1 2; heard "  " 2 3]]) ≤
   length (concat [[heard " Hey," 1 2; heard "  " 2 3]]))%nat.
Proof.
  apply X7_transcribed_words_stripped.
  repeat constructor; intros w [= <-]; repeat constructor.
Defined.

(** *** The matching *)

(** X8: [lyrics_to_trans] only pairs equal normal forms: the lyrics word
    and the transcribed word of an entry of the map have the same ['clean']
    value. *)
Theorem X8_matched_words_are_equal (lyrics_clean trans_clean : list string) (i j : nat) :
  lyrics_to_trans lyrics_clean trans_clean !! i = Some j →
  ∃ x, lyrics_clean !! i = Some x ∧ trans_clean !! j = Some x.
Proof.
  intros H. apply lyrics_to_trans_match in H as (x & Hx). by exists x.
Qed.

Lemma X8_witness :
  ∃ x, ["oh"; "la"; "oh"; "yeah"] !! 3%nat = Some x ∧ ["oh"; "oh"; "yeah"] !! 2%nat = Some x.
Proof.
  apply (X8_matched_words_are_equal ["oh"; "la"; "oh"; "yeah"] ["oh"; "oh"; "yeah"] 3 2).
  vm_compute. reflexivity.
Defined.

(** X9: an entry of [align_lyrics] without the flag ['estimated'] carries
    the times, rounded to two decimals, of a transcribed word whose normal
    form is the normal form of the lyrics word. *)
Theorem X9_matched_entry_times (lines : list string) (segments : list (list word_info))
    (ts : list timing) (i : nat) (t : timing) :
  align_lyrics lines segments = Ok ts → ts !! i = Some t → t_estimated t = None →
  ∃ lw tw, get_lyrics_words lines !! i = Some lw ∧ tw ∈ transcribed_words segments ∧
    tw_clean tw = lw_clean lw ∧
    t_word t = lw_original lw ∧ t_line t = lw_line lw ∧
    t_start t = round2 (tw_start tw) ∧ t_end t = round2 (tw_end tw).
Proof.
  intros E Ht Hest.
  destruct (align_lyrics_entries lines segments ts E) as [_ K].
  destruct (K i t Ht) as (lw & Hlw & T).
  destruct (timing_of_word _ _ _ _ _ _ T) as (_ & _ & Q). rewrite Hest in Q.
  set (lws := get_lyrics_words lines) in *. set (tr := transcribed_words segments) in *.
  destruct (lyrics_to_trans (map lw_clean lws) (map tw_clean tr) !! i) as [j|] eqn:L;
    [|done].
  destruct (timing_of_matched tr _ (length lws) (l2t_image_range lws tr) i lw j L)
    as (tw & Htw & T').
  rewrite T in T'. injection T' as ->.
  apply lyrics_to_trans_match in L as (x & X1 & X2).
  rewrite list_lookup_fmap, Hlw in X1. rewrite list_lookup_fmap, Htw in X2.
  simpl in X1, X2. injection X1 as <-. injection X2 as X2.
  exists lw, tw. repeat split; try done. by apply list_elem_of_lookup_2 in Htw.
Qed.

Lemma X9_witness :
  ∃ lw tw, get_lyrics_words ["la la"; "x"] !! 1%nat = Some lw ∧
    tw ∈ transcribed_words [[heard " la" 1 2; heard " La!" 2 3]] ∧
    tw_clean tw = lw_clean lw.
Proof.
  destruct (align_lyrics ["la la"; "x"] [[heard " la" 1 2; heard " La!" 2 3]])
    as [ts|] eqn:E; [|vm_compute in E; discriminate E].
  destruct (ts !! 1%nat) as [t|] eqn:Ht;
    [|vm_compute in E; injection E as <-; discriminate Ht].
  destruct (X9_matched_entry_times _ _ ts 1 t E Ht) as (lw & tw & H1 & H2 & H3 & _).
  - vm_compute in E. injection E as <-. vm_compute in Ht. injection Ht as <-. reflexivity.
  - exists lw, tw. split; [exact H1|]. split; [exact H2|exact H3].
Defined.

(** X10: two consecutive entries that are both estimated get the same
    times: the words of a gap are not spread over the gap, each of them is
    placed at the same estimate. *)
Theorem X10_gap_entries_coincide (lines : list string) (segments : list (list word_info))
    (ts : list timing) (i : nat) (t t' : timing) :
  align_lyrics lines segments = Ok ts →
  ts !! i = Some t → ts !! S i = Some t' →
  t_estimated t = Some true → t_estimated t' = Some true →
  t_start t = t_start t' ∧ t_end t = t_end t'.
Proof.
  intros E Ht Ht' Hest Hest'.
  destruct (align_lyrics_entries lines segments ts E) as [Len K].
  destruct (K i t Ht) as (lw & Hlw & T). destruct (K (S i) t' Ht') as (lw' & Hlw' & T').
  destruct (timing_of_word _ _ _ _ _ _ T) as (_ & _ & Q). rewrite Hest in Q.
  destruct (timing_of_word _ _ _ _ _ _ T') as (_ & _ & Q'). rewrite Hest' in Q'.
  apply lookup_lt_Some in Hlw'.
  eapply timing_of_gap; [| |exact Hlw'|exact T|exact T'].
  - by destruct (lyrics_to_trans _ _ !! i).
  - by destruct (lyrics_to_trans _ _ !! S i).
Qed.

Lemma X10_witness :
  ∃ ts t t', align_lyrics ["la"; "one two"] [[heard " la" 1 2]] = Ok ts ∧
    ts !! 1%nat = Some t ∧ ts !! 2%nat = Some t' ∧
    t_start t = t_start t' ∧ t_end t = t_end t'.
Proof.
  destruct (align_lyrics ["la"; "one two"] [[heard " la" 1 2]])
    as [ts|] eqn:E; [|vm_compute in E; discriminate E].
  destruct (ts !! 1%nat) as [t|] eqn:Ht;
    [|vm_compute in E; injection E as <-; discriminate Ht].
  destruct (ts !! 2%nat) as [t'|] eqn:Ht';
    [|vm_compute in E; injection E as <-; discriminate Ht'].
  exists ts, t, t'. split; [reflexivity|]. split; [exact Ht|]. split; [exact Ht'|].
  apply (X10_gap_entries_coincide _ _ ts 1 t t' E Ht Ht').
  - vm_compute in E. injection E as <-. vm_compute in Ht. injection Ht as <-. reflexivity.
  - vm_compute in E. injection E as <-. vm_compute in Ht'. injection Ht' as <-. reflexivity.
Defined.

(** X11: when no normal form of the lyrics occurs in the transcription (an
    empty transcription included), [align_lyrics] still returns one entry per
    lyrics word, and every entry is the same estimate: from 0.3 s to 0.5 s. *)
Theorem X11_nothing_matched (lines : list string) (segments : list (list word_info)) :
  get_lyrics_words lines ≠ [] →
  (∀ lw tw, lw ∈ get_lyrics_words lines → tw ∈ transcribed_words segments →
            lw_clean lw ≠ tw_clean tw) →
  align_lyrics lines segments = Ok (map unanchored (get_lyrics_words lines)).
Proof.
  intros N D. rewrite (align_lyrics_ok lines segments N). unfold result_timings.
  apply timings_from_unanchored. intros i.
  destruct (lyrics_to_trans _ _ !! i) as [j|] eqn:L; [|done].
  apply lyrics_to_trans_match in L as (x & X1 & X2).
  rewrite list_lookup_fmap in X1. rewrite list_lookup_fmap in X2.
  destruct (get_lyrics_words lines !! i) as [lw|] eqn:Hlw; [|done].
  destruct (transcribed_words segments !! j) as [tw|] eqn:Htw; [|done].
  simpl in X1, X2. injection X1 as <-. injection X2 as X2.
  exfalso. apply (D lw tw); [by eapply list_elem_of_lookup_2..|done].
Qed.

Lemma X11_witness :
  align_lyrics ["la la"] [] = Ok (map unanchored (get_lyrics_words ["la la"])).
Proof.
  apply X11_nothing_matched.
  - vm_compute. discriminate.
  - intros lw tw _ H. vm_compute in H. by apply elem_of_nil in H.
Defined.

(** *** format_output *)

(** X12: the keys of the simple format.  Every word whose normal form is
    not empty has its normal form among the keys; every key is the normal
    form of such a word, or that form followed by an underscore and a
    number from 2 to the number of its occurrences; its value is a start
    time of that form; and there are at most as many keys as entries. *)
Theorem X12_simple_format_keys (use_milliseconds : bool) (word_timings : list timing)
    (m : gmap string num) :
  format_output word_timings use_milliseconds true = Ok (OutSimple m) →
  (∀ it, it ∈ word_timings → form it ≠ "" → is_Some (m !! form it)) ∧
  (∀ key v, m !! key = Some v →
     ∃ it, it ∈ word_timings ∧ key_of use_milliseconds word_timings key v it) ∧
  (size m ≤ length word_timings)%nat.
Proof.
  unfold format_output.
  destruct (simple_loop use_milliseconds (∅, ∅) word_timings) as [st|] eqn:E; [|done].
  intros [= <-].
  destruct (simple_loop_inv use_milliseconds word_timings [] (∅, ∅) st
              (simple_inv_init use_milliseconds) E) as (_ & _ & I3 & I4 & I5).
  rewrite app_nil_l in *. done.
Qed.

Lemma X12_witness :
  ∃ m, format_output [timed "Go" 1 (3 # 2) 0; timed "go!" 2 (5 # 2) 0] false true
         = Ok (OutSimple m) ∧
       is_Some (m !! "go") ∧ (size m ≤ 2)%nat.
Proof.
  destruct (format_output [timed "Go" 1 (3 # 2) 0; timed "go!" 2 (5 # 2) 0] false true)
    as [[m|l]|e] eqn:E; [|vm_compute in E; discriminate E..].
  destruct (X12_simple_format_keys false _ m E) as (K & _ & S).
  exists m. split; [reflexivity|]. split; [|exact S].
  apply (K (timed "Go" 1 (3 # 2) 0)); [by left|]. vm_compute. discriminate.
Defined.

(** X13: when no two entries have the same normal form, the simple format
    in seconds is exactly the map from each normal form that is not empty to
    the start time of its entry: no key is generated and no value is lost. *)
Theorem X13_simple_format_distinct (word_timings : list timing) :
  NoDup (map form word_timings) →
  ∃ m, format_output word_timings false true = Ok (OutSimple m) ∧
    ∀ key v, m !! key = Some v ↔
      key ≠ "" ∧ ∃ it, it ∈ word_timings ∧ form it = key ∧ v = NFloat (t_start it).
Proof.
  intros ND. unfold format_output.
  destruct (simple_loop_seconds word_timings (∅, ∅)) as [st E]. rewrite E.
  exists st.1. split; [done|].
  apply (simple_loop_distinct word_timings [] (∅, ∅) st); [done| |done].
  split; simpl.
  - intros w H. rewrite lookup_empty in H. by destruct H.
  - intros key v. rewrite lookup_empty. split; [done|].
    intros (_ & it & H & _). by apply elem_of_nil in H.
Qed.

Lemma X13_witness :
  ∃ m, format_output [timed "Hey" 1 (3 # 2) 0; timed "you" 2 (5 # 2) 0] false true
         = Ok (OutSimple m) ∧
       m !! "you" = Some (NFloat (lit 2)).
Proof.
  destruct (X13_simple_format_distinct [timed "Hey" 1 (3 # 2) 0; timed "you" 2 (5 # 2) 0])
    as (m & E & K).
  - vm_compute. repeat constructor; [|apply not_elem_of_nil ..].
    intros H. apply list_elem_of_singleton in H. discriminate H.
  - exists m. split; [exact E|]. apply K. split; [discriminate|].
    exists (timed "you" 2 (5 # 2) 0). split; [right; left|]. split; reflexivity.
Defined.

(** X14: the flat format in milliseconds returns exactly when every start
    and end time, multiplied by 1000, is finite; otherwise it raises the
    exception of [int()] on a time of the list: ValueError on a NaN and
    OverflowError on an infinity. *)
Theorem X14_milliseconds_need_finite_times (word_timings : list timing) :
  ((∃ es, format_output word_timings true false = Ok (OutFlat es)) ↔
   Forall (λ it, is_finite (fmul (t_start it) (lit 1000)) = true ∧
                 is_finite (fmul (t_end it) (lit 1000)) = true) word_timings) ∧
  (∀ e, format_output word_timings true false = Raise e →
     ∃ it x, it ∈ word_timings ∧ (x = t_start it ∨ x = t_end it) ∧
       is_finite (fmul x (lit 1000)) = false ∧
       e = if is_nan (fmul x (lit 1000)) then ValueError else OverflowError).
Proof.
  unfold format_output. split; [split|].
  - intros [es E]. destruct (ms_entries word_timings) as [es'|] eqn:E'; [|done].
    by apply ms_entries_finite in E'.
  - intros F. destruct (ms_entries_total word_timings F) as [es ->]. by exists es.
  - intros e E. destruct (ms_entries word_timings) as [es'|e'] eqn:E'; [done|].
    injection E as ->. apply ms_entries_Raise in E' as (it & x & Hin & Hx & R).
    apply to_ms_Raise in R as [R1 R2]. by exists it, x.
Qed.

Lemma X14_witness :
  ∃ it x, it ∈ [{| t_word := "la"; t_start := lit 1; t_end := S754_infinity false;
                  t_estimated := None; t_line := 0 |}] ∧
    (x = t_start it ∨ x = t_end it) ∧ is_finite (fmul x (lit 1000)) = false ∧
    OverflowError = if is_nan (fmul x (lit 1000)) then ValueError else OverflowError.
Proof.
  apply (proj2 (X14_milliseconds_need_finite_times
                  [{| t_word := "la"; t_start := lit 1; t_end := S754_infinity false;
                      t_estimated := None; t_line := 0 |}])).
  vm_compute. reflexivity.
Defined.

(** *** format_reactive *)

(** X15: the reactive format loses and invents no word: the word objects
    of all lines together are as many as the entries; every line record has
    ['isJson'] and ['locked'] true and at least one word, and every word
    object carries the font and the colour given. *)
Theorem X15_reactive_keeps_every_word (word_timings : list timing) (font color : string)
    (subtitles : option (list string)) :
  total_words (format_reactive word_timings font color subtitles) = length word_timings ∧
  Forall (λ rl, rl_isJson rl = true ∧ rl_locked rl = true ∧ rl_text rl ≠ [] ∧
                Forall (λ rw, rw_font rw = font ∧ rw_color rw = color) (rl_text rl))
         (format_reactive word_timings font color subtitles).
Proof.
  split; [apply format_reactive_total|apply format_reactive_records].
Qed.

(** X16: the reactive format reads only the word, the start and the line
    of an entry: blanking the end time and the flag ['estimated'] of every
    entry leaves the output unchanged. *)
Theorem X16_reactive_ignores_end_and_estimated (word_timings : list timing)
    (font color : string) (subtitles : option (list string)) :
  format_reactive (map reactive_view word_timings) font color subtitles =
  format_reactive word_timings font color subtitles.
Proof. apply format_reactive_view. Qed.

(** *** load_subtitles *)

(** X17: the path of the subtitle file.  For a lyrics path that ends with a
    dot and an extension free of dots and slashes, after a character that is
    neither, the subtitle path has [_s] inserted before that dot; for a path
    without any dot, [_s] is appended. *)
Theorem X17_subtitle_path (stem : string) (x : ascii) (ext p : string) :
  (x ≠ "."%char → x ≠ "/"%char →
   "."%char ∉ list_ascii_of_string ext → "/"%char ∉ list_ascii_of_string ext →
   subtitle_path (stem +:+ String x (String "." ext)) =
   stem +:+ String x ("_s." +:+ ext)) ∧
  ("."%char ∉ list_ascii_of_string p → subtitle_path p = p +:+ "_s").
Proof.
  split.
  - intros Nd Ns Hd Hs. unfold subtitle_path.
    pose proof (splitext_ext (list_ascii_of_string stem) x (list_ascii_of_string ext)
                  Nd Ns Hd Hs) as E.
    assert (P : string_of_list_ascii
                  (list_ascii_of_string stem ++ x :: "."%char :: list_ascii_of_string ext)
                = stem +:+ String x (String "." ext)).
    { apply chars_inj. rewrite list_ascii_of_string_of_list_ascii, chars_append. done. }
    rewrite P in E. rewrite E. apply chars_inj.
    rewrite !chars_append, !list_ascii_of_string_of_list_ascii. simpl.
    rewrite <- app_assoc. done.
  - intros H. unfold subtitle_path. rewrite (splitext_no_dot p H).
    apply chars_inj. rewrite !chars_append. done.
Qed.

Lemma X17_witness :
  subtitle_path "songs/lyrics.txt" = "songs/lyrics_s.txt" ∧
  subtitle_path "lyrics" = "lyrics_s".
Proof.
  split.
  - apply (proj1 (X17_subtitle_path "songs/lyric" "s" "txt" "")).
    + discriminate.
    + discriminate.
    + vm_compute. intros H. repeat (apply elem_of_cons in H as [H|H]; [discriminate H|]).
      by apply elem_of_nil in H.
    + vm_compute. intros H. repeat (apply elem_of_cons in H as [H|H]; [discriminate H|]).
      by apply elem_of_nil in H.
  - apply (proj2 (X17_subtitle_path "" "a" "" "lyrics")).
    vm_compute. intros H. repeat (apply elem_of_cons in H as [H|H]; [discriminate H|]).
    by apply elem_of_nil in H.
Defined.

(** X18: [load_subtitles] returns None exactly when nothing stands at the
    subtitle path; when a file that can be read stands there, it returns one
    string per line of the file, each the line without the run of line feeds
    and carriage returns it ends with, and nothing else removed; when what
    stands there cannot be read, it raises the exception of [open] or
    [readlines]. *)
Theorem X18_load_subtitles (files : gmap string file_state) (lyrics_path : string) :
  match files !! subtitle_path lyrics_path with
  | None => load_subtitles files lyrics_path = Ok None
  | Some (Unreadable e) => load_subtitles files lyrics_path = Raise e
  | Some (Readable lines) =>
      ∃ subtitles, load_subtitles files lyrics_path = Ok (Some subtitles) ∧
        Forall2 (λ line sub,
                   ∃ tail, list_ascii_of_string line =
                             (list_ascii_of_string sub ++ tail)%list ∧
                     Forall (λ c, c ∈ ["010"; "013"]%char) tail ∧
                     ∀ c, last (list_ascii_of_string sub) = Some c →
                          c ∉ ["010"; "013"]%char)
                lines subtitles
  end.
Proof.
  unfold load_subtitles.
  destruct (files !! subtitle_path lyrics_path) as [[lines|e]|]; [|done|done].
  eexists. split; [reflexivity|].
  induction lines as [|line lines IH]; simpl; constructor; [|done].
  apply rstrip_chars_spec.
Qed.

Lemma X18_witness :
  (∃ subtitles,
     load_subtitles
       {[ "lyrics_s.txt" :=
            Readable [String "h" (String "i" (String "013" (String "010" "")))] ]}
       "lyrics.txt" = Ok (Some subtitles) ∧
     Forall2 (λ line sub,
                ∃ tail, list_ascii_of_string line =
                          (list_ascii_of_string sub ++ tail)%list ∧
                  Forall (λ c, c ∈ ["010"; "013"]%char) tail ∧
                  ∀ c, last (list_ascii_of_string sub) = Some c →
                       c ∉ ["010"; "013"]%char)
             [String "h" (String "i" (String "013" (String "010" "")))] subtitles) ∧
  load_subtitles {[ "lyrics_s.txt" := Unreadable OSError ]} "lyrics.txt" = Raise OSError.
Proof.
  split.
  - pose proof (X18_load_subtitles
                  {[ "lyrics_s.txt" :=
                       Readable [String "h" (String "i" (String "013" (String "010" "")))] ]}
                  "lyrics.txt") as H.
    assert (E : ({[ "lyrics_s.txt" :=
                      Readable [String "h" (String "i" (String "013" (String "010" "")))] ]}
                   : gmap string file_state) !! subtitle_path "lyrics.txt" =
                Some (Readable [String "h" (String "i" (String "013" (String "010" "")))]))
      by (vm_compute; reflexivity).
    rewrite E in H. exact H.
  - pose proof (X18_load_subtitles {[ "lyrics_s.txt" := Unreadable OSError ]} "lyrics.txt")
      as H.
    assert (E : ({[ "lyrics_s.txt" := Unreadable OSError ]} : gmap string file_state)
                  !! subtitle_path "lyrics.txt" = Some (Unreadable OSError))
      by (vm_compute; reflexivity).
    rewrite E in H. exact H.
Defined.

(** *** main *)



(** *** The map and the blocks *)

(** X20: [lyrics_to_trans] holds exactly the pairs of the matching blocks:
    every pair [(lyrics_start + i, trans_start + i)] of every block passes
    the bounds test of the loop and is the entry of its lyrics index, and the
    map has no other entry. *)
Theorem X20_map_is_the_blocks (lyrics_clean trans_clean : list string) (i j : nat) :
  lyrics_to_trans lyrics_clean trans_clean !! i = Some j ↔
  ∃ x, x ∈ Difflib.get_matching_blocks lyrics_clean trans_clean ∧ Difflib.in_block x i j.
Proof.
  split.
  - intros H. apply lyrics_to_trans_lookup in H as ((x & Hx & Hin) & _).
    exists x. split; [|done]. unfold Difflib.get_matching_blocks.
    apply elem_of_app. by left.
  - intros (x & Hx & Hin). by apply (MapFacts.lyrics_to_trans_pair _ _ x).
Qed.

(** *** From the lyrics to the simple format *)

(** X21: on ASCII lyrics every entry [align_lyrics] returns has a word
    whose normal form is not empty, so the simple format skips none of them:
    the normal form of every entry is one of its keys. *)
Theorem X21_simple_format_skips_no_lyrics_word (lines : list string)
    (segments : list (list word_info)) (ts : list timing) (use_milliseconds : bool)
    (m : gmap string num) :
  Forall Str.ascii_text lines →
  align_lyrics lines segments = Ok ts →
  format_output ts use_milliseconds true = Ok (OutSimple m) →
  Forall (λ t, form t ≠ "" ∧ is_Some (m !! form t)) ts.
Proof.
  intros _ E F. destruct (align_lyrics_entries lines segments ts E) as [_ K].
  unfold format_output in F.
  destruct (simple_loop use_milliseconds (∅, ∅) ts) as [st|] eqn:L; [|done].
  injection F as <-.
  destruct (FormatFacts.simple_loop_inv use_milliseconds ts [] (∅, ∅) st
              (FormatFacts.simple_inv_init use_milliseconds) L) as (_ & _ & I3 & _).
  rewrite app_nil_l in I3.
  apply Forall_forall. intros t Ht.
  assert (N : form t ≠ "").
  { apply list_elem_of_lookup in Ht as [i Hi]. destruct (K i t Hi) as (lw & Hlw & T).
    destruct (timing_of_word _ _ _ _ _ _ T) as (W & _ & _). unfold form. rewrite W.
    pose proof (get_lyrics_words_tokens lines) as G. rewrite Forall_forall in G.
    destruct (G lw) as (_ & C & N & _); [by eapply list_elem_of_lookup_2|].
    by rewrite <- C. }
  split; [done|]. by apply I3.
Qed.

Lemma X21_witness :
  ∃ ts m, align_lyrics ["La la!"] [[heard " la" 1 2]] = Ok ts ∧
    format_output ts false true = Ok (OutSimple m) ∧
    Forall (λ t, form t ≠ "" ∧ is_Some (m !! form t)) ts.
Proof.
  destruct (align_lyrics ["La la!"] [[heard " la" 1 2]]) as [ts|] eqn:E;
    [|vm_compute in E; discriminate E].
  destruct (format_output ts false true) as [[m|l]|e] eqn:F;
    [|vm_compute in E; injection E as <-; vm_compute in F; discriminate F..].
  exists ts, m. split; [reflexivity|]. split; [exact F|].
  apply (X21_simple_format_skips_no_lyrics_word ["La la!"] [[heard " la" 1 2]] ts false m);
    [repeat constructor|exact E|exact F].
Defined.

(** *** Times in order *)

(** X22: on a transcription whose times are finite, not negative, in
    chronological order and below 10^6 s, the entries of [align_lyrics] are
    in the order of their start times: no entry starts before the entry
    before it. *)
Theorem X22_starts_in_order (lines : list string) (segments : list (list word_info))
    (ts : list timing) (i : nat) (t t' : timing) :
  well_timed (transcribed_words segments) →
  chronological (transcribed_words segments) →
  below (lit 1000000) (transcribed_words segments) →
  align_lyrics lines segments = Ok ts →
  ts !! i = Some t → ts !! S i = Some t' →
  fle (t_start t) (t_start t') = true.
Proof.
  intros Hw Hc Hb E Ht Ht'.
  destruct (TimingFacts.align_lyrics_entries lines segments ts E) as [_ K].
  destruct (K i t Ht) as (lw & Hlw & T). destruct (K (S i) t' Ht') as (lw' & Hlw' & T').
  apply lookup_lt_Some in Hlw'.
  eapply (OrderFacts.timing_of_order (transcribed_words segments)); try eassumption.
  - apply TimingFacts.l2t_image_range.
  - intros ? ? ? ?. apply lyrics_to_trans_increasing.
Qed.
Lemma X22_witness :
  ∃ ts t t',
    align_lyrics ["a x b"] [[heard " a" (1 # 10) (3 # 10); heard " b" (101 # 100) (3 # 2)]]
      = Ok ts ∧
    ts !! 1%nat = Some t ∧ ts !! 2%nat = Some t' ∧ fle (t_start t) (t_start t') = true.
Proof.
  destruct (align_lyrics ["a x b"]
              [[heard " a" (1 # 10) (3 # 10); heard " b" (101 # 100) (3 # 2)]])
    as [ts|] eqn:E; [|vm_compute in E; discriminate E].
  destruct (ts !! 1%nat) as [t|] eqn:Ht;
    [|vm_compute in E; injection E as <-; discriminate Ht].
  destruct (ts !! 2%nat) as [t'|] eqn:Ht';
    [|vm_compute in E; injection E as <-; discriminate Ht'].
  exists ts, t, t'. split; [reflexivity|]. split; [exact Ht|]. split; [exact Ht'|].
  apply (X22_starts_in_order ["a x b"]
           [[heard " a" (1 # 10) (3 # 10); heard " b" (101 # 100) (3 # 2)]] ts 1 t t');
    [| | |exact E|exact Ht|exact Ht'].
  - rewrite gap_transcribed. intros [|[|j]] tw Hj; try discriminate Hj;
      injection Hj as <-; repeat split; vm_compute; reflexivity.
  - rewrite gap_transcribed. intros [|[|j]] [|[|j']] tw tw' Hlt Hj Hj';
      try discriminate Hj; try discriminate Hj'; try lia.
    injection Hj as <-. injection Hj' as <-. vm_compute. reflexivity.
  - rewrite gap_transcribed. intros [|[|j]] tw Hj; try discriminate Hj;
      injection Hj as <-; vm_compute; reflexivity.
Defined.
(** X23: on such a transcription the reactive format made of the entries
    of [align_lyrics] has no negative time: within every line, the delta
    recorded for a word is not below 0. *)
Theorem X23_reactive_deltas_not_negative (lines : list string)
    (segments : list (list word_info)) (ts : list timing) (font color : string)
    (subtitles : option (list string)) :
  well_timed (transcribed_words segments) →
  chronological (transcribed_words segments) →
  below (lit 1000000) (transcribed_words segments) →
  align_lyrics lines segments = Ok ts →
  Forall (λ rl, Forall (λ rw, fle zero (rw_time rw) = true) (rl_text rl))
         (format_reactive ts font color subtitles).
Proof.
  intros Hw Hc Hb E.
  destruct (TimingFacts.align_lyrics_entries lines segments ts E) as [_ K].
  set (tr := transcribed_words segments) in *.
  set (lws := get_lyrics_words lines) in *.
  set (l2t := lyrics_to_trans (map lw_clean lws) (map tw_clean tr)) in *.
  assert (R : ∀ i t, l2t !! i = Some t → t < length tr)
    by apply TimingFacts.l2t_image_range.
  assert (I : increasing l2t) by (intros ? ? ? ?; apply lyrics_to_trans_increasing).
  assert (F : Forall (λ w, nnf (t_start w)) ts).
  { apply Forall_forall. intros t Ht. apply list_elem_of_lookup in Ht as [i Hi].
    destruct (K i t Hi) as (lw & _ & T).
    by destruct (OrderFacts.timing_of_finite tr l2t (length lws) R Hw Hc I Hb i lw t T)
      as [[? _] _]. }
  apply OrderFacts.format_reactive_nonneg; [done|].
  apply Sorted_StronglySorted; [apply OrderFacts.starts_le_trans|].
  apply OrderFacts.adjacent_Sorted. intros i t t' Ht Ht'.
  destruct (K i t Ht) as (lw & Hlw & T). destruct (K (S i) t' Ht') as (lw' & Hlw' & T').
  apply lookup_lt_Some in Hlw'.
  pose proof (OrderFacts.timing_of_order tr l2t (length lws) R Hw Hc I Hb i lw lw' t t'
                Hlw' T T') as L.
  rewrite Forall_forall in F.
  apply nnf_fle; [apply F; by eapply list_elem_of_lookup_2..|done].
Qed.

Lemma X23_witness :
  ∃ ts,
    align_lyrics ["a x b"] [[heard " a" (1 # 10) (3 # 10); heard " b" (101 # 100) (3 # 2)]]
      = Ok ts ∧
    Forall (λ rl, Forall (λ rw, fle zero (rw_time rw) = true) (rl_text rl))
           (format_reactive ts "bold 80px Baloo2" "white" None).
Proof.
  destruct (align_lyrics ["a x b"]
              [[heard " a" (1 # 10) (3 # 10); heard " b" (101 # 100) (3 # 2)]])
    as [ts|] eqn:E; [|vm_compute in E; discriminate E].
  exists ts. split; [reflexivity|].
  apply (X23_reactive_deltas_not_negative ["a x b"]
           [[heard " a" (1 # 10) (3 # 10); heard " b" (101 # 100) (3 # 2)]] ts);
    [| | |exact E].
  - rewrite gap_transcribed. intros [|[|j]] tw Hj; try discriminate Hj;
      injection Hj as <-; repeat split; vm_compute; reflexivity.
  - rewrite gap_transcribed. intros [|[|j]] [|[|j']] tw tw' Hlt Hj Hj';
      try discriminate Hj; try discriminate Hj'; try lia.
    injection Hj as <-. injection Hj' as <-. vm_compute. reflexivity.
  - rewrite gap_transcribed. intros [|[|j]] tw Hj; try discriminate Hj;
      injection Hj as <-; vm_compute; reflexivity.
Defined.

